(** * ElectroInit: the version resolver and the scaffold engine of [init.js]

    A shallow embedding of [init.js] and the properties of its
    specification.

    Conventions of the embedding.
    - A JavaScript string is a [string]: a sequence of code units, here the
      8-bit ones.  Every character the program inspects (["v"], ["-"],
      ["."], the sign characters, the decimal digits, white space) is one.
    - A JavaScript number that holds an integer is its value in [Z]; [NaN]
      is a value of its own.  [parseInt] is exact on digit runs below
      [2^53], which covers every version component; longer runs are read
      here with their mathematical value.
    - [undefined] and [null] are [None].
    - The file system is one tree addressed by absolute paths, with POSIX
      separators; [main] runs in a small state monad over it whose results
      are a value, a call of [process.exit] or a raised exception.
    - What the script takes from outside (its flags, the outputs of the
      tools it probes, the lines typed, the release feed, the effect of
      [npm install], the texts of the templates) is gathered in an
      environment; what it does to the outside is recorded in a trace. *)

From Stdlib Require Import ZArith List String Ascii Bool Lia.
Import ListNotations.

Local Open Scope string_scope.
Local Open Scope Z_scope.

#[local] Set Warnings "-register-all".

(** ** JavaScript primitives used by the program *)

(** A number: an integer or [NaN]. *)
Inductive jsnum : Type :=
| NaN
| Num (z : Z).

Definition code (c : ascii) : Z := Z.of_N (N_of_ascii c).

(** Characters skipped by [parseInt] before the sign: TAB, LF, VT, FF, CR,
    SP and NBSP. *)
Definition isWhiteSpace (c : ascii) : bool :=
  let n := code c in
  ((9 <=? n) && (n <=? 13)) || (n =? 32) || (n =? 160).

Definition digitVal (c : ascii) : option Z :=
  let n := code c in
  if (48 <=? n) && (n <=? 57) then Some (n - 48) else None.

Definition isDigit (c : ascii) : bool :=
  match digitVal c with Some _ => true | None => false end.

Fixpoint trimStart (s : string) : string :=
  match s with
  | String c s' => if isWhiteSpace c then trimStart s' else s
  | EmptyString => EmptyString
  end.

(** Value of the longest prefix of decimal digits, read after [acc]. *)
Fixpoint digitsValue (acc : Z) (s : string) : Z :=
  match s with
  | String c s' =>
      match digitVal c with
      | Some d => digitsValue (10 * acc + d) s'
      | None => acc
      end
  | EmptyString => acc
  end.

(** [parseInt(s, 10)]: white space, an optional sign, then the longest run
    of digits; [NaN] when that run is empty. *)
Definition parseInt (s : string) : jsnum :=
  let s1 := trimStart s in
  let '(sign, s2) :=
    match s1 with
    | String c r =>
        if Ascii.eqb c "-" then (-1, r)
        else if Ascii.eqb c "+" then (1, r)
        else (1, s1)
    | EmptyString => (1, s1)
    end in
  match s2 with
  | String c _ => if isDigit c then Num (sign * digitsValue 0 s2) else NaN
  | EmptyString => NaN
  end.

(** [s.split(sep)] for a one-character separator: never empty. *)
Fixpoint split (sep : ascii) (s : string) : list string :=
  match s with
  | EmptyString => [EmptyString]
  | String c s' =>
      if Ascii.eqb c sep then EmptyString :: split sep s'
      else match split sep s' with
           | p :: ps => String c p :: ps
           | [] => [String c EmptyString]
           end
  end.

(** [s.includes(c)] for a one-character needle. *)
Fixpoint includes (c : ascii) (s : string) : bool :=
  match s with
  | EmptyString => false
  | String d s' => Ascii.eqb d c || includes c s'
  end.

(** [s.startsWith(c)] for a one-character prefix, and [s.slice(1)]. *)
Definition startsWith (c : ascii) (s : string) : bool :=
  match s with
  | String d _ => Ascii.eqb d c
  | EmptyString => false
  end.

Definition slice1 (s : string) : string :=
  match s with
  | String _ r => r
  | EmptyString => EmptyString
  end.

(** A string is falsy when it is empty. *)
Definition truthy (s : string) : bool :=
  match s with EmptyString => false | _ => true end.

(** [a[0]] of a split result, which always has one. *)
Definition first (l : list string) : string := hd EmptyString l.

(** [x || 0] for an array element: [undefined], [NaN] and [0] are falsy. *)
Definition orZero (x : option jsnum) : Z :=
  match x with
  | Some (Num z) => z
  | Some NaN | None => 0
  end.

(** [a || b] for a possibly missing string: [undefined] and [""] are
    falsy. *)
Definition orElse (a : option string) (b : option string) : option string :=
  match a with
  | Some EmptyString | None => b
  | Some _ => a
  end.

Definition orEmpty (a : option string) : string :=
  match a with
  | Some s => s
  | None => EmptyString
  end.

(** ** SemverLite (init.js, lines 67-98) *)

Record Semver : Type := mkSemver { major : Z; minor : Z; patch : Z }.

Definition parseMajor (version : string) : option Z :=
  if negb (truthy version) then None
  else
    let clean := if startsWith "v" version then slice1 version else version in
    match parseInt (first (split "." clean)) with
    | Num m => Some m
    | NaN => None
    end.

Definition normalizeVersion (version : string) : string :=
  if negb (truthy version) then ""
  else if startsWith "v" version then slice1 version else version.

Definition parseSemver (version : string) : Semver :=
  let clean := normalizeVersion version in
  let core := first (split "-" clean) in
  let parts := map parseInt (split "." core) in
  {| major := orZero (nth_error parts 0);
     minor := orZero (nth_error parts 1);
     patch := orZero (nth_error parts 2) |}.

Definition compareSemver (a b : Semver) : Z :=
  if negb (major a =? major b) then major a - major b
  else if negb (minor a =? minor b) then minor a - minor b
  else patch a - patch b.

Definition isPreRelease (version : string) : bool :=
  includes "-" (normalizeVersion version).

(** ** ReleaseMatcher (init.js, lines 163-191) *)

(** One entry of the release feed, as parsed from JSON: each field may be
    missing. *)
Record Deps : Type := mkDeps { d_node : option string }.

Record Release : Type := mkRelease {
  r_version : option string;
  r_tag_name : option string;
  r_node : option string;
  r_deps : option Deps
}.

Record Candidate : Type := mkCandidate {
  version : string;
  node : string;
  nodeMajor : option Z
}.

Inductive Match : Type := MatchExact | MatchLower | MatchAny.

(** The object returned to [main]: a candidate and its tag.  The entry
    built from a manually entered version has neither major nor tag. *)
Record Selected : Type := mkSelected {
  sel_version : string;
  sel_node : string;
  sel_nodeMajor : option Z;
  sel_match : option Match
}.

Definition tagged (c : Candidate) (m : Match) : Selected :=
  {| sel_version := version c; sel_node := node c;
     sel_nodeMajor := nodeMajor c; sel_match := Some m |}.

(** [a === b] on values that are a number or [null]. *)
Definition strictEq (a b : option Z) : bool :=
  match a, b with
  | Some x, Some y => x =? y
  | None, None => true
  | _, _ => false
  end.

(** [a < b] on values that are a number or [null]: [null] converts to 0. *)
Definition toNumber (a : option Z) : Z :=
  match a with Some x => x | None => 0 end.

Definition lessThan (a b : option Z) : bool := toNumber a <? toNumber b.

(** [Array.prototype.sort] with a comparator.  The sort is stable, so for
    a comparator that is a total preorder its result is the one computed
    by insertion from the right. *)
Fixpoint insertBy {A : Type} (cmp : A -> A -> Z) (x : A) (l : list A) : list A :=
  match l with
  | [] => [x]
  | y :: l' => if cmp x y <=? 0 then x :: l else y :: insertBy cmp x l'
  end.

Definition sortBy {A : Type} (cmp : A -> A -> Z) (l : list A) : list A :=
  fold_right (insertBy cmp) [] l.

(** The comparator of the three [sort] calls: newest first. *)
Definition newestFirst (a b : Candidate) : Z :=
  compareSemver (parseSemver (version b)) (parseSemver (version a)).

Definition toCandidate (r : Release) : Candidate :=
  let version :=
    normalizeVersion (orEmpty (orElse (r_version r) (orElse (r_tag_name r) (Some "")))) in
  let node :=
    orEmpty (orElse (r_node r)
               (orElse (match r_deps r with Some d => d_node d | None => None end)
                       (Some ""))) in
  {| version := version; node := node; nodeMajor := parseMajor node |}.

Definition isSome {A : Type} (o : option A) : bool :=
  match o with Some _ => true | None => false end.

Definition candidatesOf (releases : list Release) : list Candidate :=
  filter (fun r => negb (isPreRelease (version r)))
    (filter (fun r => truthy (version r) && isSome (nodeMajor r))
       (map toCandidate releases)).

Definition exactPool (candidates : list Candidate) (nodeMajor0 : option Z) : list Candidate :=
  filter (fun r => strictEq (nodeMajor r) nodeMajor0) candidates.

Definition lowerPool (candidates : list Candidate) (nodeMajor0 : option Z) : list Candidate :=
  filter (fun r => lessThan (nodeMajor r) nodeMajor0) candidates.

(** [sorted[0]], tagged; the arrays it is read from are never empty. *)
Definition newest (pool : list Candidate) (m : Match) : option Selected :=
  option_map (fun c => tagged c m) (hd_error (sortBy newestFirst pool)).

Definition pickElectronVersion (releases : list Release) (nodeMajor0 : option Z)
  : option Selected :=
  let candidates := candidatesOf releases in
  let exact := exactPool candidates nodeMajor0 in
  if (0 <? List.length exact)%nat then newest exact MatchExact
  else
    let lower := lowerPool candidates nodeMajor0 in
    if (0 <? List.length lower)%nat then newest lower MatchLower
    else newest candidates MatchAny.

(** ** The file system *)

(** An absolute path, as the list of its components below the root. *)
Definition path : Type := list string.

(** What a path names: a regular file with its content and its execute
    bit, a directory with its entries in the order [readdir] lists them, or
    anything else (a symbolic link, a socket, a device).  The program
    opens none of the last kind, and paths are not followed through
    one. *)
Inductive fsnode : Type :=
| File (content : string) (exec : bool)
| Dir (entries : list (string * fsnode))
| Other.

(** The type of a directory entry as [readdirSync] reports it with
    [withFileTypes]. *)
Inductive Kind : Type := KFile | KDir | KOther.

Definition kindOf (n : fsnode) : Kind :=
  match n with
  | File _ _ => KFile
  | Dir _ => KDir
  | Other => KOther
  end.

Fixpoint assoc (k : string) (es : list (string * fsnode)) : option fsnode :=
  match es with
  | [] => None
  | (k', v) :: r => if String.eqb k' k then Some v else assoc k r
  end.

(** Replace the entry named [k], or add it after the others. *)
Fixpoint setEntry (k : string) (v : fsnode) (es : list (string * fsnode))
  : list (string * fsnode) :=
  match es with
  | [] => [(k, v)]
  | (k', v') :: r =>
      if String.eqb k' k then (k, v) :: r else (k', v') :: setEntry k v r
  end.

(** The entries without the name [k]. *)
Fixpoint dropEntry (k : string) (es : list (string * fsnode))
  : list (string * fsnode) :=
  match es with
  | [] => []
  | (k', v') :: r =>
      if String.eqb k' k then dropEntry k r else (k', v') :: dropEntry k r
  end.

Fixpoint lookup (p : path) (n : fsnode) : option fsnode :=
  match p with
  | [] => Some n
  | c :: p' =>
      match n with
      | Dir es =>
          match assoc c es with
          | Some m => lookup p' m
          | None => None
          end
      | _ => None
      end
  end.

(** The tree with the node at [p] replaced by [v]; unchanged when nothing
    is at [p]. *)
Fixpoint graft (p : path) (v : fsnode) (n : fsnode) : fsnode :=
  match p with
  | [] => v
  | c :: p' =>
      match n with
      | Dir es =>
          match assoc c es with
          | Some m => Dir (setEntry c (graft p' v m) es)
          | None => n
          end
      | _ => n
      end
  end.

(** A chain of fresh directories, one inside the other. *)
Fixpoint chain (p : path) : fsnode :=
  match p with
  | [] => Dir []
  | c :: p' => Dir [(c, chain p')]
  end.

(** [mkdir -p]: fails when a component of the path is not a directory. *)
Fixpoint mkdirp (p : path) (n : fsnode) : option fsnode :=
  match n with
  | Dir es =>
      match p with
      | [] => Some n
      | c :: p' =>
          match assoc c es with
          | Some m =>
              match mkdirp p' m with
              | Some m' => Some (Dir (setEntry c m' es))
              | None => None
              end
          | None => Some (Dir (setEntry c (chain p') es))
          end
      end
  | _ => None
  end.

(** Write the entry at [p] from what is there: the parent must be a
    directory, and [f] says what replaces the entry or that the call
    fails. *)
Fixpoint store (p : path) (f : option fsnode -> option fsnode) (n : fsnode)
  : option fsnode :=
  match p, n with
  | [c], Dir es =>
      match f (assoc c es) with
      | Some v => Some (Dir (setEntry c v es))
      | None => None
      end
  | c :: p', Dir es =>
      match assoc c es with
      | Some m =>
          match store p' f m with
          | Some m' => Some (Dir (setEntry c m' es))
          | None => None
          end
      | None => None
      end
  | _, _ => None
  end.

(** Remove the entry at [p] with everything below it; nothing happens when
    it does not exist. *)
Fixpoint detach (p : path) (n : fsnode) : fsnode :=
  match p, n with
  | [c], Dir es => Dir (dropEntry c es)
  | c :: p', Dir es =>
      match assoc c es with
      | Some m => Dir (setEntry c (detach p' m) es)
      | None => n
      end
  | _, _ => n
  end.

Definition dirname (p : path) : path := removelast p.

Definition basename (p : path) : string := last p EmptyString.

(** [path.resolve(cwd, input)] with POSIX separators. *)
Definition stepPath (acc : path) (c : string) : path :=
  if String.eqb c "" || String.eqb c "." then acc
  else if String.eqb c ".." then removelast acc
  else (acc ++ [c])%list.

Definition resolve (cwd : path) (input : string) : path :=
  let base :=
    match input with
    | String c _ => if Ascii.eqb c "/" then [] else cwd
    | EmptyString => cwd
    end in
  fold_left stepPath (split "/" input) base.

Definition pathEqb (p q : path) : bool :=
  if list_eq_dec string_dec p q then true else false.

(** ** Computations: state, [process.exit] and exceptions *)

Inductive Res (A : Type) : Type :=
| Ret (a : A)
| Exit (exitCode : Z)
| Throw.

Arguments Ret {A} a.
Arguments Exit {A} exitCode.
Arguments Throw {A}.

Definition M (S A : Type) : Type := S -> Res A * S.

Definition ret {S A : Type} (a : A) : M S A := fun s => (Ret a, s).

Definition bind {S A B : Type} (m : M S A) (k : A -> M S B) : M S B :=
  fun s =>
    match m s with
    | (Ret a, s') => k a s'
    | (Exit c, s') => (Exit c, s')
    | (Throw, s') => (Throw, s')
    end.

Definition throw {S A : Type} : M S A := fun s => (Throw, s).

Definition exit {S A : Type} (c : Z) : M S A := fun s => (Exit c, s).

(** [try { m } catch (err) { h }] *)
Definition tryCatch {S A : Type} (m : M S A) (h : M S A) : M S A :=
  fun s =>
    match m s with
    | (Throw, s') => h s'
    | r => r
    end.

Declare Scope js_scope.
Delimit Scope js_scope with js.

Notation "x <- m ;; k" := (bind m (fun x => k))
  (at level 100, m at next level, right associativity) : js_scope.
Notation "m ;; k" := (bind m (fun _ => k))
  (at level 100, right associativity) : js_scope.

Local Open Scope js_scope.

(** [for (const x of l) body(x)] and [l.forEach(body)]. *)
Fixpoint forEach {S A : Type} (l : list A) (body : A -> M S unit) : M S unit :=
  match l with
  | [] => ret tt
  | x :: r => body x ;; forEach r body
  end.

(** A step of the file system that may fail. *)
Definition attempt (f : fsnode -> option fsnode) : M fsnode unit :=
  fun fs =>
    match f fs with
    | Some fs' => (Ret tt, fs')
    | None => (Throw, fs)
    end.

(** ** The [fs] calls of the program *)

Definition existsSync (p : path) : M fsnode bool :=
  fun fs => (Ret (isSome (lookup p fs)), fs).

Definition readdirSync (p : path) : M fsnode (list (string * Kind)) :=
  fun fs =>
    match lookup p fs with
    | Some (Dir es) => (Ret (map (fun e => (fst e, kindOf (snd e))) es), fs)
    | _ => (Throw, fs)
    end.

(** [fs.mkdirSync(dir, { recursive: true })] *)
Definition ensureDir (dir : path) : M fsnode unit := attempt (mkdirp dir).

(** A new file is not executable; an existing one keeps its bit. *)
Definition writeFileSync (target : path) (content : string) : M fsnode unit :=
  attempt (store target (fun old =>
    match old with
    | None => Some (File content false)
    | Some (File _ x) => Some (File content x)
    | Some _ => None
    end)).

(** The copy has the content and the mode of the source. *)
Definition copyFileSync (from to : path) : M fsnode unit :=
  fun fs =>
    match lookup from fs with
    | Some (File content x) =>
        attempt (store to (fun old =>
          match old with
          | None | Some (File _ _) => Some (File content x)
          | Some _ => None
          end)) fs
    | _ => (Throw, fs)
    end.

(** [fs.chmodSync(target, 0o755)]; only the bit of a regular file is
    kept in the model. *)
Definition chmodSync (target : path) : M fsnode unit :=
  attempt (store target (fun old =>
    match old with
    | Some (File content _) => Some (File content true)
    | Some n => Some n
    | None => None
    end)).

(** [fs.rmSync(p, { recursive: true, force: true })]; the root itself
    cannot be removed. *)
Definition rmSync (p : path) : M fsnode unit :=
  match p with
  | [] => throw
  | _ => fun fs => (Ret tt, detach p fs)
  end.

Definition isEmptyDir (dir : path) : M fsnode bool :=
  ex <- existsSync dir ;;
  if negb ex then ret true
  else
    entries <- readdirSync dir ;;
    ret (Nat.eqb (List.length entries) 0).

Definition writeFile (target : path) (content : string) : M fsnode unit :=
  ensureDir (dirname target) ;;
  writeFileSync target content.

Definition writeExecutableIfUnix (target : path) (content : string)
  (isWindows : bool) : M fsnode unit :=
  writeFile target content ;;
  if negb isWindows then chmodSync target else ret tt.

(** ** The recursive copy of the reuse path (init.js, lines 787-804) *)

Definition COPY_IGNORE : list string := ["dist"; "logs"; ".git"].

Definition has (set : list string) (name : string) : bool :=
  existsb (String.eqb name) set.

(** [fuel] bounds the depth of the recursion, as the stack and the longest
    path the system accepts do: beyond it the call raises. *)
Fixpoint copyDir (fuel : nat) (src dest : path) (isRoot : bool) : M fsnode unit :=
  match fuel with
  | O => throw
  | S fuel' =>
      ex <- existsSync src ;;
      if negb ex then throw
      else
        ensureDir dest ;;
        entries <- readdirSync src ;;
        forEach entries (fun entry =>
          let '(name, kind) := entry in
          if isRoot && has COPY_IGNORE name then ret tt
          else
            let from := (src ++ [name])%list in
            let to := (dest ++ [name])%list in
            match kind with
            | KDir => copyDir fuel' from to false
            | KFile => ensureDir (dirname to) ;; copyFileSync from to
            | KOther => ret tt
            end)
  end.

(** ** The run: its environment, its state and what it does (lines 1-50,
    123-138, 806-1119) *)

Definition DEFAULT_TARGET : string := "init_src".
Definition TEMPLATE_DIR : string := DEFAULT_TARGET.
Definition NPM_MIRROR_REGISTRY : string := "https://registry.npmmirror.com/".
Definition ELECTRON_MIRROR : string := "https://npmmirror.com/mirrors/electron/".

Definition nl : string := String (ascii_of_nat 10) EmptyString.

Record Backend : Type := mkBackend {
  key : string;
  label : string;
  startCommandWindows : string;
  startCommandUnix : string;
  createFiles : path -> string -> M fsnode unit
}.

(** The text of the generated files: the results of the [build...]
    functions, of [toPackageName] and of [JSON.stringify(pkg, null, 2)]
    for a project name and a pinned version. *)
Record Templates : Type := mkTemplates {
  buildGitignore : string;
  buildDocs : string;
  buildFrontendIndexHtml : string;
  buildFrontendPackageJson : string -> string;
  buildFrontendViteConfig : string;
  buildFrontendTsconfig : string;
  buildFrontendTsconfigNode : string;
  buildFrontendPostcssConfig : string;
  buildFrontendTailwindConfig : string;
  buildFrontendComponentsJson : string;
  buildFrontendMainTsx : string;
  buildFrontendAppTsx : string;
  buildFrontendCss : string;
  buildFrontendUtils : string;
  buildFrontendViteEnv : string;
  buildElectronMain : string;
  buildElectronPreload : string;
  buildNodeBackend : string;
  buildFastApiBackend : string;
  buildGinBackend : string;
  buildScripts : bool -> Backend -> list (string * string);
  toPackageName : string -> string;
  stringifyPkg : string -> string -> string
}.

(** What [fetchJson(RELEASES_URL)] gives: a rejection, a value that is not
    an array, or the array of releases. *)
Inductive Fetch : Type :=
| FetchFailed
| FetchedOther
| Fetched (releases : list Release).

Record Env : Type := mkEnv {
  showHelp : bool;
  forceRebuild : bool;
  enableAudit : bool;
  isWindows : bool;
  comSpec : option string;
  cwd : path;
  (** [run("node -v")] and [run("npm -v")]: the trimmed output, or [null] *)
  nodeOut : option string;
  npmOut : option string;
  (** the line typed at the n-th prompt of the run; the user answers
      every prompt *)
  answers : nat -> string;
  fetch : Fetch;
  (** [npm install] in a directory, with the variables added to the
      environment: its exit status ([null] when it was killed or could
      not start) and what it leaves on disk *)
  npmInstall : path -> list (string * string) -> fsnode -> option Z * fsnode;
  (** depth at which a recursion raises *)
  maxDepth : nat;
  tpl : Templates
}.

Inductive Question : Type :=
| QTarget
| QOverwrite (targetDir : path)
| QUseCached
| QMirror
| QBackend
| QManualVersion
| QInstall (version : string).

Inductive Message : Type :=
| MsgHelp
| MsgNodeMissing
| MsgNpmMissing
| MsgClearing (targetDir : path)
| MsgTemplateMissing (templateDir : path)
| MsgInPlace (templateDir : path)
| MsgCopyFailed
| MsgCopied (templateDir targetDir : path)
| MsgSelectBackend
| MsgBackendOption (index : nat) (label : string)
| MsgLocalNode (nodeVersion : string)
| MsgFetching
| MsgFetchFailed
| MsgNoAutoSelect
| MsgNoVersion
| MsgUsingLower (node : string)
| MsgUsingAny
| MsgCandidate (version node : string)
| MsgCancelled
| MsgInstalling (label : string)
| MsgInstallFailed
| MsgExitCode (status : Z)
| MsgCreated (targetDir : path)
| MsgDone
| MsgError.

(** What the run does to the outside, in the order it does it. *)
Inductive Event : Type :=
| Print (m : Message)
| Asked (q : Question) (answer : string)
| RmSync (p : path)
| CopyDir (src dest : path)
| SpawnSync (command : string) (args : list string) (cwd : path)
    (status : option Z).

Record World : Type := mkWorld {
  fs : fsnode;
  asked : nat;
  trace : list Event
}.

Definition emit (e : Event) : M World unit :=
  fun w => (Ret tt, {| fs := fs w; asked := asked w; trace := trace w ++ [e] |}).

Definition print (m : Message) : M World unit := emit (Print m).

(** Run a file system call in the world. *)
Definition onFs {A : Type} (m : M fsnode A) : M World A :=
  fun w =>
    let '(r, fs') := m (fs w) in
    (r, {| fs := fs'; asked := asked w; trace := trace w |}).

Fixpoint trimEnd (s : string) : string :=
  match s with
  | EmptyString => EmptyString
  | String c s' =>
      match trimEnd s' with
      | EmptyString => if isWhiteSpace c then EmptyString else String c EmptyString
      | r => String c r
      end
  end.

Definition trim (s : string) : string := trimEnd (trimStart s).

Definition lowerChar (c : ascii) : ascii :=
  let n := code c in
  if ((65 <=? n) && (n <=? 90)) || ((192 <=? n) && (n <=? 222) && negb (n =? 215))
  then ascii_of_N (Z.to_N (n + 32)) else c.

Fixpoint toLowerCase (s : string) : string :=
  match s with
  | EmptyString => EmptyString
  | String c s' => String (lowerChar c) (toLowerCase s')
  end.

Section Run.

Variable E : Env.

Definition npmCommand : string := if isWindows E then "npm.cmd" else "npm".

Definition getNodeVersion : option string :=
  match nodeOut E with
  | None | Some EmptyString => None
  | Some out => Some (if startsWith "v" out then slice1 out else out)
  end.

Definition promptLine (question : Question) (defaultValue : string) : M World string :=
  fun w =>
    let answer := answers E (asked w) in
    let value := trim answer in
    (Ret (if String.eqb value "" then defaultValue else value),
     {| fs := fs w; asked := S (asked w);
        trace := trace w ++ [Asked question answer] |}).

Definition confirm (question : Question) (defaultYes : bool) : M World bool :=
  answer <- promptLine question "" ;;
  if negb (truthy answer) then ret defaultYes
  else
    let normalized := toLowerCase answer in
    ret (String.eqb normalized "y" || String.eqb normalized "yes").

(** [spawnSync(command, args, { cwd, stdio: "inherit", env })] for the
    install: the status it reports. *)
Definition spawnSync (command : string) (args : list string) (dir : path)
  (env : list (string * string)) : M World (option Z) :=
  fun w =>
    let '(status, fs') := npmInstall E dir env (fs w) in
    (Ret status,
     {| fs := fs'; asked := asked w;
        trace := trace w ++ [SpawnSync command args dir status] |}).

Definition runNpmInstall (dir : path) (env : list (string * string))
  (label : string) : M World unit :=
  let installArgs := (["install"] ++ (if enableAudit E then [] else ["--no-audit"]))%list in
  print (MsgInstalling label) ;;
  status <- (if isWindows E then
               let cmdExe := orEmpty (orElse (comSpec E) (Some "cmd.exe")) in
               spawnSync cmdExe ("/c" :: "npm" :: installArgs)%list dir env
             else spawnSync npmCommand installArgs dir env) ;;
  match status with
  | Some 0 => ret tt
  | _ =>
      print MsgInstallFailed ;;
      (match status with Some n => print (MsgExitCode n) | None => ret tt end) ;;
      exit 1
  end.

Definition backends : list Backend :=
  [ {| key := "node"; label := "node (default)";
       startCommandWindows := "node src\backend\index.js";
       startCommandUnix := "node src/backend/index.js";
       createFiles := fun targetDir _ =>
         writeFile (targetDir ++ ["src"; "backend"; "index.js"])%list
           (buildNodeBackend (tpl E)) |};
    {| key := "python-fastapi"; label := "python-fastapi";
       startCommandWindows := "python src\backend\app.py";
       startCommandUnix := "python src/backend/app.py";
       createFiles := fun targetDir _ =>
         writeFile (targetDir ++ ["src"; "backend"; "app.py"])%list
           (buildFastApiBackend (tpl E)) ;;
         writeFile (targetDir ++ ["src"; "backend"; "requirements.txt"])%list
           ("fastapi" ++ nl ++ "uvicorn" ++ nl) |};
    {| key := "golang-gin"; label := "golang-gin";
       startCommandWindows := "go run src\backend\main.go";
       startCommandUnix := "go run src/backend/main.go";
       createFiles := fun targetDir projectName =>
         writeFile (targetDir ++ ["src"; "backend"; "main.go"])%list
           (buildGinBackend (tpl E)) ;;
         let moduleName := if truthy projectName then projectName else "backend" in
         writeFile (targetDir ++ ["src"; "backend"; "go.mod"])%list
           ("module " ++ moduleName ++ nl ++ nl ++ "go 1.20" ++ nl) |} ].

Definition defaultBackend : Backend := hd (mkBackend "" "" "" "" (fun _ _ => ret tt)) backends.

(** [Math.max(1, Math.min(backends.length, parseInt(input, 10) || 1)) - 1] *)
Definition backendIndexOf (backendInput : string) : Z :=
  let n := match parseInt backendInput with
           | Num z => if z =? 0 then 1 else z
           | NaN => 1
           end in
  Z.max 1 (Z.min (Z.of_nat (List.length backends)) n) - 1.

(** Lines 874-886: a target that exists and is not empty is cleared, after
    the question unless [--force] was given. *)
Definition clearTarget (targetDir : path) : M World unit :=
  ex <- onFs (existsSync targetDir) ;;
  occupied <- (if ex then empty <- onFs (isEmptyDir targetDir) ;; ret (negb empty)
               else ret false) ;;
  if occupied then
    overwrite <- (if forceRebuild E then ret true
                  else confirm (QOverwrite targetDir) false) ;;
    if negb overwrite then exit 1
    else
      print (MsgClearing targetDir) ;;
      emit (RmSync targetDir) ;;
      onFs (rmSync targetDir)
  else ret tt.

(** Lines 888-918: the reuse path.  The result says whether [main] has
    returned. *)
Definition reuseCache (targetDir : path) : M World bool :=
  if negb (forceRebuild E) then
    useLocalTemplate <- confirm QUseCached false ;;
    if useLocalTemplate then
      let templateDir := resolve (cwd E) TEMPLATE_DIR in
      ex <- onFs (existsSync templateDir) ;;
      missing <- (if negb ex then ret true else onFs (isEmptyDir templateDir)) ;;
      if missing then
        print (MsgTemplateMissing templateDir) ;;
        exit 1
      else if pathEqb templateDir targetDir then
        print (MsgInPlace templateDir) ;;
        ret true
      else
        tryCatch
          (emit (CopyDir templateDir targetDir) ;;
           onFs (copyDir (maxDepth E) templateDir targetDir true))
          (print MsgCopyFailed ;; exit 1) ;;
        print (MsgCopied templateDir targetDir) ;;
        ret true
    else ret false
  else ret false.

(** Lines 978-1003: the runtime version, matched or typed in. *)
Definition selectVersion (nodeVersion : string) : M World Selected :=
  let nodeMajor0 := parseMajor nodeVersion in
  print (MsgLocalNode nodeVersion) ;;
  print MsgFetching ;;
  releases <- (match fetch E with
               | FetchFailed => print MsgFetchFailed ;; ret None
               | FetchedOther => ret None
               | Fetched l => ret (Some l)
               end) ;;
  let selected :=
    match releases with
    | Some l => pickElectronVersion l nodeMajor0
    | None => None
    end in
  selected <- (match selected with
               | Some s => ret s
               | None =>
                   print MsgNoAutoSelect ;;
                   manual <- promptLine QManualVersion "" ;;
                   if negb (truthy manual) then
                     print MsgNoVersion ;;
                     exit 1
                   else
                     ret {| sel_version := manual; sel_node := "unknown";
                            sel_nodeMajor := None; sel_match := None |}
               end) ;;
  (match sel_match selected with
   | Some MatchLower => print (MsgUsingLower (sel_node selected))
   | Some MatchAny => print MsgUsingAny
   | _ => ret tt
   end) ;;
  print (MsgCandidate (sel_version selected) (sel_node selected)) ;;
  ret selected.

Definition dirs : list path :=
  [ ["src"; "frontend"]; ["src"; "backend"]; ["src"; "electron"]; ["docs"];
    ["scripts"]; ["data"]; ["logs"]; ["dist"] ].

(** Lines 1024-1104: the populating path. *)
Definition populate (targetDir : path) (backend : Backend) (selected : Selected)
  (useMirror : bool) : M fsnode unit :=
  let T := tpl E in
  let under (rel : path) : path := (targetDir ++ rel)%list in
  ensureDir targetDir ;;
  let projectName := toPackageName T (basename targetDir) in
  forEach dirs (fun d => ensureDir (under d)) ;;
  writeFile (under [".gitignore"]) (buildGitignore T ++ nl) ;;
  writeFile (under ["docs"; "README.md"]) (buildDocs T ++ nl) ;;
  let frontendRoot := under ["src"; "frontend"] in
  let front (rel : path) : path := (frontendRoot ++ rel)%list in
  writeFile (front ["index.html"]) (buildFrontendIndexHtml T) ;;
  writeFile (front ["package.json"]) (buildFrontendPackageJson T projectName) ;;
  writeFile (front ["vite.config.ts"]) (buildFrontendViteConfig T) ;;
  writeFile (front ["tsconfig.json"]) (buildFrontendTsconfig T) ;;
  writeFile (front ["tsconfig.node.json"]) (buildFrontendTsconfigNode T) ;;
  writeFile (front ["postcss.config.cjs"]) (buildFrontendPostcssConfig T) ;;
  writeFile (front ["tailwind.config.ts"]) (buildFrontendTailwindConfig T) ;;
  writeFile (front ["components.json"]) (buildFrontendComponentsJson T) ;;
  ensureDir (front ["src"]) ;;
  ensureDir (front ["src"; "lib"]) ;;
  ensureDir (front ["src"; "components"]) ;;
  writeFile (front ["src"; "main.tsx"]) (buildFrontendMainTsx T) ;;
  writeFile (front ["src"; "App.tsx"]) (buildFrontendAppTsx T) ;;
  writeFile (front ["src"; "index.css"]) (buildFrontendCss T) ;;
  writeFile (front ["src"; "lib"; "utils.ts"]) (buildFrontendUtils T) ;;
  writeFile (front ["src"; "vite-env.d.ts"]) (buildFrontendViteEnv T) ;;
  writeFile (under ["src"; "electron"; "main.js"]) (buildElectronMain T) ;;
  writeFile (under ["src"; "electron"; "preload.js"]) (buildElectronPreload T) ;;
  createFiles backend targetDir projectName ;;
  forEach (buildScripts T (isWindows E) backend) (fun script =>
    let '(name, content) := script in
    writeExecutableIfUnix (under ["scripts"; name]) content (isWindows E)) ;;
  writeFile (under ["package.json"])
    (stringifyPkg T projectName (normalizeVersion (sel_version selected)) ++ nl) ;;
  let npmrcLines :=
    ((if useMirror
      then [("registry=" ++ NPM_MIRROR_REGISTRY)%string;
            ("electron_mirror=" ++ ELECTRON_MIRROR)%string]
      else []) ++
     (if enableAudit E then [] else ["audit=false"]))%list in
  if (0 <? List.length npmrcLines)%nat
  then writeFile (under [".npmrc"]) (String.concat nl npmrcLines ++ nl)
  else ret tt.

(** Lines 861-872: the target directory, fixed by [--force] or typed
    in. *)
Definition chooseTarget : M World path :=
  if forceRebuild E then ret (resolve (cwd E) TEMPLATE_DIR)
  else
    targetInput <- promptLine QTarget DEFAULT_TARGET ;;
    ret (resolve (cwd E) targetInput).

(** Lines 920-1114: the questions, the files and the two installs of the
    populating path. *)
Definition generate (nodeVersion : string) (targetDir : path) : M World unit :=
  useMirror <- confirm QMirror false ;;
  print MsgSelectBackend ;;
  forEach (combine (seq 1 (List.length backends)) backends)
    (fun ib => print (MsgBackendOption (fst ib) (label (snd ib)))) ;;
  backendInput <- promptLine QBackend "1" ;;
  let backendIndex := backendIndexOf backendInput in
  let backend := nth (Z.to_nat backendIndex) backends defaultBackend in
  selected <- selectVersion nodeVersion ;;
  ok <- confirm (QInstall (sel_version selected)) true ;;
  if negb ok then
    print MsgCancelled ;;
    exit 1
  else
    onFs (populate targetDir backend selected useMirror) ;;
    let env := if useMirror then [("ELECTRON_MIRROR", ELECTRON_MIRROR)] else [] in
    runNpmInstall targetDir env "root" ;;
    runNpmInstall (targetDir ++ ["src"; "frontend"])%list env "frontend" ;;
    print (MsgCreated targetDir) ;;
    print MsgDone.

Definition main : M World unit :=
  match getNodeVersion with
  | None | Some EmptyString => print MsgNodeMissing ;; exit 1
  | Some nodeVersion =>
  match npmOut E with
  | None | Some EmptyString => print MsgNpmMissing ;; exit 1
  | Some _ =>
  targetDir <- chooseTarget ;;
  clearTarget targetDir ;;
  returned <- reuseCache targetDir ;;
  if returned then ret tt
  else generate nodeVersion targetDir
  end
  end.

(** The whole script: the help text, or [main().catch(...)]. *)
Definition program : M World unit :=
  if showHelp E then print MsgHelp ;; exit 0
  else tryCatch main (print MsgError ;; exit 1).

End Run.

(** The state a run starts from. *)
Definition start (disk : fsnode) : World :=
  {| fs := disk; asked := 0%nat; trace := [] |}.

(** ** Notions the properties are stated with *)

(** The order of the specification on versions: by major, then minor, then
    patch. *)
Definition lexLt (a b : Semver) : Prop :=
  major a < major b \/
  (major a = major b /\
   (minor a < minor b \/ (minor a = minor b /\ patch a < patch b))).

Definition sameTriple (a b : Semver) : Prop :=
  major a = major b /\ minor a = minor b /\ patch a = patch b.



(** A feed entry that carries its version and its bundled runtime in the
    two plain fields. *)
Definition feedEntry (v n : string) : Release :=
  {| r_version := Some v; r_tag_name := None; r_node := Some n; r_deps := None |}.

(** [c] is a newest member of [pool] under the comparison of versions. *)
Definition newestIn (pool : list Candidate) (c : Candidate) : Prop :=
  In c pool /\
  forall d, In d pool ->
    compareSemver (parseSemver (version d)) (parseSemver (version c)) <= 0.

(** Two paths that part at some component: neither lies on or below the
    other. *)
Fixpoint disjoint (p q : path) : bool :=
  match p, q with
  | a :: p', b :: q' => if String.eqb a b then disjoint p' q' else true
  | _, _ => false
  end.

Fixpoint distinct (names : list string) : bool :=
  match names with
  | [] => true
  | x :: r => negb (existsb (String.eqb x) r) && distinct r
  end.

(** A tree as a file system holds it: no directory lists a name twice. *)
Fixpoint wellFormed (n : fsnode) : bool :=
  match n with
  | Dir es => distinct (map fst es) && forallb (fun e => wellFormed (snd e)) es
  | _ => true
  end.

(** Number of nested directories. *)
Fixpoint height (n : fsnode) : nat :=
  match n with
  | Dir es => S (fold_right (fun e h => Nat.max (height (snd e)) h) 0%nat es)
  | _ => 0%nat
  end.

(** The copy as the specification describes it: every regular file and
    every directory, at every level and whatever its name; nothing
    else. *)
Fixpoint mirror (n : fsnode) : option fsnode :=
  match n with
  | File content x => Some (File content x)
  | Dir es =>
      Some (Dir (flat_map (fun e => match mirror (snd e) with
                                    | Some m => [(fst e, m)]
                                    | None => []
                                    end) es))
  | Other => None
  end.

Definition mirrorEntries (es : list (string * fsnode)) : list (string * fsnode) :=
  flat_map (fun e => match mirror (snd e) with
                     | Some m => [(fst e, m)]
                     | None => []
                     end) es.

(** The entries the root level of the copy looks at. *)
Definition notIgnored (e : string * fsnode) : bool :=
  negb (has COPY_IGNORE (fst e)).

Definition considered (isRoot : bool) (es : list (string * fsnode))
  : list (string * fsnode) :=
  if isRoot then filter notIgnored es else es.

(** A tree of regular files and directories only. *)
Fixpoint filesAndDirsOnly (n : fsnode) : bool :=
  match n with
  | File _ _ => true
  | Dir es => forallb (fun e => filesAndDirsOnly (snd e)) es
  | Other => false
  end.

(** The body of the loop of [copyDir], with the recursive call as a
    parameter. *)
Definition copyEntry (recur : path -> path -> bool -> M fsnode unit)
  (src dest : path) (isRoot : bool) (entry : string * Kind) : M fsnode unit :=
  let '(name, kind) := entry in
  if isRoot && has COPY_IGNORE name then ret tt
  else
    let from := (src ++ [name])%list in
    let to := (dest ++ [name])%list in
    match kind with
    | KDir => recur from to false
    | KFile => ensureDir (dirname to) ;; copyFileSync from to
    | KOther => ret tt
    end.

Definition dirents (es : list (string * fsnode)) : list (string * Kind) :=
  map (fun e => (fst e, kindOf (snd e))) es.

(** What a run of [copyDir] with [fuel] computes when the source is a
    directory of a well-formed tree, the target lies apart from it and
    is empty once created, and the fuel covers the depth of the source:
    the target becomes the copy of the source the specification
    describes. *)
Definition copies (fuel : nat) : Prop :=
  forall (src dest : path) (isRoot : bool) (fs0 fs1 : fsnode)
         (es : list (string * fsnode)),
    lookup src fs0 = Some (Dir es) ->
    wellFormed (Dir es) = true ->
    disjoint src dest = true ->
    mkdirp dest fs0 = Some fs1 ->
    lookup dest fs1 = Some (Dir []) ->
    (height (Dir es) <= fuel)%nat ->
    copyDir fuel src dest isRoot fs0 =
    (Ret tt, graft dest (Dir (mirrorEntries (considered isRoot es))) fs1).

(** The disks of the examples.  A cache with one file beside the three
    excluded directories, next to an empty target. *)
Definition cacheOfSpec : list (string * fsnode) :=
  [ ("a.txt", File "A" false);
    ("dist", Dir [("bundle.js", File "B" false)]);
    ("logs", Dir [("run.log", File "L" false)]);
    (".git", Dir [("HEAD", File "ref" false)]) ].

Definition diskOfSpec : fsnode :=
  Dir [("cache", Dir cacheOfSpec); ("target", Dir [])].

(** A cache whose subdirectory holds directories with the excluded
    names. *)
Definition cacheNested : list (string * fsnode) :=
  [ ("src", Dir [("dist", Dir [("y.js", File "Y" false)]);
                 ("logs", Dir []);
                 (".git", Dir [("HEAD", File "ref" false)])]);
    ("dist", Dir [("bundle.js", File "B" false)]) ].

Definition diskNested : fsnode :=
  Dir [("cache", Dir cacheNested); ("target", Dir [])].

(** A cache with installed dependencies: [node_modules/.bin] holds a
    symbolic link. *)
Definition cacheInstalled : list (string * fsnode) :=
  [ ("package.json", File "{}" false);
    ("node_modules",
     Dir [(".bin", Dir [("vite", Other)]);
          ("vite", Dir [("index.js", File "V" true)])]);
    ("current", Other) ].

Definition diskInstalled : fsnode :=
  Dir [("cache", Dir cacheInstalled)].

(** The value [promptLine] returns at the n-th prompt of a run. *)
Definition typed (E : Env) (n : nat) (defaultValue : string) : string :=
  let value := trim (answers E n) in
  if String.eqb value "" then defaultValue else value.

(** The target directory of a run that gets as far as choosing one. *)
Definition targetOf (E : Env) : path :=
  resolve (cwd E) (if forceRebuild E then TEMPLATE_DIR else typed E 0 DEFAULT_TARGET).

(** The target directory exists and is not empty. *)
Definition occupied (p : path) (disk : fsnode) : bool :=
  match lookup p disk with
  | Some (Dir (_ :: _)) => true
  | _ => false
  end.

(** An explicit yes: the line is y or yes, in any case, white space around
    it aside. *)
Definition affirmative (answer : string) : bool :=
  let normalized := toLowerCase (trim answer) in
  String.eqb normalized "y" || String.eqb normalized "yes".

(** The run gets past its first checks: no help flag, and both tools
    answer. *)
Definition startsUp (E : Env) : bool :=
  negb (showHelp E) &&
  match getNodeVersion E with Some v => truthy v | None => false end &&
  match npmOut E with Some out => truthy out | None => false end.


Definition isSpawn (e : Event) : bool :=
  match e with
  | SpawnSync _ _ _ _ => true
  | _ => false
  end.

Definition isInPlace (e : Event) : bool :=
  match e with
  | Print (MsgInPlace _) => true
  | _ => false
  end.

(** A computation that adds no selected event to the trace. *)
Definition quiet {A : Type} (sel : Event -> bool) (m : M World A) : Prop :=
  forall w, filter sel (trace (snd (m w))) = filter sel (trace w).

(** Result and final state of the whole script on a disk. *)
Definition result (E : Env) (disk : fsnode) : Res unit :=
  fst (program E (start disk)).

Definition final (E : Env) (disk : fsnode) : World :=
  snd (program E (start disk)).


(** Templates whose texts are empty: no property depends on the texts. *)
Definition blankTemplates : Templates :=
  {| buildGitignore := ""; buildDocs := ""; buildFrontendIndexHtml := "";
     buildFrontendPackageJson := fun _ => ""; buildFrontendViteConfig := "";
     buildFrontendTsconfig := ""; buildFrontendTsconfigNode := "";
     buildFrontendPostcssConfig := ""; buildFrontendTailwindConfig := "";
     buildFrontendComponentsJson := ""; buildFrontendMainTsx := "";
     buildFrontendAppTsx := ""; buildFrontendCss := ""; buildFrontendUtils := "";
     buildFrontendViteEnv := ""; buildElectronMain := "";
     buildElectronPreload := ""; buildNodeBackend := "";
     buildFastApiBackend := ""; buildGinBackend := "";
     buildScripts := fun isWindows _ =>
       if isWindows
       then [("start.ps1", ""); ("dev.ps1", ""); ("build.ps1", "");
             ("start-backend.ps1", "")]
       else [("start.sh", ""); ("dev.sh", ""); ("build.sh", "");
             ("start-backend.sh", "")];
     toPackageName := fun name => name;
     stringifyPkg := fun _ version => version |}.

(** A working directory that holds a cache generated earlier. *)
Definition diskCached : fsnode :=
  Dir [("work", Dir [("init_src", Dir [("package.json", File "{}" false);
                                       ("src", Dir [])])])].

(** An environment for the examples: a POSIX host, the script started in
    [/work], node 20.11.0 found, a feed with one matching release, and the
    lines the user types. *)
Definition exampleEnv (force : bool) (npm : option string) (lines : list string)
  (install : path -> list (string * string) -> fsnode -> option Z * fsnode) : Env :=
  {| showHelp := false; forceRebuild := force; enableAudit := false;
     isWindows := false; comSpec := None; cwd := ["work"];
     nodeOut := Some "v20.11.0"; npmOut := npm;
     answers := fun n => nth n lines "";
     fetch := Fetched [feedEntry "30.0.0" "20.9.0"];
     npmInstall := install; maxDepth := 64%nat; tpl := blankTemplates |}.

(** An install that succeeds and one that fails, neither touching the
    disk. *)
Definition installOk (dir : path) (env : list (string * string)) (d : fsnode)
  : option Z * fsnode := (Some 0, d).






(** The state in which the target is examined: after the question about
    it, when there is one. *)
Definition chosen (E : Env) (disk : fsnode) : World :=
  if forceRebuild E then start disk
  else {| fs := disk; asked := 1;
          trace := [Asked QTarget (answers E 0)] |}.

(** What [main] does once the target is cleared. *)
Definition afterClearing (E : Env) (nodeVersion : string) (targetDir : path)
  : M World unit :=
  (returned <- reuseCache E targetDir ;;
   if returned then ret tt else generate E nodeVersion targetDir)%js.

(** The pool [pickElectronVersion] draws from: the entries of the local
    major, else those of a lower one, else all candidates. *)
Definition poolOf (releases : list Release) (localMajor : option Z) : list Candidate :=
  let candidates := candidatesOf releases in
  let exact := exactPool candidates localMajor in
  if (0 <? List.length exact)%nat then exact
  else
    let lower := lowerPool candidates localMajor in
    if (0 <? List.length lower)%nat then lower else candidates.

(** A file system computation that leaves what [q] names as it was,
    however it ends. *)
Definition untouched {A : Type} (q : path) (m : M fsnode A) : Prop :=
  forall d, lookup q (snd (m d)) = lookup q d.

(** What the feed gives for a local runtime: the pick, when the feed was
    fetched as an array. *)
Definition pickedFor (E : Env) (nodeVersion : string) : option Selected :=
  match fetch E with
  | Fetched l => pickElectronVersion l (parseMajor nodeVersion)
  | _ => None
  end.

(** The entry built from a version typed in (lines 995-1000). *)
Definition manualEntry (version : string) : Selected :=
  {| sel_version := version; sel_node := "unknown";
     sel_nodeMajor := None; sel_match := None |}.




(** What [--force] takes out of a run: the questions about the target,
    about overwriting it and about the cache, and the reuse path. *)
Definition skippedByForce (e : Event) : bool :=
  match e with
  | Asked QTarget _ | Asked (QOverwrite _) _ | Asked QUseCached _ => true
  | CopyDir _ _ => true
  | Print (MsgTemplateMissing _) | Print (MsgInPlace _) | Print MsgCopyFailed
  | Print (MsgCopied _ _) => true
  | _ => false
  end.

(** The question about the cache. *)
Definition isReuseQuestion (e : Event) : bool :=
  match e with
  | Asked QUseCached _ => true
  | _ => false
  end.

Definition isMirrorQuestion (e : Event) : bool :=
  match e with
  | Asked QMirror _ => true
  | _ => false
  end.

(** What only the populating path does: its four questions and the
    installs. *)
Definition isGenerating (e : Event) : bool :=
  match e with
  | Asked QMirror _ | Asked QBackend _ | Asked QManualVersion _
  | Asked (QInstall _) _ => true
  | SpawnSync _ _ _ _ => true
  | _ => false
  end.

(** A computation that returns [true] when it returns. *)
Definition yieldsTrue (m : M World bool) : Prop :=
  forall w b w', m w = (Ret b, w') -> b = true.

Definition isCancelled (e : Event) : bool :=
  match e with
  | Print MsgCancelled => true
  | _ => false
  end.

(** A computation that leaves the disk as it is. *)
Definition still {A : Type} (m : M World A) : Prop :=
  forall w, fs (snd (m w)) = fs w.

(** A computation that reports a cancelled run only when it ends with
    code 1, the disk as it found it and no install started. *)
Definition cancelSafe {A : Type} (m : M World A) : Prop :=
  forall w,
    filter isCancelled (trace (snd (m w))) = filter isCancelled (trace w) \/
    (fst (m w) = Exit 1 /\ fs (snd (m w)) = fs w /\
     filter isSpawn (trace (snd (m w))) = filter isSpawn (trace w)).

(** The path names a directory. *)
Definition isDirAt (q : path) (d : fsnode) : bool :=
  match lookup q d with
  | Some (Dir _) => true
  | _ => false
  end.

(** A file system computation that removes no directory and turns none
    into something else. *)
Definition keepsDirs {A : Type} (m : M fsnode A) : Prop :=
  forall q d, isDirAt q d = true -> isDirAt q (snd (m d)) = true.

(** A file system computation that leaves a directory at [q] when it
    returns. *)
Definition ensures {A : Type} (q : path) (m : M fsnode A) : Prop :=
  forall d d' a, m d = (Ret a, d') -> isDirAt q d' = true.

(** The directories the populating path asks for, below the target: the
    target itself, the eight of [dirs] and the three of the frontend
    sources (lines 1024-1055). *)
Definition createdDirs : list path :=
  ([] :: dirs ++
   [ ["src"; "frontend"; "src"]; ["src"; "frontend"; "src"; "lib"];
     ["src"; "frontend"; "src"; "components"] ])%list.

(** The lines of [.npmrc] (lines 1092-1099). *)
Definition npmrcLinesOf (E : Env) (useMirror : bool) : list string :=
  ((if useMirror
    then [("registry=" ++ NPM_MIRROR_REGISTRY)%string;
          ("electron_mirror=" ++ ELECTRON_MIRROR)%string]
    else []) ++
   (if enableAudit E then [] else ["audit=false"]))%list.

(** The names the populating path writes at the top of the target. *)
Definition populated : list string :=
  ["src"; "docs"; "scripts"; "data"; "logs"; "dist"; ".gitignore"; "package.json"].

(** A file system computation that leaves a regular file with the given
    content at [q] when it returns. *)
Definition writes {A : Type} (q : path) (content : string) (m : M fsnode A) : Prop :=
  forall d d' a, m d = (Ret a, d') -> exists x, lookup q d' = Some (File content x).

(** The files the populating path writes whatever the backend and the
    platform, below the target, with their texts (lines 1039-1068). *)
Definition scaffoldFiles (E : Env) (t : path) : list (path * string) :=
  let T := tpl E in
  let projectName := toPackageName T (basename t) in
  [ ([".gitignore"], buildGitignore T ++ nl);
    (["docs"; "README.md"], buildDocs T ++ nl);
    (["src"; "frontend"; "index.html"], buildFrontendIndexHtml T);
    (["src"; "frontend"; "package.json"], buildFrontendPackageJson T projectName);
    (["src"; "frontend"; "vite.config.ts"], buildFrontendViteConfig T);
    (["src"; "frontend"; "tsconfig.json"], buildFrontendTsconfig T);
    (["src"; "frontend"; "tsconfig.node.json"], buildFrontendTsconfigNode T);
    (["src"; "frontend"; "postcss.config.cjs"], buildFrontendPostcssConfig T);
    (["src"; "frontend"; "tailwind.config.ts"], buildFrontendTailwindConfig T);
    (["src"; "frontend"; "components.json"], buildFrontendComponentsJson T);
    (["src"; "frontend"; "src"; "main.tsx"], buildFrontendMainTsx T);
    (["src"; "frontend"; "src"; "App.tsx"], buildFrontendAppTsx T);
    (["src"; "frontend"; "src"; "index.css"], buildFrontendCss T);
    (["src"; "frontend"; "src"; "lib"; "utils.ts"], buildFrontendUtils T);
    (["src"; "frontend"; "src"; "vite-env.d.ts"], buildFrontendViteEnv T);
    (["src"; "electron"; "main.js"], buildElectronMain T);
    (["src"; "electron"; "preload.js"], buildElectronPreload T) ].

(** The files of a backend, below the target (lines 922-966). *)
Definition backendFiles (E : Env) (t : path) (b : Backend) : list (path * string) :=
  let T := tpl E in
  let projectName := toPackageName T (basename t) in
  if String.eqb (key b) "node" then
    [ (["src"; "backend"; "index.js"], buildNodeBackend T) ]
  else if String.eqb (key b) "python-fastapi" then
    [ (["src"; "backend"; "app.py"], buildFastApiBackend T);
      (["src"; "backend"; "requirements.txt"], "fastapi" ++ nl ++ "uvicorn" ++ nl) ]
  else
    [ (["src"; "backend"; "main.go"], buildGinBackend T);
      (["src"; "backend"; "go.mod"],
       "module " ++ (if truthy projectName then projectName else "backend")
       ++ nl ++ nl ++ "go 1.20" ++ nl) ].

(** ** The package name (init.js, lines 115-121) *)

(** The function whose results the field [toPackageName] of the
    templates stands for. *)
Module Naming.

(** The class [[a-z0-9-_]] of the first pattern. *)
Definition isNameChar (c : ascii) : bool :=
  let n := code c in
  ((97 <=? n) && (n <=? 122)) || ((48 <=? n) && (n <=? 57)) ||
  (n =? 45) || (n =? 95).

Definition isDash (c : ascii) : bool := Ascii.eqb c "-".

(** [s.replace(/[^a-z0-9-_]+/g, "-")]: every longest run of characters
    outside the class becomes one dash.  [inRun] says that the character
    before belongs to such a run. *)
Fixpoint replaceOthers (inRun : bool) (s : string) : string :=
  match s with
  | EmptyString => EmptyString
  | String c r =>
      if isNameChar c then String c (replaceOthers false r)
      else if inRun then replaceOthers true r
      else String "-" (replaceOthers true r)
  end.

(** [s.replace(/^-+|-+$/g, "")]: the dashes at the start, then those at
    the end. *)
Fixpoint dropLeading (s : string) : string :=
  match s with
  | EmptyString => EmptyString
  | String c r => if isDash c then dropLeading r else s
  end.

Fixpoint dropTrailing (s : string) : string :=
  match s with
  | EmptyString => EmptyString
  | String c r =>
      match dropTrailing r with
      | EmptyString => if isDash c then EmptyString else String c EmptyString
      | r' => String c r'
      end
  end.

(** [s.replace(/--+/g, "-")]: a run of two dashes or more becomes one.
    [afterDash] says that the character before is a dash. *)
Fixpoint squeeze (afterDash : bool) (s : string) : string :=
  match s with
  | EmptyString => EmptyString
  | String c r =>
      if isDash c
      then if afterDash then squeeze true r else String c (squeeze true r)
      else String c (squeeze false r)
  end.

Definition toPackageName (name : string) : string :=
  let cleaned :=
    squeeze false (dropTrailing (dropLeading (replaceOthers false (toLowerCase name)))) in
  if truthy cleaned then cleaned else "electron-app".

End Naming.

(** Every character of the string passes the test. *)
Fixpoint allChars (f : ascii -> bool) (s : string) : bool :=
  match s with
  | EmptyString => true
  | String c r => f c && allChars f r
  end.

Fixpoint endsWith (c : ascii) (s : string) : bool :=
  match s with
  | EmptyString => false
  | String d EmptyString => Ascii.eqb d c
  | String _ r => endsWith c r
  end.

Fixpoint noDoubleDash (s : string) : bool :=
  match s with
  | EmptyString => true
  | String c r => negb (Naming.isDash c && startsWith "-" r) && noDoubleDash r
  end.

(** A name as [toPackageName] gives them: not empty, of lower-case
    letters, digits, dashes and underscores, with no dash at either end
    and no two dashes in a row. *)
Definition wellNamed (s : string) : bool :=
  truthy s && allChars Naming.isNameChar s &&
  negb (startsWith "-" s) && negb (endsWith "-" s) && noDoubleDash s.

(** * Properties *)

(** ** SemverLite *)

Section SemverFacts.












Lemma compareSemver_cases (a b : Semver) :
  (major a <> major b /\ compareSemver a b = major a - major b) \/
  (major a = major b /\ minor a <> minor b /\
   compareSemver a b = minor a - minor b) \/
  (major a = major b /\ minor a = minor b /\
   compareSemver a b = patch a - patch b).
Proof.
  unfold compareSemver.
  destruct (Z.eqb_spec (major a) (major b)); simpl; [|now left].
  destruct (Z.eqb_spec (minor a) (minor b)); simpl; right; [right|left]; auto.
Qed.

Lemma compareSemver_neg (a b : Semver) : compareSemver a b < 0 <-> lexLt a b.
Proof.
  unfold lexLt. destruct (compareSemver_cases a b) as [H|[H|H]]; lia.
Qed.


Lemma compareSemver_pos (a b : Semver) : 0 < compareSemver a b <-> lexLt b a.
Proof.
  unfold lexLt. destruct (compareSemver_cases a b) as [H|[H|H]]; lia.
Qed.



(** C7, as stated, fails: ["="] is not a digit, and it is not stripped, so
    the major of ["=5.0.0"] is read from ["=5"] and is 0. *)
Lemma equals_marker_not_stripped :
  isDigit "=" = false /\
  parseSemver (String "=" "5.0.0") = {| major := 0; minor := 0; patch := 0 |} /\
  parseSemver (String "=" "5.0.0") <> parseSemver "5.0.0".
Proof.
  split; [reflexivity|]. split; [reflexivity|]. vm_compute. discriminate.
Qed.

(** C7, amended. The only leading marker that parsing strips is one
    lower-case ["v"]: for every string [s] that does not itself begin with
    ["v"], ["v" + s] parses as [s] does.  So ["v5.0.0"] parses to 5.0.0,
    as ["5.0.0"] does; only one ["v"] is dropped. *)
Theorem parseSemver_strips_v (s : string) (H : startsWith "v" s = false) :
  parseSemver (String "v" s) = parseSemver s /\
  parseSemver "v5.0.0" = {| major := 5; minor := 0; patch := 0 |} /\
  parseSemver "5.0.0" = {| major := 5; minor := 0; patch := 0 |} /\
  parseSemver "vv5.0.0" = {| major := 0; minor := 0; patch := 0 |}.
Proof.
  split; [|repeat split; reflexivity].
  unfold parseSemver. replace (normalizeVersion (String "v" s)) with s by reflexivity.
  replace (normalizeVersion s) with s; [reflexivity|].
  unfold normalizeVersion. destruct s; [reflexivity|]. simpl truthy. simpl negb.
  cbv iota. now rewrite H.
Qed.

Lemma parseSemver_strips_v_witness :
  startsWith "v" "5.0.0" = false /\
  parseSemver (String "v" "5.0.0") = parseSemver "5.0.0".
Proof.
  split; [reflexivity|]. apply (parseSemver_strips_v "5.0.0"). reflexivity.
Defined.

End SemverFacts.

(** ** ReleaseMatcher *)

Section SortFacts.

Context {A : Type} (cmp : A -> A -> Z).

Hypothesis cmp_trans :
  forall a b c, cmp a b <= 0 -> cmp b c <= 0 -> cmp a c <= 0.
Hypothesis cmp_total : forall a b, 0 < cmp a b -> cmp b a <= 0.

Lemma insertBy_In (x y : A) (l : list A) :
  In y (insertBy cmp x l) <-> y = x \/ In y l.
Proof.
  induction l as [|z l IH]; simpl.
  - intuition.
  - destruct (cmp x z <=? 0); simpl; [intuition|]. rewrite IH. intuition.
Qed.

Lemma sortBy_In (y : A) (l : list A) : In y (sortBy cmp l) <-> In y l.
Proof.
  induction l as [|x l IH]; simpl; [reflexivity|].
  rewrite insertBy_In, IH. intuition.
Qed.

Lemma sortBy_length (l : list A) : List.length (sortBy cmp l) = List.length l.
Proof.
  induction l as [|x l IH]; simpl; [reflexivity|]. rewrite <- IH.
  generalize (sortBy cmp l). intros s.
  induction s as [|z s IHs]; simpl; [reflexivity|].
  destruct (cmp x z <=? 0); simpl; [reflexivity|]. now rewrite IHs.
Qed.

(** The first element after sorting is in front of every other one. *)
Lemma sortBy_head (l : list A) :
  l <> [] ->
  exists h t, sortBy cmp l = h :: t /\ In h l /\
              forall y, In y l -> cmp h y <= 0.
Proof.
  induction l as [|x l IH]; [congruence|]. intros _.
  destruct l as [|x' l'].
  - exists x, []. simpl. repeat split; auto.
    intros y [<-|[]]. destruct (Z.le_gt_cases (cmp x x) 0); [assumption|].
    apply cmp_total. lia.
  - destruct IH as [h [t [Hs [Hin Hmax]]]]; [discriminate|].
    change (sortBy cmp (x :: x' :: l')) with (insertBy cmp x (sortBy cmp (x' :: l'))).
    rewrite Hs. simpl insertBy.
    destruct (Z.leb_spec (cmp x h) 0) as [Hle|Hgt].
    + exists x, (h :: t). repeat split; [now left|].
      intros y [<-|Hy].
      * destruct (Z.le_gt_cases (cmp x x) 0); [assumption|]. apply cmp_total. lia.
      * eapply cmp_trans; [exact Hle|]. now apply Hmax.
    + exists h, (insertBy cmp x t). repeat split; [now right|].
      intros y [<-|Hy]; [now apply cmp_total | now apply Hmax].
Qed.

End SortFacts.

Section MatcherFacts.

Lemma compareSemver_le (a b : Semver) :
  compareSemver a b <= 0 <-> (lexLt a b \/ sameTriple a b).
Proof.
  unfold lexLt, sameTriple.
  destruct (compareSemver_cases a b) as [H|[H|H]]; lia.
Qed.

Lemma newestFirst_trans (a b c : Candidate) :
  newestFirst a b <= 0 -> newestFirst b c <= 0 -> newestFirst a c <= 0.
Proof.
  unfold newestFirst. rewrite !compareSemver_le. unfold lexLt, sameTriple. lia.
Qed.

Lemma newestFirst_total (a b : Candidate) :
  0 < newestFirst a b -> newestFirst b a <= 0.
Proof.
  unfold newestFirst. rewrite compareSemver_pos, compareSemver_le. auto.
Qed.

(** What [newest] returns from a pool that is not empty. *)
Lemma newest_spec (pool : list Candidate) (m : Match) :
  pool <> [] ->
  exists c, newest pool m = Some (tagged c m) /\ newestIn pool c.
Proof.
  intros Hne.
  destruct (sortBy_head newestFirst newestFirst_trans newestFirst_total pool Hne)
    as [h [t [Hs [Hin Hmax]]]].
  exists h. unfold newest. rewrite Hs. simpl. split; [reflexivity|].
  split; [assumption|]. intros d Hd. apply (Hmax d Hd).
Qed.

Lemma newest_nil (m : Match) : newest [] m = None.
Proof. reflexivity. Qed.


(** The candidate pool: the normalised entries with a usable version and
    a bundled-runtime major, pre-releases removed. *)
Lemma candidatesOf_spec (releases : list Release) (c : Candidate) :
  In c (candidatesOf releases) <->
  (exists r, In r releases /\ c = toCandidate r) /\
  version c <> "" /\ nodeMajor c <> None /\ isPreRelease (version c) = false.
Proof.
  unfold candidatesOf. rewrite !filter_In, in_map_iff.
  rewrite andb_true_iff, negb_true_iff.
  assert (Ht : truthy (version c) = true <-> version c <> "").
  { destruct (version c); simpl; split; congruence. }
  assert (Hs : isSome (nodeMajor c) = true <-> nodeMajor c <> None).
  { destruct (nodeMajor c); simpl; split; congruence. }
  rewrite Ht, Hs. split.
  - intros [[[r [Hr Hin]] [H1 H2]] H3]. repeat split; eauto.
  - intros [[r [Hin Hr]] [H1 [H2 H3]]]. repeat split; eauto.
Qed.



Lemma exactPool_null (releases : list Release) :
  exactPool (candidatesOf releases) None = [].
Proof.
  unfold exactPool.
  assert (Hall : forall c, In c (candidatesOf releases) ->
                   strictEq (nodeMajor c) None = false).
  { intros c Hc. apply candidatesOf_spec in Hc as [_ [_ [Hm _]]].
    destruct (nodeMajor c); [reflexivity|congruence]. }
  induction (candidatesOf releases) as [|c l IH]; [reflexivity|].
  simpl. rewrite (Hall c) by now left. apply IH. intros d Hd. apply Hall. now right.
Qed.

(** C8, as stated, fails: in [r.nodeMajor < nodeMajor] a [null] local
    major is read as 0, so a candidate whose bundled major is negative is
    in the Lower pool and is returned tagged Lower. *)
Lemma null_major_lower_pool_not_empty :
  lowerPool (candidatesOf [feedEntry "1.0.0" "-1.0.0"]) None <> [] /\
  pickElectronVersion [feedEntry "1.0.0" "-1.0.0"] None
  = Some {| sel_version := "1.0.0"; sel_node := "-1.0.0";
            sel_nodeMajor := Some (-1); sel_match := Some MatchLower |}.
Proof.
  split; [vm_compute; discriminate | reflexivity].
Qed.

(** C8, amended. For every release list none of whose candidates has a
    negative bundled-runtime major, [pickElectronVersion] with a [null]
    local major finds the Exact pool and the Lower pool empty and returns
    a newest candidate of the whole pool tagged Any, or nothing when the
    pool is empty; and for the empty release list it returns nothing
    whatever the local major. *)
Theorem pickElectronVersion_null (releases : list Release)
  (H : forall c, In c (candidatesOf releases) -> 0 <= toNumber (nodeMajor c)) :
  exactPool (candidatesOf releases) None = [] /\
  lowerPool (candidatesOf releases) None = [] /\
  (candidatesOf releases = [] -> pickElectronVersion releases None = None) /\
  (candidatesOf releases <> [] ->
   exists c, pickElectronVersion releases None = Some (tagged c MatchAny) /\
             newestIn (candidatesOf releases) c) /\
  (forall localMajor, pickElectronVersion [] localMajor = None).
Proof.
  assert (Hl : lowerPool (candidatesOf releases) None = []).
  { unfold lowerPool. induction (candidatesOf releases) as [|c l IH]; [reflexivity|].
    simpl. unfold lessThan at 1. simpl toNumber at 2.
    destruct (Z.ltb_spec (toNumber (nodeMajor c)) 0) as [Hlt|_].
    - specialize (H c (or_introl eq_refl)). lia.
    - apply IH. intros d Hd. apply H. now right. }
  assert (He := exactPool_null releases).
  assert (Hp : pickElectronVersion releases None
               = newest (candidatesOf releases) MatchAny).
  { unfold pickElectronVersion. cbv zeta. now rewrite He, Hl. }
  split; [exact He|]. split; [exact Hl|]. rewrite Hp.
  split; [intros ->; reflexivity|]. split; [|reflexivity].
  intros Hne. now apply newest_spec.
Qed.

Lemma pickElectronVersion_null_witness :
  exists c,
    pickElectronVersion [feedEntry "21" "18"; feedEntry "23" "21"] None
    = Some (tagged c MatchAny) /\
    newestIn (candidatesOf [feedEntry "21" "18"; feedEntry "23" "21"]) c.
Proof.
  destruct (pickElectronVersion_null [feedEntry "21" "18"; feedEntry "23" "21"])
    as [_ [_ [_ [Hany _]]]].
  - vm_compute. intros c [<-|[<-|[]]]; simpl; discriminate.
  - apply Hany. vm_compute. discriminate.
Defined.

End MatcherFacts.

(** ** The file system: entries, lookups and writes *)

Section FsFacts.

Local Open Scope list_scope.

Lemma assoc_setEntry_same (k : string) (v : fsnode) (es : list (string * fsnode)) :
  assoc k (setEntry k v es) = Some v.
Proof.
  induction es as [|[k' v'] es IH]; simpl.
  - now rewrite String.eqb_refl.
  - destruct (String.eqb k' k) eqn:Hk; simpl.
    + now rewrite String.eqb_refl.
    + now rewrite Hk.
Qed.

Lemma assoc_setEntry_other (k k' : string) (v : fsnode) (es : list (string * fsnode)) :
  k <> k' -> assoc k' (setEntry k v es) = assoc k' es.
Proof.
  intros Hne. induction es as [|[k0 v0] es IH]; simpl.
  - destruct (String.eqb_spec k k'); [contradiction|reflexivity].
  - destruct (String.eqb_spec k0 k) as [->|Hk0]; simpl.
    + destruct (String.eqb_spec k k'); [contradiction|reflexivity].
    + now rewrite IH.
Qed.

Lemma setEntry_fresh (k : string) (v : fsnode) (es : list (string * fsnode)) :
  assoc k es = None -> setEntry k v es = (es ++ [(k, v)])%list.
Proof.
  induction es as [|[k' v'] es IH]; simpl; [reflexivity|].
  destruct (String.eqb k' k); [discriminate|]. intros H. now rewrite IH.
Qed.

Lemma setEntry_same (k : string) (v : fsnode) (es : list (string * fsnode)) :
  assoc k es = Some v -> setEntry k v es = es.
Proof.
  induction es as [|[k' v'] es IH]; simpl; [discriminate|].
  destruct (String.eqb_spec k' k) as [->|Hk].
  - now intros [= ->].
  - intros H. now rewrite IH.
Qed.

Lemma setEntry_setEntry (k : string) (u v : fsnode) (es : list (string * fsnode)) :
  setEntry k v (setEntry k u es) = setEntry k v es.
Proof.
  induction es as [|[k' v'] es IH]; simpl.
  - now rewrite String.eqb_refl.
  - destruct (String.eqb k' k) eqn:Hk; simpl.
    + now rewrite String.eqb_refl.
    + now rewrite Hk, IH.
Qed.

Lemma assoc_app (k : string) (es fs' : list (string * fsnode)) :
  assoc k (es ++ fs') =
  match assoc k es with Some v => Some v | None => assoc k fs' end.
Proof.
  induction es as [|[k0 v0] es IH]; simpl; [reflexivity|].
  now destruct (String.eqb k0 k).
Qed.

Lemma assoc_In (k : string) (v : fsnode) (es : list (string * fsnode)) :
  distinct (map fst es) = true -> In (k, v) es -> assoc k es = Some v.
Proof.
  induction es as [|[k0 v0] es IH]; simpl; [contradiction|].
  intros Hd [Heq|Hin].
  - injection Heq as -> ->. now rewrite String.eqb_refl.
  - apply andb_prop in Hd as [Hk0 Hd].
    destruct (String.eqb_spec k0 k) as [->|_]; [|auto].
    exfalso. apply negb_true_iff in Hk0.
    assert (Hex : existsb (String.eqb k) (map fst es) = true).
    { apply existsb_exists. exists k. split; [|apply String.eqb_refl].
      apply in_map_iff. now exists (k, v). }
    congruence.
Qed.

Lemma lookup_app (p q : path) (n : fsnode) :
  lookup (p ++ q) n =
  match lookup p n with Some m => lookup q m | None => None end.
Proof.
  revert n. induction p as [|c p IH]; intros n; simpl; [reflexivity|].
  destruct n as [| es |]; try reflexivity.
  destruct (assoc c es); [apply IH|reflexivity].
Qed.

Lemma lookup_graft_same (p : path) (v m n : fsnode) :
  lookup p n = Some m -> lookup p (graft p v n) = Some v.
Proof.
  revert n. induction p as [|c p IH]; intros n; simpl; [reflexivity|].
  destruct n as [| es |]; try discriminate.
  destruct (assoc c es) as [m'|] eqn:Hc; [|discriminate].
  intros H. simpl. rewrite assoc_setEntry_same. now apply IH.
Qed.

Lemma disjoint_sym (p q : path) : disjoint p q = disjoint q p.
Proof.
  revert q. induction p as [|a p IH]; intros [|b q]; simpl; try reflexivity.
  rewrite (String.eqb_sym a b). destruct (String.eqb b a); [apply IH|reflexivity].
Qed.

Lemma disjoint_app_l (p q r : path) :
  disjoint p q = true -> disjoint (p ++ r) q = true.
Proof.
  revert q. induction p as [|a p IH]; intros [|b q]; simpl; try discriminate.
  destruct (String.eqb a b); [apply IH|reflexivity].
Qed.

Lemma disjoint_app_r (p q r : path) :
  disjoint p q = true -> disjoint p (q ++ r) = true.
Proof.
  rewrite (disjoint_sym p q), (disjoint_sym p (q ++ r)). apply disjoint_app_l.
Qed.

Lemma lookup_graft_disjoint (p q : path) (v n : fsnode) :
  disjoint p q = true -> lookup q (graft p v n) = lookup q n.
Proof.
  revert q n. induction p as [|a p IH]; intros [|b q] n; simpl; try discriminate.
  destruct n as [| es |]; try reflexivity.
  destruct (assoc a es) as [m|] eqn:Ha; [|reflexivity].
  destruct (String.eqb_spec a b) as [<-|Hab]; intros Hd; simpl.
  - rewrite assoc_setEntry_same, Ha. now apply IH.
  - now rewrite assoc_setEntry_other.
Qed.

Lemma graft_graft (p : path) (u v n : fsnode) :
  graft p v (graft p u n) = graft p v n.
Proof.
  revert n. induction p as [|c p IH]; intros n; simpl; [reflexivity|].
  destruct n as [| es |]; try reflexivity.
  destruct (assoc c es) as [m|] eqn:Hc; simpl; [|now rewrite Hc].
  now rewrite assoc_setEntry_same, setEntry_setEntry, IH.
Qed.

Lemma graft_child (p : path) (k : string) (v m n : fsnode)
  (ds : list (string * fsnode)) :
  lookup p n = Some (Dir ds) -> assoc k ds = Some m ->
  graft (p ++ [k]) v n = graft p (Dir (setEntry k v ds)) n.
Proof.
  revert n. induction p as [|c p IH]; intros n; simpl.
  - intros [= ->] Hk. now rewrite Hk.
  - destruct n as [| es |]; try discriminate.
    destruct (assoc c es) as [m'|]; [|discriminate].
    intros H Hk. now rewrite (IH m').
Qed.

Lemma mkdirp_existing (p : path) (n : fsnode) (ds : list (string * fsnode)) :
  lookup p n = Some (Dir ds) -> mkdirp p n = Some n.
Proof.
  revert n. induction p as [|c p IH]; intros n; simpl.
  - now intros [= ->].
  - destruct n as [| es |]; try discriminate.
    destruct (assoc c es) as [m|] eqn:Hc; [|discriminate].
    intros H. rewrite (IH m H). now rewrite setEntry_same.
Qed.

Lemma mkdirp_child (p : path) (k : string) (n : fsnode)
  (ds : list (string * fsnode)) :
  lookup p n = Some (Dir ds) -> assoc k ds = None ->
  mkdirp (p ++ [k]) n = Some (graft p (Dir (setEntry k (Dir []) ds)) n).
Proof.
  revert n. induction p as [|c p IH]; intros n; simpl.
  - intros [= ->] Hk. now rewrite Hk.
  - destruct n as [| es |]; try discriminate.
    destruct (assoc c es) as [m|]; [|discriminate].
    intros H Hk. now rewrite (IH m H Hk).
Qed.

Lemma store_child (p : path) (k : string) (f : option fsnode -> option fsnode)
  (n : fsnode) (ds : list (string * fsnode)) :
  lookup p n = Some (Dir ds) ->
  store (p ++ [k]) f n =
  match f (assoc k ds) with
  | Some v => Some (graft p (Dir (setEntry k v ds)) n)
  | None => None
  end.
Proof.
  revert n. induction p as [|c p IH]; intros n; simpl.
  - now intros [= ->].
  - destruct n as [| es |]; try discriminate.
    destruct (assoc c es) as [m|]; [|discriminate].
    intros H. destruct (p ++ [k])%list eqn:Hp.
    + now destruct p.
    + rewrite (IH m H). now destruct (f (assoc k ds)).
Qed.

Lemma lookup_mkdirp_disjoint (p q : path) (n n' : fsnode) :
  mkdirp p n = Some n' -> disjoint p q = true -> lookup q n' = lookup q n.
Proof.
  revert q n n'. induction p as [|a p IH]; intros [|b q] n n'; simpl;
    try (destruct n; discriminate).
  destruct n as [| es |]; try discriminate.
  destruct (String.eqb_spec a b) as [<-|Hab].
  - destruct (assoc a es) as [m|] eqn:Ha.
    + destruct (mkdirp p m) as [m'|] eqn:Hm; [|discriminate].
      intros [= <-] Hd. simpl. rewrite assoc_setEntry_same. now apply (IH q m m').
    + intros [= <-] Hd. simpl. rewrite assoc_setEntry_same.
      (* a fresh chain holds nothing off the path *)
      clear IH Ha. revert q Hd. induction p as [|c p IHp]; intros [|d q]; simpl;
        try discriminate.
      destruct (String.eqb_spec c d) as [<-|]; [|reflexivity].
      intros Hd. apply IHp in Hd. exact Hd.
  - destruct (assoc a es) as [m|] eqn:Ha.
    + destruct (mkdirp p m) as [m'|]; [|discriminate].
      intros [= <-] _. simpl. now rewrite assoc_setEntry_other.
    + intros [= <-] _. simpl. now rewrite assoc_setEntry_other.
Qed.

End FsFacts.

(** ** The recursive copy *)

Section CopyFacts.

Local Open Scope list_scope.

Lemma bind_ret {S A B : Type} (m : M S A) (k : A -> M S B) (s s' : S) (a : A) :
  m s = (Ret a, s') -> bind m k s = k a s'.
Proof. unfold bind. now intros ->. Qed.

Lemma copyDir_step (fuel : nat) (src dest : path) (isRoot : bool) :
  copyDir (S fuel) src dest isRoot =
  (ex <- existsSync src ;;
   if negb ex then throw
   else
     ensureDir dest ;;
     entries <- readdirSync src ;;
     forEach entries (copyEntry (copyDir fuel) src dest isRoot))%js.
Proof. reflexivity. Qed.

Lemma wellFormed_Dir (es : list (string * fsnode)) :
  wellFormed (Dir es) = true ->
  distinct (map fst es) = true /\
  forall e, In e es -> wellFormed (snd e) = true.
Proof.
  cbn [wellFormed]. intros H. apply andb_prop in H as [Hd Hall].
  split; [assumption|]. intros e He.
  rewrite forallb_forall in Hall. exact (Hall e He).
Qed.

Lemma height_child (es : list (string * fsnode)) (e : string * fsnode) :
  In e es -> (height (snd e) < height (Dir es))%nat.
Proof.
  simpl. induction es as [|e' es IH]; simpl; [contradiction|].
  intros [->|Hin]; [lia|]. specialize (IH Hin). lia.
Qed.

Lemma mirror_Dir (es : list (string * fsnode)) :
  mirror (Dir es) = Some (Dir (mirrorEntries es)).
Proof. reflexivity. Qed.

Lemma mirrorEntries_cons (e : string * fsnode) (es : list (string * fsnode)) :
  mirrorEntries (e :: es) =
  match mirror (snd e) with
  | Some m => (fst e, m) :: mirrorEntries es
  | None => mirrorEntries es
  end.
Proof. unfold mirrorEntries. simpl. now destruct (mirror (snd e)). Qed.

Lemma considered_cons (isRoot : bool) (e : string * fsnode)
  (es : list (string * fsnode)) :
  considered isRoot (e :: es) =
  if isRoot && has COPY_IGNORE (fst e) then considered isRoot es
  else e :: considered isRoot es.
Proof.
  unfold considered, notIgnored. destruct isRoot; cbn [andb filter]; [|reflexivity].
  now destruct (has COPY_IGNORE (fst e)).
Qed.

Lemma distinct_cons (k : string) (names : list string) :
  distinct (k :: names) = true ->
  distinct names = true /\ forall k', In k' names -> k <> k'.
Proof.
  simpl. intros H. apply andb_prop in H as [Hk Hd]. split; [assumption|].
  intros k' Hin ->. apply negb_true_iff in Hk.
  assert (existsb (String.eqb k') names = true); [|congruence].
  apply existsb_exists. exists k'. split; [assumption|apply String.eqb_refl].
Qed.

Lemma copy_loop (fuel : nat) (src dest : path) (isRoot : bool) (fs1 : fsnode) :
  copies fuel ->
  disjoint src dest = true ->
  forall (todo acc ds0 : list (string * fsnode)),
    lookup dest fs1 = Some (Dir ds0) ->
    (forall e, In e todo -> lookup (src ++ [fst e]) fs1 = Some (snd e)) ->
    distinct (map fst todo) = true ->
    (forall e, In e todo -> assoc (fst e) acc = None) ->
    (forall e, In e todo ->
       wellFormed (snd e) = true /\ (height (snd e) <= fuel)%nat) ->
    forEach (dirents todo) (copyEntry (copyDir fuel) src dest isRoot)
      (graft dest (Dir acc) fs1) =
    (Ret tt, graft dest (Dir (acc ++ mirrorEntries (considered isRoot todo))) fs1).
Proof.
  intros IHf Hdis todo.
  induction todo as [|[name child] todo IH]; intros acc ds0 Hdest Hsrc Hnd Hfresh Hwf.
  - simpl. unfold considered. destruct isRoot; simpl; now rewrite app_nil_r.
  - apply distinct_cons in Hnd as [Hnd Hother]. fold (map fst todo) in Hnd, Hother.
    assert (Hrest : forall acc',
               (forall e, In e todo -> assoc (fst e) acc' = None) ->
               forEach (dirents todo) (copyEntry (copyDir fuel) src dest isRoot)
                 (graft dest (Dir acc') fs1) =
               (Ret tt, graft dest (Dir (acc' ++ mirrorEntries (considered isRoot todo))) fs1)).
    { intros acc' Hacc'. apply (IH acc' ds0); auto.
      - intros e He. apply Hsrc. now right.
      - intros e He. apply Hwf. now right. }
    assert (Hstate : lookup dest (graft dest (Dir acc) fs1) = Some (Dir acc))
      by (eapply lookup_graft_same; eassumption).
    assert (Hname : assoc name acc = None) by (apply (Hfresh (name, child)); now left).
    assert (Hfresh' : forall v e, In e todo ->
                        assoc (fst e) (acc ++ [(name, v)]) = None).
    { intros v e He. rewrite assoc_app, (Hfresh e) by now right. simpl.
      destruct (String.eqb_spec name (fst e)) as [Heq|]; [|reflexivity].
      exfalso. apply (Hother (fst e)); [|assumption]. apply in_map_iff. eauto. }
    assert (Hfrom : lookup (src ++ [name]) (graft dest (Dir acc) fs1) = Some child).
    { rewrite lookup_graft_disjoint.
      - apply (Hsrc (name, child)). now left.
      - rewrite disjoint_sym. now apply disjoint_app_l. }
    change (dirents ((name, child) :: todo))
      with ((name, kindOf child) :: dirents todo).
    cbn [forEach]. rewrite considered_cons. cbn [fst].
    unfold copyEntry at 1.
    destruct (isRoot && has COPY_IGNORE name) eqn:Hign.
    + (* skipped by name *)
      unfold bind, ret. now apply Hrest; intros e He; apply Hfresh; right.
    + rewrite mirrorEntries_cons. cbn [fst snd].
      destruct child as [content x | es' |]; cbn [kindOf mirror].
      * (* a regular file *)
        unfold dirname. rewrite removelast_last.
        erewrite bind_ret.
        2:{ erewrite bind_ret.
            2:{ unfold ensureDir, attempt. erewrite mkdirp_existing by eassumption.
                reflexivity. }
            unfold copyFileSync. rewrite Hfrom. unfold attempt.
            erewrite store_child by eassumption. rewrite Hname.
            reflexivity. }
        rewrite graft_graft, setEntry_fresh by assumption.
        rewrite Hrest by (apply Hfresh').
        now rewrite <- app_assoc.
      * (* a directory *)
        destruct (Hwf (name, Dir es') (or_introl eq_refl)) as [Hwfc Hh].
        cbn [snd] in Hwfc, Hh.
        erewrite bind_ret.
        2:{ apply (IHf (src ++ [name]) (dest ++ [name]) false _
                     (graft dest (Dir (setEntry name (Dir []) acc))
                        (graft dest (Dir acc) fs1)) es'); auto.
            - apply disjoint_app_l, disjoint_app_r, Hdis.
            - now apply (mkdirp_child dest name _ acc).
            - rewrite lookup_app. erewrite lookup_graft_same by eassumption.
              simpl. now rewrite assoc_setEntry_same. }
        unfold considered at 1.
        erewrite graft_child.
        2:{ eapply lookup_graft_same; eassumption. }
        2:{ apply assoc_setEntry_same. }
        rewrite !graft_graft, setEntry_setEntry, setEntry_fresh by assumption.
        rewrite Hrest by (apply Hfresh').
        now rewrite <- app_assoc.
      * (* neither *)
        unfold bind, ret. now apply Hrest; intros e He; apply Hfresh; right.
Qed.

Lemma copies_all (fuel : nat) : copies fuel.
Proof.
  induction fuel as [|fuel IH]; intros src dest isRoot fs0 fs1 es Hsrc Hwf Hdis Hmk Hdest Hh.
  - simpl in Hh. lia.
  - rewrite copyDir_step.
    erewrite bind_ret by (unfold existsSync; rewrite Hsrc; reflexivity).
    cbn [isSome negb].
    erewrite bind_ret by (unfold ensureDir, attempt; rewrite Hmk; reflexivity).
    assert (Hsrc1 : lookup src fs1 = Some (Dir es)).
    { rewrite <- Hsrc. eapply lookup_mkdirp_disjoint; [eassumption|].
      now rewrite disjoint_sym. }
    erewrite bind_ret by (unfold readdirSync; rewrite Hsrc1; reflexivity).
    fold (dirents es).
    destruct (wellFormed_Dir es Hwf) as [Hnd Hch].
    replace fs1 with (graft dest (Dir []) fs1) at 1.
    2:{ clear - Hdest. revert fs1 Hdest.
        induction dest as [|c dest IHd]; intros fs1; simpl.
        - now intros [= ->].
        - destruct fs1 as [| ds |]; try discriminate.
          destruct (assoc c ds) as [m|] eqn:Hc; [|discriminate].
          intros H. rewrite (IHd m H). now rewrite setEntry_same. }
    erewrite (copy_loop fuel src dest isRoot fs1 IH Hdis es [] []); auto.
    + intros [k v] He. rewrite lookup_app, Hsrc1. simpl.
      now rewrite (assoc_In k v es Hnd He).
    + intros e He. split; [now apply Hch|].
      pose proof (height_child es e He). lia.
Qed.

End CopyFacts.

Section MirrorFacts.

Local Open Scope list_scope.

Lemma In_mirrorEntries (k : string) (m : fsnode) (es : list (string * fsnode)) :
  In (k, m) (mirrorEntries es) <->
  exists n, In (k, n) es /\ mirror n = Some m.
Proof.
  unfold mirrorEntries. rewrite in_flat_map. split.
  - intros [[k' n] [Hin Hm]]. simpl in Hm.
    destruct (mirror n) as [m'|] eqn:Hn; [|contradiction].
    destruct Hm as [[= -> ->]|[]]. eauto.
  - intros [n [Hin Hn]]. exists (k, n). split; [assumption|].
    simpl. rewrite Hn. now left.
Qed.

Lemma mirror_only_bounded (h : nat) :
  forall n m, (height n <= h)%nat -> mirror n = Some m ->
              filesAndDirsOnly m = true.
Proof.
  induction h as [|h IH]; intros [c x | es |] m Hh; simpl in Hh;
    try (intros [= <-]; reflexivity); try discriminate; try lia.
  rewrite mirror_Dir. intros [= <-]. cbn [filesAndDirsOnly].
  apply forallb_forall. intros [k m'] Hin. cbn [snd].
  apply In_mirrorEntries in Hin as [n [Hin Hn]].
  apply (IH n m'); [|assumption].
  pose proof (height_child es (k, n) Hin) as Hc. cbn [snd] in Hc.
  simpl in Hc. lia.
Qed.

(** The copy of a node holds regular files and directories only. *)
Lemma mirror_only (n m : fsnode) :
  mirror n = Some m -> filesAndDirsOnly m = true.
Proof. apply (mirror_only_bounded (height n)). lia. Qed.

Lemma mirror_regular_bounded (h : nat) :
  forall n, (height n <= h)%nat -> filesAndDirsOnly n = true -> mirror n = Some n.
Proof.
  induction h as [|h IH]; intros [c x | es |] Hh; simpl in Hh;
    try reflexivity; try discriminate; try lia.
  cbn [filesAndDirsOnly]. intros Hall. rewrite mirror_Dir. do 2 f_equal.
  rewrite forallb_forall in Hall.
  assert (Hch : forall e, In e es -> mirror (snd e) = Some (snd e)).
  { intros e He. apply IH; [|now apply Hall].
    pose proof (height_child es e He) as Hc. simpl in Hc. lia. }
  clear - Hch. induction es as [|[k n] es IHes]; [reflexivity|].
  rewrite mirrorEntries_cons.
  rewrite (Hch (k, n)) by now left. cbn [fst snd]. f_equal. apply IHes.
  intros e He. apply Hch. now right.
Qed.

(** A tree of regular files and directories is copied as it is, whatever
    the names inside it. *)
Lemma mirror_regular (n : fsnode) :
  filesAndDirsOnly n = true -> mirror n = Some n.
Proof. apply (mirror_regular_bounded (height n)). lia. Qed.

Lemma mirrorEntries_regular (es : list (string * fsnode)) :
  filesAndDirsOnly (Dir es) = true -> mirrorEntries es = es.
Proof.
  intros H. apply mirror_regular in H. rewrite mirror_Dir in H. congruence.
Qed.

Lemma assoc_Some_In (k : string) (v : fsnode) (es : list (string * fsnode)) :
  assoc k es = Some v -> In (k, v) es.
Proof.
  induction es as [|[k' v'] es IH]; simpl; [discriminate|].
  destruct (String.eqb_spec k' k) as [->|_]; [intros [= ->]; now left|auto].
Qed.

(** Below a tree of regular files and directories every path leads to
    one. *)
Lemma filesAndDirsOnly_lookup (q : path) :
  forall n m, filesAndDirsOnly n = true -> lookup q n = Some m ->
              filesAndDirsOnly m = true.
Proof.
  induction q as [|c q IH]; intros n m Hn; simpl.
  - now intros [= <-].
  - destruct n as [| es |]; try discriminate.
    destruct (assoc c es) as [n'|] eqn:Hc; [|discriminate].
    apply IH. cbn [filesAndDirsOnly] in Hn. rewrite forallb_forall in Hn.
    apply (Hn (c, n')). now apply assoc_Some_In.
Qed.

Lemma filter_regular (f : string * fsnode -> bool) (es : list (string * fsnode)) :
  filesAndDirsOnly (Dir es) = true -> filesAndDirsOnly (Dir (filter f es)) = true.
Proof.
  cbn [filesAndDirsOnly]. rewrite !forallb_forall.
  intros H e He. apply filter_In in He as [He _]. auto.
Qed.

End MirrorFacts.

Section CopyClaims.

Local Open Scope list_scope.

Variables (fs0 fs1 : fsnode) (src dest : path) (es : list (string * fsnode))
          (fuel : nat).

(** The source is a directory of a well-formed tree. *)
Hypothesis Hsrc : lookup src fs0 = Some (Dir es).
Hypothesis Hwf : wellFormed (Dir es) = true.
(** Source and target lie apart. *)
Hypothesis Hdis : disjoint src dest = true.
(** The target can be created, and is empty once it is. *)
Hypothesis Hmk : mkdirp dest fs0 = Some fs1.
Hypothesis Hempty : lookup dest fs1 = Some (Dir []).
Hypothesis Hfuel : (height (Dir es) <= fuel)%nat.

Lemma copyDir_result (isRoot : bool) :
  exists fs',
    copyDir fuel src dest isRoot fs0 = (Ret tt, fs') /\
    lookup dest fs' = Some (Dir (mirrorEntries (considered isRoot es))) /\
    lookup src fs' = Some (Dir es).
Proof.
  exists (graft dest (Dir (mirrorEntries (considered isRoot es))) fs1).
  split; [now apply copies_all|]. split.
  - eapply lookup_graft_same. eassumption.
  - rewrite lookup_graft_disjoint by (now rewrite disjoint_sym).
    rewrite <- Hsrc. eapply lookup_mkdirp_disjoint; [eassumption|].
    now rewrite disjoint_sym.
Qed.

End CopyClaims.

Section CopyTheorems.

Local Open Scope list_scope.

Lemma has_COPY_IGNORE (k : string) :
  has COPY_IGNORE k = true <-> k = "dist" \/ k = "logs" \/ k = ".git".
Proof.
  unfold has, COPY_IGNORE. cbn [existsb]. rewrite !orb_true_iff, !String.eqb_eq.
  intuition discriminate.
Qed.

(** C3. For every source tree copied at the root level into a target that
    is absent or empty: the copy succeeds; the target then holds the
    copies of the top-level entries whose name is none of dist, logs and
    .git, and of no other; a top-level entry made of regular files and
    directories is copied in full, whatever the names of the directories
    inside it, so a source of regular files and directories arrives as it
    is but for the three excluded top-level names.  Copying the cache
    {a.txt, dist/, logs/, .git/} into an empty target leaves exactly a.txt
    there; directories called dist, logs and .git below the root are
    copied. *)
Theorem copyDir_root_exclusions
  (fs0 fs1 : fsnode) (src dest : path) (es : list (string * fsnode)) (fuel : nat)
  (Hsrc : lookup src fs0 = Some (Dir es))
  (Hwf : wellFormed (Dir es) = true)
  (Hdis : disjoint src dest = true)
  (Hmk : mkdirp dest fs0 = Some fs1)
  (Hempty : lookup dest fs1 = Some (Dir []))
  (Hfuel : (height (Dir es) <= fuel)%nat) :
  (exists fs' copied,
     copyDir fuel src dest true fs0 = (Ret tt, fs') /\
     lookup dest fs' = Some (Dir copied) /\
     (forall k m, In (k, m) copied <->
        ~ (k = "dist" \/ k = "logs" \/ k = ".git") /\
        exists n, In (k, n) es /\ mirror n = Some m) /\
     (forall k n, In (k, n) es ->
        ~ (k = "dist" \/ k = "logs" \/ k = ".git") ->
        filesAndDirsOnly n = true -> In (k, n) copied) /\
     (filesAndDirsOnly (Dir es) = true -> copied = filter notIgnored es)) /\
  copyDir 2 ["cache"] ["target"] true diskOfSpec
  = (Ret tt, Dir [("cache", Dir cacheOfSpec);
                  ("target", Dir [("a.txt", File "A" false)])]) /\
  copyDir 3 ["cache"] ["target"] true diskNested
  = (Ret tt, Dir [("cache", Dir cacheNested);
                  ("target",
                   Dir [("src", Dir [("dist", Dir [("y.js", File "Y" false)]);
                                     ("logs", Dir []);
                                     (".git", Dir [("HEAD", File "ref" false)])])])]).
Proof.
  split; [|split; reflexivity].
  destruct (copyDir_result fs0 fs1 src dest es fuel Hsrc Hwf Hdis Hmk Hempty Hfuel true)
    as [fs' [Hrun [Hdest _]]].
  exists fs', (mirrorEntries (filter notIgnored es)).
  assert (Hchar : forall k m, In (k, m) (mirrorEntries (filter notIgnored es)) <->
             ~ (k = "dist" \/ k = "logs" \/ k = ".git") /\
             exists n, In (k, n) es /\ mirror n = Some m).
  { intros k m. rewrite In_mirrorEntries, <- has_COPY_IGNORE. split.
    - intros [n [Hin Hn]]. apply filter_In in Hin as [Hin Hk].
      unfold notIgnored in Hk. cbn [fst] in Hk. apply negb_true_iff in Hk.
      split; [congruence|eauto].
    - intros [Hk [n [Hin Hn]]]. exists n. split; [|assumption].
      apply filter_In. split; [assumption|]. unfold notIgnored. cbn [fst].
      now destruct (has COPY_IGNORE k). }
  split; [exact Hrun|]. split; [exact Hdest|]. split; [exact Hchar|]. split.
  - intros k n Hin Hk Hreg. apply Hchar. split; [assumption|].
    exists n. split; [assumption|]. now apply mirror_regular.
  - intros Hreg. apply mirrorEntries_regular. now apply filter_regular.
Qed.

Lemma copyDir_root_exclusions_witness :
  exists fs',
    copyDir 2 ["cache"] ["target"] true diskOfSpec = (Ret tt, fs') /\
    lookup ["target"] fs' = Some (Dir [("a.txt", File "A" false)]).
Proof.
  destruct (copyDir_root_exclusions diskOfSpec diskOfSpec ["cache"] ["target"]
              cacheOfSpec 2)
    as [[fs' [copied [Hrun [Hdest [_ [_ Hreg]]]]]] _];
    try reflexivity.
  exists fs'. split; [exact Hrun|]. rewrite Hdest, Hreg; reflexivity.
Defined.

(** C10. For every source tree copied into a target that is absent or
    empty, at the root level or below it: the copy succeeds whatever the
    source holds, and the target then holds, at every level, the regular
    files and the directories of the source and nothing else: an entry
    that is neither (a symbolic link, such as those of an installed
    node_modules/.bin) is left out without an error. *)
Theorem copyDir_omits_other
  (fs0 fs1 : fsnode) (src dest : path) (es : list (string * fsnode)) (fuel : nat)
  (isRoot : bool)
  (Hsrc : lookup src fs0 = Some (Dir es))
  (Hwf : wellFormed (Dir es) = true)
  (Hdis : disjoint src dest = true)
  (Hmk : mkdirp dest fs0 = Some fs1)
  (Hempty : lookup dest fs1 = Some (Dir []))
  (Hfuel : (height (Dir es) <= fuel)%nat) :
  (exists fs' d,
     copyDir fuel src dest isRoot fs0 = (Ret tt, fs') /\
     lookup dest fs' = Some d /\
     mirror (Dir (considered isRoot es)) = Some d /\
     filesAndDirsOnly d = true /\
     (forall q, lookup q d <> Some Other)) /\
  mirror Other = None /\
  copyDir 4 ["cache"] ["target"] true diskInstalled
  = (Ret tt,
     Dir [("cache", Dir cacheInstalled);
          ("target",
           Dir [("package.json", File "{}" false);
                ("node_modules",
                 Dir [(".bin", Dir []);
                      ("vite", Dir [("index.js", File "V" true)])])])]).
Proof.
  split; [|split; reflexivity].
  destruct (copyDir_result fs0 fs1 src dest es fuel Hsrc Hwf Hdis Hmk Hempty Hfuel isRoot)
    as [fs' [Hrun [Hdest _]]].
  exists fs', (Dir (mirrorEntries (considered isRoot es))).
  assert (Hm : mirror (Dir (considered isRoot es))
               = Some (Dir (mirrorEntries (considered isRoot es))))
    by apply mirror_Dir.
  assert (Honly := mirror_only _ _ Hm).
  repeat split; try assumption.
  intros q Hq. apply (filesAndDirsOnly_lookup q _ _ Honly) in Hq. discriminate.
Qed.

Lemma copyDir_omits_other_witness :
  exists fs' d,
    copyDir 4 ["cache"] ["target"] true diskInstalled = (Ret tt, fs') /\
    lookup ["target"] fs' = Some d /\ filesAndDirsOnly d = true.
Proof.
  destruct (copyDir_omits_other diskInstalled
              (Dir [("cache", Dir cacheInstalled); ("target", Dir [])])
              ["cache"] ["target"] cacheInstalled 4 true)
    as [[fs' [d [Hrun [Hdest [_ [Honly _]]]]]] _];
    try reflexivity; [simpl; lia|].
  exists fs', d. auto.
Defined.

End CopyTheorems.

(** ** The run *)

Section TraceFacts.

Local Open Scope list_scope.

Context {sel : Event -> bool}.

Lemma quiet_ret {A : Type} (a : A) : quiet sel (ret a).
Proof. intros w. reflexivity. Qed.

Lemma quiet_exit {A : Type} (c : Z) : quiet sel (@exit World A c).
Proof. intros w. reflexivity. Qed.

Lemma quiet_throw {A : Type} : quiet sel (@throw World A).
Proof. intros w. reflexivity. Qed.

Lemma quiet_bind {A B : Type} (m : M World A) (k : A -> M World B) :
  quiet sel m -> (forall a, quiet sel (k a)) -> quiet sel (bind m k).
Proof.
  intros Hm Hk w. unfold bind. specialize (Hm w).
  destruct (m w) as [[a|c|] w']; simpl in *; try assumption.
  now rewrite Hk.
Qed.

Lemma quiet_tryCatch {A : Type} (m h : M World A) :
  quiet sel m -> quiet sel h -> quiet sel (tryCatch m h).
Proof.
  intros Hm Hh w. unfold tryCatch. specialize (Hm w).
  destruct (m w) as [[a|c|] w']; simpl in *; try assumption.
  now rewrite Hh.
Qed.

Lemma quiet_onFs {A : Type} (m : M fsnode A) : quiet sel (onFs m).
Proof. intros w. unfold onFs. now destruct (m (fs w)). Qed.

Lemma quiet_emit (e : Event) : sel e = false -> quiet sel (emit e).
Proof.
  intros He w. unfold emit. simpl. rewrite filter_app. simpl. rewrite He.
  apply app_nil_r.
Qed.

Lemma quiet_forEach {A : Type} (l : list A) (body : A -> M World unit) :
  (forall x, quiet sel (body x)) -> quiet sel (forEach l body).
Proof.
  intros Hb. induction l as [|x l IH]; simpl; [apply quiet_ret|].
  apply quiet_bind; auto.
Qed.

Lemma quiet_promptLine (E : Env) (q : Question) (d : string) :
  (forall a, sel (Asked q a) = false) -> quiet sel (promptLine E q d).
Proof.
  intros Hq w. unfold promptLine. simpl. rewrite filter_app. simpl. rewrite Hq.
  apply app_nil_r.
Qed.

Lemma quiet_spawnSync (E : Env) (command : string) (args : list string)
  (dir : path) (env : list (string * string)) :
  (forall st, sel (SpawnSync command args dir st) = false) ->
  quiet sel (spawnSync E command args dir env).
Proof.
  intros Hs w. unfold spawnSync. destruct (npmInstall E dir env (fs w)) as [st fs'].
  simpl. rewrite filter_app. simpl. rewrite Hs. apply app_nil_r.
Qed.

Lemma quiet_confirm (E : Env) (q : Question) (d : bool) :
  (forall a, sel (Asked q a) = false) -> quiet sel (confirm E q d).
Proof.
  intros Hq. unfold confirm. apply quiet_bind; [now apply quiet_promptLine|].
  intros a. destruct (negb (truthy a)); apply quiet_ret.
Qed.

End TraceFacts.

Ltac quiet_step :=
  match goal with
  | |- quiet _ (bind _ _) => apply quiet_bind; [|intros]
  | |- quiet _ (ret _) => apply quiet_ret
  | |- quiet _ (exit _) => apply quiet_exit
  | |- quiet _ throw => apply quiet_throw
  | |- quiet _ (onFs _) => apply quiet_onFs
  | |- quiet _ (print _) => apply quiet_emit; reflexivity
  | |- quiet _ (emit _) => apply quiet_emit; reflexivity
  | |- quiet _ (promptLine _ _ _) => apply quiet_promptLine; intros; reflexivity
  | |- quiet _ (confirm _ _ _) => apply quiet_confirm; intros; reflexivity
  | |- quiet _ (spawnSync _ _ _ _ _) => apply quiet_spawnSync; intros; reflexivity
  | |- quiet _ (tryCatch _ _) => apply quiet_tryCatch
  | |- quiet _ (forEach _ _) => apply quiet_forEach; intros
  | |- quiet _ (if ?b then _ else _) => destruct b
  | |- quiet _ (match ?x with _ => _ end) => destruct x
  end.

Ltac quiet_all := repeat quiet_step.

Section PhaseFacts.

Local Open Scope list_scope.

Variable E : Env.


Lemma reuseCache_spawn (p : path) : quiet isSpawn (reuseCache E p).
Proof. unfold reuseCache. quiet_all. Qed.

Lemma clearTarget_spawn (p : path) : quiet isSpawn (clearTarget E p).
Proof. unfold clearTarget. quiet_all. Qed.

Lemma clearTarget_inPlace (p : path) : quiet isInPlace (clearTarget E p).
Proof. unfold clearTarget. quiet_all. Qed.

Lemma selectVersion_spawn (nodeVersion : string) :
  quiet isSpawn (selectVersion E nodeVersion).
Proof. unfold selectVersion. quiet_all. Qed.


Lemma generate_inPlace (nodeVersion : string) (p : path) :
  quiet isInPlace (generate E nodeVersion p).
Proof. unfold generate, selectVersion, runNpmInstall. quiet_all. Qed.

End PhaseFacts.

Section ClearFacts.

Local Open Scope list_scope.

Variable E : Env.

Lemma trace_bind_quiet {A B : Type} (sel : Event -> bool)
  (m : M World A) (k : A -> M World B) (w : World) :
  (forall a, quiet sel (k a)) ->
  filter sel (trace (snd (bind m k w))) = filter sel (trace (snd (m w))).
Proof.
  intros Hk. unfold bind. destruct (m w) as [[a|c|] w']; simpl; try reflexivity.
  apply Hk.
Qed.

Lemma trace_tryCatch_quiet {A : Type} (sel : Event -> bool)
  (m h : M World A) (w : World) :
  quiet sel h ->
  filter sel (trace (snd (tryCatch m h w))) = filter sel (trace (snd (m w))).
Proof.
  intros Hh. unfold tryCatch. destruct (m w) as [[a|c|] w']; simpl; try reflexivity.
  apply Hh.
Qed.

Lemma handler_quiet (sel : Event -> bool) :
  (forall m, sel (Print m) = false) ->
  quiet sel (print MsgError ;; @exit World unit 1)%js.
Proof.
  intros Hp. apply quiet_bind; [apply quiet_emit, Hp|]. intros _. apply quiet_exit.
Qed.

Lemma chooseTarget_run (w : World) :
  chooseTarget E w =
  if forceRebuild E then (Ret (resolve (cwd E) TEMPLATE_DIR), w)
  else (Ret (resolve (cwd E) (typed E (asked w) DEFAULT_TARGET)),
        {| fs := fs w; asked := S (asked w);
           trace := trace w ++ [Asked QTarget (answers E (asked w))] |}).
Proof. unfold chooseTarget. now destruct (forceRebuild E). Qed.

Lemma toLowerCase_empty (s : string) : toLowerCase s = "" -> s = "".
Proof. destruct s; [reflexivity|discriminate]. Qed.

Lemma confirm_run (q : Question) (w : World) :
  confirm E q false w =
  (Ret (affirmative (answers E (asked w))),
   {| fs := fs w; asked := S (asked w);
      trace := trace w ++ [Asked q (answers E (asked w))] |}).
Proof.
  unfold confirm, bind, promptLine, affirmative. cbv zeta.
  destruct (trim (answers E (asked w))) as [|c s]; reflexivity.
Qed.

Lemma assoc_dropEntry (k : string) (es : list (string * fsnode)) :
  assoc k (dropEntry k es) = None.
Proof.
  induction es as [|[k' v] es IH]; simpl; [reflexivity|].
  destruct (String.eqb k' k) eqn:Hk; [assumption|]. simpl. now rewrite Hk.
Qed.

(** After the recursive delete nothing is left at the path. *)
Lemma lookup_detach (p : path) :
  p <> [] -> forall n, lookup p (detach p n) = None.
Proof.
  induction p as [|c p IH]; [congruence|]. intros _ n.
  destruct p as [|c' p'].
  - destruct n as [| es |]; simpl; try reflexivity. now rewrite assoc_dropEntry.
  - destruct n as [| es |]; try reflexivity.
    change (detach (c :: c' :: p') (Dir es))
      with (match assoc c es with
            | Some m => Dir (setEntry c (detach (c' :: p') m) es)
            | None => Dir es
            end).
    destruct (assoc c es) as [m|] eqn:Hc.
    + cbn [lookup]. rewrite assoc_setEntry_same. apply IH. discriminate.
    + cbn [lookup]. now rewrite Hc.
Qed.


Lemma bind_throw {S A B : Type} (m : M S A) (k : A -> M S B) (s s' : S) :
  m s = (Throw, s') -> bind m k s = (Throw, s').
Proof. unfold bind. now intros ->. Qed.

Lemma onFs_run {A : Type} (m : M fsnode A) (w : World) (r : Res A) (d : fsnode) :
  m (fs w) = (r, d) ->
  onFs m w = (r, {| fs := d; asked := asked w; trace := trace w |}).
Proof. unfold onFs. now intros ->. Qed.

Lemma world_eta (w : World) :
  {| fs := fs w; asked := asked w; trace := trace w |} = w.
Proof. now destruct w. Qed.

Lemma isEmptyDir_run (p : path) (d : fsnode) :
  isEmptyDir p d =
  match lookup p d with
  | None => (Ret true, d)
  | Some (Dir es) => (Ret (Nat.eqb (List.length es) 0), d)
  | Some _ => (Throw, d)
  end.
Proof.
  unfold isEmptyDir, bind, existsSync, readdirSync, ret.
  destruct (lookup p d) as [[c x|es|]|] eqn:Hl; simpl; rewrite ?Hl;
    try reflexivity.
  now rewrite length_map.
Qed.

(** The test of line 874. *)
Lemma occupied_test (p : path) (w : World) :
  (ex <- onFs (existsSync p) ;;
   if ex then empty <- onFs (isEmptyDir p) ;; ret (negb empty)
   else ret false)%js w =
  match lookup p (fs w) with
  | None | Some (Dir []) => (Ret false, w)
  | Some (Dir (_ :: _)) => (Ret true, w)
  | Some _ => (Throw, w)
  end.
Proof.
  erewrite bind_ret by (apply onFs_run; reflexivity). rewrite world_eta.
  assert (Hrun : onFs (isEmptyDir p) w =
                 (fst (isEmptyDir p (fs w)), w)).
  { erewrite onFs_run by apply surjective_pairing.
    rewrite isEmptyDir_run. destruct (lookup p (fs w)) as [[c x|es|]|];
      simpl; now rewrite world_eta. }
  rewrite isEmptyDir_run in Hrun.
  destruct (lookup p (fs w)) as [[c x|[|e es]|]|] eqn:Hl; cbn [isSome];
    simpl in Hrun.
  - now erewrite bind_throw by exact Hrun.
  - now erewrite bind_ret by exact Hrun.
  - now erewrite bind_ret by exact Hrun.
  - now erewrite bind_throw by exact Hrun.
  - reflexivity.
Qed.

Lemma clearTarget_unfold (p : path) :
  clearTarget E p =
  (occupied <- (ex <- onFs (existsSync p) ;;
                if ex then empty <- onFs (isEmptyDir p) ;; ret (negb empty)
                else ret false) ;;
   if occupied then
     overwrite <- (if forceRebuild E then ret true
                   else confirm E (QOverwrite p) false) ;;
     if negb overwrite then exit 1
     else
       print (MsgClearing p) ;;
       emit (RmSync p) ;;
       onFs (rmSync p)
   else ret tt)%js.
Proof.
  unfold clearTarget, bind. reflexivity.
Qed.

Lemma removal_run (p : path) (w : World) :
  exists r,
    (print (MsgClearing p) ;; emit (RmSync p) ;; onFs (rmSync p))%js w =
    (r, {| fs := match p with [] => fs w | _ => detach p (fs w) end;
           asked := asked w;
           trace := (trace w ++ [Print (MsgClearing p)]) ++ [RmSync p] |}) /\
    (r = Ret tt /\ p <> [] \/ r = Throw /\ p = []).
Proof.
  destruct p as [|c p].
  - exists Throw. split; [reflexivity|now right].
  - exists (Ret tt). split; [reflexivity|left; split; [reflexivity|discriminate]].
Qed.

(** The four ways [clearTarget] goes. *)
Lemma clearTarget_free (p : path) (w : World) :
  lookup p (fs w) = None \/ lookup p (fs w) = Some (Dir []) ->
  clearTarget E p w = (Ret tt, w).
Proof.
  intros H. rewrite clearTarget_unfold.
  erewrite bind_ret by (rewrite occupied_test; destruct H as [-> | ->]; reflexivity).
  reflexivity.
Qed.

Lemma clearTarget_notDir (p : path) (w : World) :
  (exists c x, lookup p (fs w) = Some (File c x)) \/ lookup p (fs w) = Some Other ->
  clearTarget E p w = (Throw, w).
Proof.
  intros H. rewrite clearTarget_unfold.
  erewrite bind_throw
    by (rewrite occupied_test; destruct H as [[c [x ->]] | ->]; reflexivity).
  reflexivity.
Qed.

Lemma occupied_test_true (p : path) (w : World) :
  occupied p (fs w) = true ->
  (ex <- onFs (existsSync p) ;;
   if ex then empty <- onFs (isEmptyDir p) ;; ret (negb empty)
   else ret false)%js w = (Ret true, w).
Proof.
  unfold occupied. rewrite occupied_test.
  now destruct (lookup p (fs w)) as [[c x|[|e es]|]|].
Qed.

Lemma clearTarget_forced (p : path) (w : World) :
  occupied p (fs w) = true -> forceRebuild E = true ->
  exists r,
    clearTarget E p w =
    (r, {| fs := match p with [] => fs w | _ => detach p (fs w) end;
           asked := asked w;
           trace := (trace w ++ [Print (MsgClearing p)]) ++ [RmSync p] |}) /\
    (r = Ret tt /\ p <> [] \/ r = Throw /\ p = []).
Proof.
  intros Ho Hf. rewrite clearTarget_unfold.
  erewrite bind_ret by (now apply occupied_test_true).
  rewrite Hf. erewrite bind_ret by reflexivity. cbn [negb].
  apply removal_run.
Qed.

Lemma clearTarget_confirmed (p : path) (w : World) :
  occupied p (fs w) = true -> forceRebuild E = false ->
  affirmative (answers E (asked w)) = true ->
  exists r,
    clearTarget E p w =
    (r, {| fs := match p with [] => fs w | _ => detach p (fs w) end;
           asked := S (asked w);
           trace := ((trace w ++ [Asked (QOverwrite p) (answers E (asked w))])
                     ++ [Print (MsgClearing p)]) ++ [RmSync p] |}) /\
    (r = Ret tt /\ p <> [] \/ r = Throw /\ p = []).
Proof.
  intros Ho Hf Ha. rewrite clearTarget_unfold.
  erewrite bind_ret by (now apply occupied_test_true).
  rewrite Hf. erewrite bind_ret by (apply confirm_run). rewrite Ha. cbn [negb].
  apply (removal_run p
           {| fs := fs w; asked := S (asked w);
              trace := trace w ++ [Asked (QOverwrite p) (answers E (asked w))] |}).
Qed.

Lemma clearTarget_declined (p : path) (w : World) :
  occupied p (fs w) = true -> forceRebuild E = false ->
  affirmative (answers E (asked w)) = false ->
  clearTarget E p w =
  (Exit 1, {| fs := fs w; asked := S (asked w);
              trace := trace w ++ [Asked (QOverwrite p) (answers E (asked w))] |}).
Proof.
  intros Ho Hf Ha. rewrite clearTarget_unfold.
  erewrite bind_ret by (now apply occupied_test_true).
  rewrite Hf. erewrite bind_ret by (apply confirm_run). now rewrite Ha.
Qed.

Lemma occupied_cases (p : path) (d : fsnode) :
  (occupied p d = true) \/
  (occupied p d = false /\
   ((lookup p d = None \/ lookup p d = Some (Dir [])) \/
    ((exists c x, lookup p d = Some (File c x)) \/ lookup p d = Some Other))).
Proof.
  unfold occupied. destruct (lookup p d) as [[c x| [|e es] |]|]; eauto 8.
Qed.

(** When [clearTarget] returns, the target is absent or empty. *)
Lemma clearTarget_leaves_free (p : path) (w w' : World) :
  clearTarget E p w = (Ret tt, w') ->
  lookup p (fs w') = None \/ lookup p (fs w') = Some (Dir []).
Proof.
  destruct (occupied_cases p (fs w)) as [Ho|[Ho [Hfree|Hnd]]].
  - destruct (forceRebuild E) eqn:Hf.
    + destruct (clearTarget_forced p w Ho Hf) as [r [Hrun [[-> Hp]|[-> Hp]]]];
        rewrite Hrun; [|discriminate].
      intros [= <-]. simpl. left. destruct p; [congruence|].
      apply lookup_detach. discriminate.
    + destruct (affirmative (answers E (asked w))) eqn:Ha.
      * destruct (clearTarget_confirmed p w Ho Hf Ha) as [r [Hrun [[-> Hp]|[-> Hp]]]];
          rewrite Hrun; [|discriminate].
        intros [= <-]. simpl. left. destruct p; [congruence|].
        apply lookup_detach. discriminate.
      * rewrite (clearTarget_declined p w Ho Hf Ha). discriminate.
  - rewrite (clearTarget_free p w Hfree). now intros [= <-].
  - rewrite (clearTarget_notDir p w Hnd). discriminate.
Qed.

End ClearFacts.

Section RunFacts.

Local Open Scope list_scope.

Variables (E : Env) (disk : fsnode).

Lemma program_unstarted :
  startsUp E = false ->
  exists c m,
    program E (start disk) =
    (Exit c, {| fs := disk; asked := 0; trace := [Print m] |}) /\
    (m = MsgHelp \/ m = MsgNodeMissing \/ m = MsgNpmMissing).
Proof.
  unfold startsUp, program, main.
  destruct (showHelp E); [intros _; exists 0, MsgHelp; auto|].
  destruct (getNodeVersion E) as [[|c0 nv]|];
    try (intros _; exists 1, MsgNodeMissing; now auto).
  destruct (npmOut E) as [[|c s]|]; simpl; try discriminate;
    intros _; exists 1, MsgNpmMissing; auto.
Qed.

Lemma program_started :
  startsUp E = true ->
  exists nodeVersion,
    program E (start disk) =
    tryCatch (clearTarget E (targetOf E) ;; afterClearing E nodeVersion (targetOf E))%js
      (print MsgError ;; exit 1)%js (chosen E disk).
Proof.
  unfold startsUp, program, main.
  destruct (showHelp E); [discriminate|].
  destruct (getNodeVersion E) as [[|c0 nv0]|]; try discriminate.
  destruct (npmOut E) as [[|c s]|]; simpl; try discriminate. intros _.
  exists (String c0 nv0). unfold tryCatch, chosen, targetOf, afterClearing.
  assert (Hc := chooseTarget_run E (start disk)).
  destruct (forceRebuild E); erewrite bind_ret by exact Hc; reflexivity.
Qed.


Lemma chosen_facts :
  fs (chosen E disk) = disk /\
  (forall sel, (forall a, sel (Asked QTarget a) = false) ->
               filter sel (trace (chosen E disk)) = []) /\
  (forceRebuild E = false -> asked (chosen E disk) = 1%nat).
Proof.
  unfold chosen. destruct (forceRebuild E); repeat split; try discriminate.
  intros sel Hsel. simpl. now rewrite Hsel.
Qed.




End RunFacts.




Section ReuseFacts.

Local Open Scope list_scope.

Variable E : Env.

Lemma pathEqb_eq (p q : path) : pathEqb p q = true -> p = q.
Proof. unfold pathEqb. now destruct (list_eq_dec string_dec p q). Qed.

(** On a target that is absent or empty the reuse path never takes the
    branch that uses the cache in place: were the cache the target, it
    would be missing or empty. *)
Lemma reuseCache_inPlace_free (p : path) (w : World) :
  lookup p (fs w) = None \/ lookup p (fs w) = Some (Dir []) ->
  filter isInPlace (trace (snd (reuseCache E p w))) = filter isInPlace (trace w).
Proof.
  intros Hfree. unfold reuseCache. destruct (forceRebuild E); [reflexivity|].
  cbn [negb].
  destruct (pathEqb (resolve (cwd E) TEMPLATE_DIR) p) eqn:Heq.
  - apply pathEqb_eq in Heq. rewrite Heq.
    erewrite bind_ret by apply confirm_run.
    destruct (affirmative (answers E (asked w))).
    + erewrite bind_ret by (apply onFs_run; reflexivity). cbn [fs asked trace].
      assert (Hmiss :
        (if negb (isSome (lookup p (fs w))) then ret true else onFs (isEmptyDir p))
          {| fs := fs w; asked := S (asked w);
             trace := trace w ++ [Asked QUseCached (answers E (asked w))] |}
        = (Ret true,
           {| fs := fs w; asked := S (asked w);
              trace := trace w ++ [Asked QUseCached (answers E (asked w))] |})).
      { destruct Hfree as [H|H]; rewrite H; cbn [isSome negb]; [reflexivity|].
        erewrite onFs_run; [reflexivity|]. cbn [fs]. rewrite isEmptyDir_run, H.
        reflexivity. }
      erewrite bind_ret by exact Hmiss.
      cbn. rewrite !filter_app. cbn. now rewrite !app_nil_r.
    + cbn. rewrite !filter_app. cbn. now rewrite !app_nil_r.
  - rewrite trace_bind_quiet.
    + rewrite confirm_run. cbn. rewrite !filter_app. cbn. now rewrite !app_nil_r.
    + intros b. quiet_all.
Qed.

Lemma afterClearing_inPlace_free (nodeVersion : string) (p : path) (w : World) :
  lookup p (fs w) = None \/ lookup p (fs w) = Some (Dir []) ->
  filter isInPlace (trace (snd (afterClearing E nodeVersion p w)))
  = filter isInPlace (trace w).
Proof.
  intros Hfree. unfold afterClearing. rewrite trace_bind_quiet.
  - now apply reuseCache_inPlace_free.
  - intros [|]; [apply quiet_ret|apply generate_inPlace].
Qed.

(** No run prints that it uses the cache in place. *)
Lemma inPlace_trace (disk : fsnode) :
  filter isInPlace (trace (final E disk)) = [].
Proof.
  unfold final. destruct (startsUp E) eqn:Hs.
  2:{ destruct (program_unstarted E disk Hs) as [c [m [-> Hm]]].
      destruct Hm as [->|[->| ->]]; reflexivity. }
  destruct (program_started E disk Hs) as [nv ->].
  rewrite trace_tryCatch_quiet by quiet_all.
  destruct (chosen_facts E disk) as [_ [Htr _]].
  specialize (Htr isInPlace (fun _ => eq_refl)).
  pose proof (clearTarget_inPlace E (targetOf E) (chosen E disk)) as Hq.
  rewrite Htr in Hq. unfold bind.
  destruct (clearTarget E (targetOf E) (chosen E disk)) as [[[]|c|] w'] eqn:Hc;
    cbn [snd] in *; try exact Hq.
  rewrite afterClearing_inPlace_free; [exact Hq|].
  eapply clearTarget_leaves_free. exact Hc.
Qed.

End ReuseFacts.

(** C4. The code does not deliver the claim: the branch that would use the
    cache in place (lines 902-906) is never reached, in any run, because
    the target is cleared or found empty first (lines 874-886) and the
    cache, being the same directory, is then missing or empty.  In the run
    where the cache is the target and the user says yes to both questions
    the cache is deleted and the run ends with code 1. *)
Theorem reuse_in_place_deletes_cache :
  (forall (E : Env) (disk : fsnode) (p : path),
     ~ In (Print (MsgInPlace p)) (trace (final E disk))) /\
  program (exampleEnv false (Some "10.2.4") [""; "y"; "y"] installOk)
    (start diskCached)
  = (Exit 1,
     {| fs := Dir [("work", Dir [])];
        asked := 3;
        trace := [Asked QTarget "";
                  Asked (QOverwrite ["work"; "init_src"]) "y";
                  Print (MsgClearing ["work"; "init_src"]);
                  RmSync ["work"; "init_src"];
                  Asked QUseCached "y";
                  Print (MsgTemplateMissing ["work"; "init_src"])] |}) /\
  lookup ["work"; "init_src"] diskCached
  = Some (Dir [("package.json", File "{}" false); ("src", Dir [])]).
Proof.
  split; [|split; reflexivity].
  intros E disk p Hin.
  assert (H : In (Print (MsgInPlace p)) (filter isInPlace (trace (final E disk))))
    by (apply filter_In; split; [assumption|reflexivity]).
  rewrite inPlace_trace in H. exact H.
Qed.

Section InstallFacts.

Local Open Scope list_scope.

Variable E : Env.









End InstallFacts.



(** ** More on versions *)

Section VersionExtras.


(** X2. For all versions a, b and c: when a is not above b and b is not
    above c under [compareSemver], a is not above c; and a is strictly
    below c as soon as one of the two steps is strict.  With X1 this makes
    the comparison a total preorder, which is what [sort] needs. *)
Theorem compareSemver_transitive (a b c : Semver)
  (Hab : compareSemver a b <= 0) (Hbc : compareSemver b c <= 0) :
  compareSemver a c <= 0 /\
  (compareSemver a b < 0 \/ compareSemver b c < 0 -> compareSemver a c < 0).
Proof.
  rewrite compareSemver_le in Hab, Hbc. rewrite !compareSemver_neg, compareSemver_le.
  unfold lexLt, sameTriple in *. lia.
Qed.

Lemma compareSemver_transitive_witness :
  compareSemver (parseSemver "1.2.3") (parseSemver "1.10.0") <= 0 /\
  compareSemver (parseSemver "1.10.0") (parseSemver "2.0.0") <= 0 /\
  compareSemver (parseSemver "1.2.3") (parseSemver "2.0.0") <= 0.
Proof.
  split; [vm_compute; discriminate|]. split; [vm_compute; discriminate|].
  apply (compareSemver_transitive (parseSemver "1.2.3") (parseSemver "1.10.0")
           (parseSemver "2.0.0")); vm_compute; discriminate.
Defined.











End VersionExtras.

(** ** More on the matcher *)

Section MatcherExtras.

Local Open Scope list_scope.

(** The pool [pickElectronVersion] draws from, and the tag it gives. *)
Lemma pickElectronVersion_pool (releases : list Release) (localMajor : option Z) :
  let candidates := candidatesOf releases in
  (exactPool candidates localMajor <> [] /\
   pickElectronVersion releases localMajor
   = newest (exactPool candidates localMajor) MatchExact) \/
  (exactPool candidates localMajor = [] /\
   lowerPool candidates localMajor <> [] /\
   pickElectronVersion releases localMajor
   = newest (lowerPool candidates localMajor) MatchLower) \/
  (exactPool candidates localMajor = [] /\
   lowerPool candidates localMajor = [] /\
   pickElectronVersion releases localMajor = newest candidates MatchAny).
Proof.
  cbv zeta. unfold pickElectronVersion. cbv zeta.
  destruct (exactPool (candidatesOf releases) localMajor) as [|e es] eqn:He.
  - destruct (lowerPool (candidatesOf releases) localMajor) as [|l ls] eqn:Hl.
    + right. right. auto.
    + right. left. repeat split; auto. discriminate.
  - left. split; [discriminate|reflexivity].
Qed.

(** X5. For every release list and local major: when no candidate bundles
    the local major and some candidate bundles a lower one, the pick is
    tagged Lower; it is a candidate whose bundled major is below the local
    one, and no candidate with a bundled major below the local one has a
    greater version.  With local major 19 and the candidates 21 (bundled
    18), 20 (bundled 16) and 23 (bundled 21) the pick is 21. *)
Theorem pickElectronVersion_lower (releases : list Release) (localMajor : option Z)
  (Hexact : exactPool (candidatesOf releases) localMajor = [])
  (Hlower : lowerPool (candidatesOf releases) localMajor <> []) :
  exists c,
    pickElectronVersion releases localMajor = Some (tagged c MatchLower) /\
    In c (candidatesOf releases) /\
    toNumber (nodeMajor c) < toNumber localMajor /\
    forall d, In d (candidatesOf releases) ->
      toNumber (nodeMajor d) < toNumber localMajor ->
      compareSemver (parseSemver (version d)) (parseSemver (version c)) <= 0.
Proof.
  destruct (pickElectronVersion_pool releases localMajor) as [[H _]|[[_ [_ Hp]]|[_ [H _]]]];
    try contradiction.
  destruct (newest_spec _ MatchLower Hlower) as [c [Hn [Hin Hmax]]].
  exists c. rewrite Hp, Hn. unfold lowerPool in Hin.
  apply filter_In in Hin as [Hin Hlt]. unfold lessThan in Hlt. apply Z.ltb_lt in Hlt.
  repeat split; auto.
  intros d Hd Hdl. apply Hmax. unfold lowerPool. apply filter_In. split; [assumption|].
  unfold lessThan. now apply Z.ltb_lt.
Qed.

Lemma pickElectronVersion_lower_witness :
  exists c,
    pickElectronVersion [feedEntry "21" "18"; feedEntry "20" "16"; feedEntry "23" "21"]
      (Some 19) = Some (tagged c MatchLower) /\
    version c = "21".
Proof.
  destruct (pickElectronVersion_lower
              [feedEntry "21" "18"; feedEntry "20" "16"; feedEntry "23" "21"] (Some 19))
    as [c [Hp _]].
  - reflexivity.
  - vm_compute. discriminate.
  - exists c. split; [exact Hp|]. vm_compute in Hp. injection Hp as Hv _ _.
    symmetry. exact Hv.
Defined.

(** X6. For every release list and local major: when no candidate bundles
    the local major or a lower one and the pool is not empty, the pick is
    tagged Any and is a newest candidate of the whole pool; every
    candidate then bundles a major that differs from the local one and
    is not below it (not below 0 when the local major is unknown).  With
    local major 19 and the candidates 23 (bundled 21) and 24 (bundled 22)
    the pick is a newest of the two. *)
Theorem pickElectronVersion_any (releases : list Release) (localMajor : option Z)
  (Hexact : exactPool (candidatesOf releases) localMajor = [])
  (Hlower : lowerPool (candidatesOf releases) localMajor = [])
  (Hsome : candidatesOf releases <> []) :
  exists c,
    pickElectronVersion releases localMajor = Some (tagged c MatchAny) /\
    newestIn (candidatesOf releases) c /\
    (forall d, In d (candidatesOf releases) ->
       toNumber localMajor <= toNumber (nodeMajor d) /\
       nodeMajor d <> localMajor).
Proof.
  destruct (pickElectronVersion_pool releases localMajor) as [[H _]|[[_ [H _]]|[_ [_ Hp]]]];
    try contradiction.
  destruct (newest_spec _ MatchAny Hsome) as [c [Hn Hnew]].
  exists c. rewrite Hp. repeat split; try assumption; try apply Hnew.
  - destruct (Z.le_gt_cases (toNumber localMajor) (toNumber (nodeMajor d)))
      as [Hle|Hgt]; [assumption|].
    exfalso. assert (Hin : In d (lowerPool (candidatesOf releases) localMajor)).
    { unfold lowerPool. apply filter_In. split; [assumption|].
      unfold lessThan. apply Z.ltb_lt. lia. }
    rewrite Hlower in Hin. exact Hin.
  - intros Heq.
    assert (Hin : In d (exactPool (candidatesOf releases) localMajor)).
    { unfold exactPool. apply filter_In. split; [assumption|]. rewrite Heq.
      destruct localMajor; simpl; [apply Z.eqb_refl|reflexivity]. }
    rewrite Hexact in Hin. exact Hin.
Qed.

Lemma pickElectronVersion_any_witness :
  exists c,
    pickElectronVersion [feedEntry "23" "21"; feedEntry "24" "22"] (Some 19)
    = Some (tagged c MatchAny) /\
    newestIn (candidatesOf [feedEntry "23" "21"; feedEntry "24" "22"]) c.
Proof.
  destruct (pickElectronVersion_any [feedEntry "23" "21"; feedEntry "24" "22"] (Some 19))
    as [c [Hp [Hn _]]]; try reflexivity.
  - vm_compute. discriminate.
  - exists c. auto.
Defined.

Lemma newest_some (pool : list Candidate) (m : Match) (s : Selected) :
  newest pool m = Some s -> exists c, In c pool /\ s = tagged c m.
Proof.
  unfold newest. destruct (sortBy newestFirst pool) as [|c l] eqn:Hs; [discriminate|].
  intros [= <-]. exists c. split; [|reflexivity].
  apply (sortBy_In newestFirst c pool). rewrite Hs. now left.
Qed.


(** Whatever is selected is a candidate. *)
Lemma pickElectronVersion_candidate (releases : list Release) (localMajor : option Z)
  (s : Selected) :
  pickElectronVersion releases localMajor = Some s ->
  exists c m, In c (candidatesOf releases) /\ s = tagged c m.
Proof.
  destruct (pickElectronVersion_pool releases localMajor)
    as [[_ ->]|[[_ [_ ->]]|[_ [_ ->]]]]; intros H;
    apply newest_some in H as [c [Hin ->]].
  - unfold exactPool in Hin. apply filter_In in Hin as [Hin _]. eauto.
  - unfold lowerPool in Hin. apply filter_In in Hin as [Hin _]. eauto.
  - eauto.
Qed.

(** X7. Whatever [pickElectronVersion] returns comes from an entry of the
    feed: its version is not empty and is no pre-release, its bundled
    runtime has a major, and its tag says how that major stands to the
    local one: equal for Exact; below it, with no exact candidate, for
    Lower; for Any there is neither an exact nor a lower candidate.  A
    result always carries a tag. *)
Theorem pickElectronVersion_sound (releases : list Release) (localMajor : option Z)
  (s : Selected) (H : pickElectronVersion releases localMajor = Some s) :
  sel_version s <> "" /\
  isPreRelease (sel_version s) = false /\
  (exists n, sel_nodeMajor s = Some n /\ parseMajor (sel_node s) = Some n) /\
  (exists r, In r releases /\
     sel_version s = version (toCandidate r) /\ sel_node s = node (toCandidate r)) /\
  match sel_match s with
  | Some MatchExact => sel_nodeMajor s = localMajor
  | Some MatchLower =>
      toNumber (sel_nodeMajor s) < toNumber localMajor /\
      exactPool (candidatesOf releases) localMajor = []
  | Some MatchAny =>
      exactPool (candidatesOf releases) localMajor = [] /\
      lowerPool (candidatesOf releases) localMajor = []
  | None => False
  end.
Proof.
  assert (Hc : exists c m, In c (candidatesOf releases) /\ s = tagged c m)
    by (eapply pickElectronVersion_candidate; eassumption).
  destruct Hc as [c [m [Hin ->]]].
  pose proof (proj1 (candidatesOf_spec releases c) Hin) as [[r [Hr Hcr]] [Hv [Hm Hpre]]].
  cbn [tagged sel_version sel_node sel_nodeMajor sel_match].
  split; [assumption|]. split; [assumption|]. split; [|split].
  - destruct (nodeMajor c) as [n|] eqn:Hn; [|congruence]. exists n. split; [reflexivity|].
    rewrite Hcr in Hn |- *. exact Hn.
  - exists r. rewrite Hcr. auto.
  - destruct (pickElectronVersion_pool releases localMajor)
      as [[_ Hp]|[[He [_ Hp]]|[He [Hl Hp]]]]; rewrite Hp in H;
      apply newest_some in H as [c' [Hin' Heq]];
      injection Heq as Hv' Hn' Hm' Htag; subst m.
    + unfold exactPool in Hin'. apply filter_In in Hin' as [_ Hs].
      rewrite <- Hm' in Hs. revert Hs. unfold strictEq.
      destruct (nodeMajor c), localMajor; try discriminate; [|reflexivity].
      intros Hs. apply Z.eqb_eq in Hs. now subst.
    + unfold lowerPool in Hin'. apply filter_In in Hin' as [_ Hs].
      rewrite <- Hm' in Hs. unfold lessThan in Hs. apply Z.ltb_lt in Hs. auto.
    + auto.
Qed.

Lemma pickElectronVersion_sound_witness :
  pickElectronVersion [feedEntry "22" "20"; feedEntry "21" "18"; feedEntry "23" "21"]
    (Some 20)
  = Some {| sel_version := "22"; sel_node := "20"; sel_nodeMajor := Some 20;
            sel_match := Some MatchExact |} /\
  isPreRelease "22" = false.
Proof.
  split; [reflexivity|].
  apply (pickElectronVersion_sound
           [feedEntry "22" "20"; feedEntry "21" "18"; feedEntry "23" "21"] (Some 20)
           {| sel_version := "22"; sel_node := "20"; sel_nodeMajor := Some 20;
              sel_match := Some MatchExact |}).
  reflexivity.
Defined.


Lemma compareSemver_trans_le (a b c : Semver) :
  compareSemver a b <= 0 -> compareSemver b c <= 0 -> compareSemver a c <= 0.
Proof. rewrite !compareSemver_le. unfold lexLt, sameTriple. lia. Qed.

Lemma compareSemver_flip (a b : Semver) :
  0 < compareSemver a b -> compareSemver b a < 0.
Proof. now rewrite compareSemver_pos, compareSemver_neg. Qed.

(** The head of a sorted pool is the first of its newest entries. *)
Lemma sortBy_first_newest (pool : list Candidate) :
  pool <> [] ->
  exists c t l1 l2,
    sortBy newestFirst pool = c :: t /\ pool = l1 ++ c :: l2 /\
    (forall d, In d l1 ->
       compareSemver (parseSemver (version d)) (parseSemver (version c)) < 0) /\
    (forall d, In d l2 ->
       compareSemver (parseSemver (version d)) (parseSemver (version c)) <= 0).
Proof.
  induction pool as [|x l IH]; [congruence|]. intros _.
  destruct l as [|y l'].
  - exists x, [], [], []. simpl. repeat split; intros d [].
  - destruct IH as [h [t [l1 [l2 [Hs [Hl [H1 H2]]]]]]]; [discriminate|].
    change (sortBy newestFirst (x :: y :: l'))
      with (insertBy newestFirst x (sortBy newestFirst (y :: l'))).
    rewrite Hs, Hl. cbn [insertBy]. unfold newestFirst at 1.
    destruct (Z.leb_spec
                (compareSemver (parseSemver (version h)) (parseSemver (version x))) 0)
      as [Hle|Hgt].
    + exists x, (h :: t), [], (l1 ++ h :: l2). repeat split; [intros d []|].
      intros d Hd. apply in_app_iff in Hd as [Hd|[<-|Hd]]; [|assumption|].
      * apply (compareSemver_trans_le _ (parseSemver (version h))); [|assumption].
        specialize (H1 d Hd). lia.
      * apply (compareSemver_trans_le _ (parseSemver (version h))); auto.
    + exists h, (insertBy newestFirst x t), (x :: l1), l2. repeat split; auto.
      intros d [Hd|Hd]; [|now apply H1]. subst d.
      now apply compareSemver_flip.
Qed.

Lemma poolOf_pick (releases : list Release) (localMajor : option Z) :
  exists m, pickElectronVersion releases localMajor
            = newest (poolOf releases localMajor) m.
Proof.
  unfold pickElectronVersion, poolOf. cbv zeta.
  destruct (exactPool (candidatesOf releases) localMajor) as [|e es];
    [|exists MatchExact; reflexivity].
  destruct (lowerPool (candidatesOf releases) localMajor) as [|l ls];
    [exists MatchAny|exists MatchLower]; reflexivity.
Qed.

(** X9. Among candidates of equal rank the first in feed order wins.  For
    every release list and local major, when [pickElectronVersion]
    returns a result: the pool it drew from (the exact matches, else the
    lower ones, else all candidates, in feed order) splits around the
    picked candidate so that every candidate before it has a strictly
    smaller version and none after it has a greater one.  With the feed
    29.0.0, 30.0.0 (bundled 20.11.1) and v30.0.0 (bundled 20.15.0) and
    local major 20 the pick is the entry bundled with 20.11.1. *)
Theorem pickElectronVersion_first_newest (releases : list Release)
  (localMajor : option Z) (s : Selected)
  (H : pickElectronVersion releases localMajor = Some s) :
  exists c l1 l2,
    poolOf releases localMajor = l1 ++ c :: l2 /\
    sel_version s = version c /\ sel_node s = node c /\
    (forall d, In d l1 ->
       compareSemver (parseSemver (version d)) (parseSemver (version c)) < 0) /\
    (forall d, In d l2 ->
       compareSemver (parseSemver (version d)) (parseSemver (version c)) <= 0).
Proof.
  destruct (poolOf_pick releases localMajor) as [m Hm]. rewrite Hm in H.
  destruct (poolOf releases localMajor) as [|x l] eqn:Hp; [discriminate|].
  destruct (sortBy_first_newest (x :: l)) as [c [t [l1 [l2 [Hs [Hl [H1 H2]]]]]]];
    [discriminate|].
  unfold newest in H. rewrite Hs in H. injection H as <-.
  exists c, l1, l2. auto.
Qed.

Lemma pickElectronVersion_first_newest_witness :
  exists c l1 l2,
    poolOf [feedEntry "29.0.0" "20.9.0"; feedEntry "30.0.0" "20.11.1";
            feedEntry "v30.0.0" "20.15.0"] (Some 20) = l1 ++ c :: l2 /\
    node c = "20.11.1" /\
    (forall d, In d l1 ->
       compareSemver (parseSemver (version d)) (parseSemver (version c)) < 0).
Proof.
  destruct (pickElectronVersion_first_newest
              [feedEntry "29.0.0" "20.9.0"; feedEntry "30.0.0" "20.11.1";
               feedEntry "v30.0.0" "20.15.0"] (Some 20)
              (tagged {| version := "30.0.0"; node := "20.11.1"; nodeMajor := Some 20 |}
                 MatchExact) eq_refl)
    as [c [l1 [l2 [Hp [_ [Hn [H1 _]]]]]]].
  exists c, l1, l2. auto.
Defined.

End MatcherExtras.

(** ** More on the file system calls *)

Section FsExtras.

Local Open Scope list_scope.

Lemma lookup_chain (p : path) : lookup p (chain p) = Some (Dir []).
Proof.
  induction p as [|c p IH]; simpl; [reflexivity|]. now rewrite String.eqb_refl.
Qed.

Lemma lookup_chain_off (d q : path) :
  (forall r, d <> q ++ r) -> lookup q (chain d) = None.
Proof.
  revert q. induction d as [|a d IH]; intros [|b q] H; simpl.
  - now elim (H []).
  - reflexivity.
  - now elim (H (a :: d)).
  - destruct (String.eqb_spec a b) as [<-|]; [|reflexivity].
    apply IH. intros r ->. now apply (H r).
Qed.

(** [mkdir -p] leaves a directory at the path. *)
Lemma mkdirp_makes_dir (p : path) :
  forall n n', mkdirp p n = Some n' -> exists ds, lookup p n' = Some (Dir ds).
Proof.
  induction p as [|c p IH]; intros n n'; destruct n as [| es |]; simpl; try discriminate.
  - intros [= <-]. eauto.
  - destruct (assoc c es) as [m|] eqn:Hc.
    + destruct (mkdirp p m) as [m'|] eqn:Hm; [|discriminate].
      intros [= <-]. simpl. rewrite assoc_setEntry_same. eapply IH. eassumption.
    + intros [= <-]. simpl. rewrite assoc_setEntry_same. rewrite lookup_chain. eauto.
Qed.

(** [mkdir -p] changes nothing but the directories on its path. *)
Lemma mkdirp_lookup_off (d : path) :
  forall q n n', mkdirp d n = Some n' -> (forall r, d <> q ++ r) ->
                 lookup q n' = lookup q n.
Proof.
  induction d as [|a d IH]; intros q n n'; destruct n as [| es |]; simpl;
    try discriminate.
  - now intros [= <-].
  - destruct q as [|b q]; [intros _ H; now elim (H (a :: d))|].
    destruct (String.eqb_spec a b) as [<-|Hab].
    + destruct (assoc a es) as [m|] eqn:Ha.
      * destruct (mkdirp d m) as [m'|] eqn:Hm; [|discriminate].
        intros [= <-] H. simpl. rewrite assoc_setEntry_same, Ha.
        apply (IH q m m' Hm). intros r ->. now apply (H r).
      * intros [= <-] H. simpl. rewrite assoc_setEntry_same, Ha.
        apply lookup_chain_off. intros r ->. now apply (H r).
    + destruct (assoc a es) as [m|] eqn:Ha.
      * destruct (mkdirp d m) as [m'|]; [|discriminate].
        intros [= <-] _. simpl. now rewrite assoc_setEntry_other.
      * intros [= <-] _. simpl. now rewrite assoc_setEntry_other.
Qed.


Lemma store_lookup (p : path) (f : option fsnode -> option fsnode) :
  forall n n', store p f n = Some n' ->
               exists v, f (lookup p n) = Some v /\ lookup p n' = Some v.
Proof.
  induction p as [|c p IH]; intros n n'; [discriminate|].
  destruct n as [| es |]; try (destruct p; discriminate).
  destruct p as [|c' p'].
  - simpl. destruct (f (assoc c es)) as [v|] eqn:Hf; [|discriminate].
    intros [= <-]. exists v. rewrite assoc_setEntry_same.
    split; [|reflexivity]. now destruct (assoc c es).
  - change (store (c :: c' :: p') f (Dir es))
      with (match assoc c es with
            | Some m => match store (c' :: p') f m with
                        | Some m' => Some (Dir (setEntry c m' es))
                        | None => None
                        end
            | None => None
            end).
    destruct (assoc c es) as [m|] eqn:Hc; [|discriminate].
    destruct (store (c' :: p') f m) as [m'|] eqn:Hm; [|discriminate].
    intros [= <-]. destruct (IH m m' Hm) as [v [Hv Hl]]. exists v.
    cbn [lookup]. rewrite Hc, assoc_setEntry_same. auto.
Qed.

Lemma store_lookup_disjoint (p : path) (f : option fsnode -> option fsnode) :
  forall q n n', store p f n = Some n' -> disjoint p q = true ->
                 lookup q n' = lookup q n.
Proof.
  induction p as [|c p IH]; intros q n n'; [discriminate|].
  destruct n as [| es |]; try (destruct p; discriminate).
  destruct q as [|b q]; [discriminate|]. cbn [disjoint].
  destruct p as [|c' p'].
  - simpl. destruct (f (assoc c es)) as [v|]; [|discriminate].
    intros [= <-]. destruct (String.eqb_spec c b) as [<-|Hcb]; [discriminate|].
    intros _. now rewrite assoc_setEntry_other.
  - change (store (c :: c' :: p') f (Dir es))
      with (match assoc c es with
            | Some m => match store (c' :: p') f m with
                        | Some m' => Some (Dir (setEntry c m' es))
                        | None => None
                        end
            | None => None
            end).
    destruct (assoc c es) as [m|] eqn:Hc; [|discriminate].
    destruct (store (c' :: p') f m) as [m'|] eqn:Hm; [|discriminate].
    intros [= <-]. cbn [lookup]. destruct (String.eqb_spec c b) as [<-|Hcb].
    + intros Hd. rewrite assoc_setEntry_same, Hc. now apply (IH q m m').
    + intros _. now rewrite assoc_setEntry_other.
Qed.

Lemma disjoint_app_same (q r : path) : disjoint (q ++ r) q = false.
Proof.
  induction q as [|a q IH]; simpl; [now destruct r|]. now rewrite String.eqb_refl.
Qed.

Lemma disjoint_not_prefix (p q : path) :
  disjoint p q = true -> forall r, p <> q ++ r.
Proof. intros H r ->. now rewrite disjoint_app_same in H. Qed.

Lemma disjoint_dirname (p q : path) :
  disjoint p q = true -> forall r, dirname p <> q ++ r.
Proof.
  intros H r Hr. unfold dirname in Hr.
  destruct (@exists_last _ p) as [p' [a ->]].
  { intros ->. destruct q; discriminate. }
  rewrite removelast_last in Hr. subst p'. rewrite <- app_assoc in H.
  now rewrite disjoint_app_same in H.
Qed.

Lemma bind_inv {S A B : Type} (m : M S A) (k : A -> M S B) (s s' : S) (b : B) :
  bind m k s = (Ret b, s') ->
  exists a s1, m s = (Ret a, s1) /\ k a s1 = (Ret b, s').
Proof.
  unfold bind. destruct (m s) as [[a|c|] s1]; try discriminate. eauto.
Qed.

Lemma attempt_inv (f : fsnode -> option fsnode) (fs fs' : fsnode) :
  attempt f fs = (Ret tt, fs') -> f fs = Some fs'.
Proof. unfold attempt. destruct (f fs); [now intros [= ->]|discriminate]. Qed.

(** What a successful [writeFile] leaves. *)
Lemma writeFile_inv (target : path) (content : string) (fs fs' : fsnode) :
  writeFile target content fs = (Ret tt, fs') ->
  lookup target fs' =
    Some (File content match lookup target fs with
                       | Some (File _ x0) => x0
                       | _ => false
                       end) /\
  (exists ds, lookup (dirname target) fs' = Some (Dir ds)) /\
  forall q, disjoint target q = true -> lookup q fs' = lookup q fs.
Proof.
  unfold writeFile. intros H. apply bind_inv in H as [[] [fs1 [H1 H2]]].
  apply attempt_inv in H1. apply attempt_inv in H2.
  assert (Hne : target <> []) by (intros ->; discriminate).
  destruct (@exists_last _ target Hne) as [d [k Htarget]].
  assert (Hdir : dirname target = d) by (subst; apply removelast_last).
  assert (Hsame : lookup target fs1 = lookup target fs).
  { apply (mkdirp_lookup_off _ _ _ _ H1). rewrite Hdir, Htarget.
    intros r Hr. rewrite <- app_assoc in Hr.
    apply (f_equal (@List.length string)) in Hr. rewrite !length_app in Hr.
    simpl in Hr. lia. }
  destruct (store_lookup _ _ _ _ H2) as [v [Hv Hl]]. rewrite Hsame in Hv.
  split; [|split].
  - rewrite Hl. destruct (lookup target fs) as [[c0 x0| |]|]; now inversion Hv.
  - destruct (mkdirp_makes_dir _ _ _ H1) as [ds Hds]. rewrite Hdir in *.
    rewrite Htarget in H2. rewrite (store_child d k _ _ ds Hds) in H2.
    match type of H2 with
    | match ?e with Some _ => _ | None => _ end = _ =>
        destruct e as [v'|]; [|discriminate]
    end.
    injection H2 as <-.
    eexists. eapply lookup_graft_same. eassumption.
  - intros q Hq. rewrite (store_lookup_disjoint _ _ _ _ _ H2 Hq).
    apply (mkdirp_lookup_off _ _ _ _ H1). now apply disjoint_dirname.
Qed.

Lemma ensureDir_inv (dir : path) (fs fs' : fsnode) :
  ensureDir dir fs = (Ret tt, fs') -> mkdirp dir fs = Some fs'.
Proof. apply attempt_inv. Qed.








(** ** What the calls leave alone *)

Lemma untouched_ret {A : Type} (q : path) (a : A) : untouched q (ret a).
Proof. now intros d. Qed.


Lemma untouched_bind {A B : Type} (q : path) (m : M fsnode A) (k : A -> M fsnode B) :
  untouched q m -> (forall a, untouched q (k a)) -> untouched q (bind m k).
Proof.
  intros Hm Hk d. unfold bind. specialize (Hm d).
  destruct (m d) as [[a|c|] d1]; simpl in *; try assumption.
  now rewrite Hk.
Qed.

Lemma untouched_forEach {A : Type} (q : path) (l : list A) (body : A -> M fsnode unit) :
  (forall a, untouched q (body a)) -> untouched q (forEach l body).
Proof.
  intros Hb. induction l as [|x l IH]; simpl; [apply untouched_ret|].
  apply untouched_bind; auto.
Qed.



Lemma untouched_attempt (q : path) (f : fsnode -> option fsnode) :
  (forall d d', f d = Some d' -> lookup q d' = lookup q d) ->
  untouched q (attempt f).
Proof.
  intros H d. unfold attempt. destruct (f d) as [d'|] eqn:Hf; simpl; auto.
Qed.

Lemma untouched_ensureDir (q dir : path) :
  (forall r, dir <> q ++ r) -> untouched q (ensureDir dir).
Proof.
  intros H. apply untouched_attempt. intros d d' Hd.
  now apply (mkdirp_lookup_off _ _ _ _ Hd).
Qed.


Lemma untouched_writeFile (q target : path) (content : string) :
  disjoint target q = true -> untouched q (writeFile target content).
Proof.
  intros H. apply untouched_bind.
  - apply untouched_ensureDir. now apply disjoint_dirname.
  - intros _. apply untouched_attempt. intros d1 d2 Hs.
    now apply (store_lookup_disjoint _ _ _ _ _ Hs).
Qed.





End FsExtras.

(** ** The questions of the populating path *)

Section BackendFacts.

Local Open Scope list_scope.

Variable E : Env.

Lemma backendIndexOf_range (s : string) : 0 <= backendIndexOf E s <= 2.
Proof.
  unfold backendIndexOf. cbn [backends List.length].
  destruct (parseInt s) as [|z]; [|destruct (z =? 0)]; lia.
Qed.

Lemma nth_backends (i : nat) :
  In (nth i (backends E) (defaultBackend E)) (backends E).
Proof.
  destruct i as [|[|[|i]]]; cbn; auto.
  destruct i; cbn; auto.
Qed.

(** X15. For every line typed at the backend question (line 975): the
    index computed from it lies between 0 and 2, so [backends] always has
    an entry there; a line that holds no number, or the number 0, gives
    the first backend; a number from 1 to 3 gives the backend of that
    rank; a smaller number gives the first and a greater one the last. *)
Theorem backendIndexOf_clamped (s : string) :
  0 <= backendIndexOf E s <= 2 /\
  In (nth (Z.to_nat (backendIndexOf E s)) (backends E) (defaultBackend E))
     (backends E) /\
  (parseInt s = NaN -> backendIndexOf E s = 0) /\
  (forall z, parseInt s = Num z ->
             (z < 1 -> backendIndexOf E s = 0) /\
             (1 <= z <= 3 -> backendIndexOf E s = z - 1) /\
             (3 < z -> backendIndexOf E s = 2)).
Proof.
  split; [apply backendIndexOf_range|]. split; [apply nth_backends|].
  unfold backendIndexOf. cbn [backends List.length]. split.
  - now intros ->.
  - intros z ->. destruct (Z.eqb_spec z 0); repeat split; lia.
Qed.

End BackendFacts.

Section SelectFacts.

Local Open Scope list_scope.

Variable E : Env.

Lemma picked_nonempty (releases : list Release) (localMajor : option Z) (s : Selected) :
  pickElectronVersion releases localMajor = Some s -> sel_version s <> "".
Proof.
  intros H. apply pickElectronVersion_candidate in H as [c [m [Hin ->]]].
  apply candidatesOf_spec in Hin. simpl. tauto.
Qed.

Lemma truthy_nonempty (s : string) : truthy s = true <-> s <> "".
Proof. destruct s; simpl; split; congruence. Qed.

(** The three ways [selectVersion] goes. *)
Lemma selectVersion_run (nodeVersion : string) (w : World) :
  match pickedFor E nodeVersion with
  | Some s =>
      fst (selectVersion E nodeVersion w) = Ret s /\
      asked (snd (selectVersion E nodeVersion w)) = asked w
  | None =>
      asked (snd (selectVersion E nodeVersion w)) = S (asked w) /\
      fst (selectVersion E nodeVersion w) =
        if truthy (typed E (asked w) "")
        then Ret (manualEntry (typed E (asked w) ""))
        else Exit 1
  end /\
  fs (snd (selectVersion E nodeVersion w)) = fs w.
Proof.
  unfold pickedFor, selectVersion, typed.
  assert (Hmanual : forall w0 : World,
    let r := (selected <-
               (print MsgNoAutoSelect ;;
                manual <- promptLine E QManualVersion "" ;;
                if negb (truthy manual) then print MsgNoVersion ;; exit 1
                else ret {| sel_version := manual; sel_node := "unknown";
                            sel_nodeMajor := None; sel_match := None |}) ;;
              (match sel_match selected with
               | Some MatchLower => print (MsgUsingLower (sel_node selected))
               | Some MatchAny => print MsgUsingAny
               | _ => ret tt
               end) ;;
              print (MsgCandidate (sel_version selected) (sel_node selected)) ;;
              ret selected) w0 in
    (asked (snd r) = S (asked w0) /\
     fst r = if truthy (if String.eqb (trim (answers E (asked w0))) "" then ""
                        else trim (answers E (asked w0)))
             then Ret (manualEntry (if String.eqb (trim (answers E (asked w0))) "" then ""
                                    else trim (answers E (asked w0))))
             else Exit 1) /\
    fs (snd r) = fs w0).
  { intros w0. unfold bind, print, emit, promptLine, ret, exit. cbn [fs asked trace].
    destruct (String.eqb (trim (answers E (asked w0))) ""); cbn; [auto|].
    destruct (trim (answers E (asked w0))); cbn; auto. }
  erewrite !bind_ret by reflexivity.
  destruct (fetch E) as [| |l].
  - erewrite bind_ret by reflexivity. cbv beta iota zeta. cbn [fs asked trace]. apply (Hmanual (mkWorld (fs w) (asked w) _)).
  - erewrite bind_ret by reflexivity. cbv beta iota zeta. cbn [fs asked trace]. apply (Hmanual (mkWorld (fs w) (asked w) _)).
  - erewrite bind_ret by reflexivity. cbv beta iota zeta. cbn [fs asked trace].
    destruct (pickElectronVersion l (parseMajor nodeVersion)) as [s|].
    + unfold bind, print, emit, ret. cbn [fs asked trace].
      destruct (sel_match s) as [[| |]|]; cbn; auto.
    + cbv zeta. cbn [fs asked trace]. apply (Hmanual (mkWorld (fs w) (asked w) _)).
Qed.

(** X16. For every run of [selectVersion] that returns a version (lines
    978-1016): the version is not empty; the disk is as it was; and the
    result is either the pick [pickElectronVersion] made from the fetched
    feed, with no question asked, or, when the feed could not be fetched,
    was no array or gave no pick, the line typed at the one question
    asked, with the bundled runtime unknown. *)
Theorem selectVersion_sound (nodeVersion : string) (w w' : World) (s : Selected)
  (H : selectVersion E nodeVersion w = (Ret s, w')) :
  sel_version s <> "" /\
  fs w' = fs w /\
  ((pickedFor E nodeVersion = Some s /\ asked w' = asked w) \/
   (pickedFor E nodeVersion = None /\ s = manualEntry (typed E (asked w) "") /\
    asked w' = S (asked w))).
Proof.
  destruct (selectVersion_run nodeVersion w) as [Hrun Hfs]. rewrite H in *.
  cbn [fst snd] in *. destruct (pickedFor E nodeVersion) as [s0|] eqn:Hp.
  - destruct Hrun as [[= ->] Ha]. split; [|auto].
    unfold pickedFor in Hp. destruct (fetch E); try discriminate.
    eapply picked_nonempty. eassumption.
  - destruct Hrun as [Ha Hr].
    destruct (truthy (typed E (asked w) "")) eqn:Ht; [|discriminate].
    injection Hr as ->. split; [now apply truthy_nonempty|auto].
Qed.

End SelectFacts.

Lemma selectVersion_sound_witness :
  exists s w',
    selectVersion (exampleEnv false (Some "10.2.4") [] installOk) "20.11.0"
      (start (Dir [])) = (Ret s, w') /\
    sel_version s <> "".
Proof.
  destruct (selectVersion (exampleEnv false (Some "10.2.4") [] installOk) "20.11.0"
              (start (Dir []))) as [[s|c|] w'] eqn:H;
    try (vm_compute in H; discriminate).
  exists s, w'. split; [reflexivity|].
  now apply (selectVersion_sound _ _ _ _ _ H).
Defined.

(** ** What the run leaves alone and how it ends *)

Section NoExitFacts.

Local Open Scope list_scope.










End NoExitFacts.



Section FsRunFacts.

Local Open Scope list_scope.

Variable E : Env.


Lemma In_backends (b : Backend) :
  In b (backends E) ->
  b = nth 0 (backends E) (defaultBackend E) \/
  b = nth 1 (backends E) (defaultBackend E) \/
  b = nth 2 (backends E) (defaultBackend E).
Proof. cbn. intuition. Qed.



End FsRunFacts.

Section ExitFacts.

Local Open Scope list_scope.












End ExitFacts.



Section ExitCodes.

Local Open Scope list_scope.

Variable E : Env.



End ExitCodes.

Section ApartFacts.

Local Open Scope list_scope.

Variable q : path.
















End ApartFacts.



Section Frame.

Local Open Scope list_scope.

Variable E : Env.






End Frame.


(** ** The first phases of a run *)

Section TargetFacts.

Local Open Scope list_scope.

Variable E : Env.


End TargetFacts.


Section StartFacts.

Local Open Scope list_scope.

Variables (E : Env) (disk : fsnode).

(** X20. For every run that gets past its first checks and whose target
    names a regular file: the test for an empty directory raises (line
    102), the handler of [main] prints the error, and the run ends with
    code 1 with the disk as it was; the file is neither removed nor
    overwritten, and no question but the one about the target is
    asked. *)
Theorem target_is_a_file (content : string) (x : bool)
  (Hs : startsUp E = true)
  (Ht : lookup (targetOf E) disk = Some (File content x)) :
  result E disk = Exit 1 /\
  fs (final E disk) = disk /\
  trace (final E disk) = trace (chosen E disk) ++ [Print MsgError].
Proof.
  unfold result, final. destruct (program_started E disk Hs) as [nv ->].
  destruct (chosen_facts E disk) as [Hfs _].
  assert (Hc : clearTarget E (targetOf E) (chosen E disk) = (Throw, chosen E disk)).
  { apply clearTarget_notDir. left. exists content, x. now rewrite Hfs. }
  unfold tryCatch. erewrite bind_throw by exact Hc. simpl. auto.
Qed.

(** X21. The first checks of [main] (lines 844-854).  For every run
    without the help flag: when [node -v] fails, prints nothing or prints
    a bare v, the run reports that Node.js is missing; when Node.js gives
    a version and [npm -v] fails or prints nothing, it reports that npm
    is missing; in both cases it ends with code 1 having asked nothing
    and touched nothing.  Node.js is looked for first: with both missing
    the report is about Node.js. *)
Theorem missing_tools_stop_the_run (Hh : showHelp E = false) :
  let stopped (m : Message) :=
    program E (start disk)
    = (Exit 1, {| fs := disk; asked := 0; trace := [Print m] |}) in
  (nodeOut E = None \/ nodeOut E = Some "" \/ nodeOut E = Some "v" ->
   stopped MsgNodeMissing) /\
  (forall v, getNodeVersion E = Some v -> v <> "" ->
             npmOut E = None \/ npmOut E = Some "" -> stopped MsgNpmMissing).
Proof.
  cbv zeta. unfold program, main. rewrite Hh. split.
  - unfold getNodeVersion. intros [-> | [-> | ->]]; reflexivity.
  - intros v -> Hv Hp. destruct v as [|c v]; [congruence|].
    destruct Hp as [-> | ->]; reflexivity.
Qed.

Lemma force_quiet_main :
  forceRebuild E = true -> quiet skippedByForce (main E).
Proof.
  intros Hf.
  unfold main, chooseTarget, clearTarget, reuseCache, generate, selectVersion,
    runNpmInstall.
  destruct (forceRebuild E); [|discriminate]. cbn [negb].
  quiet_all.
Qed.

(** X22. For every run with [--force]: the target is the cache directory
    of the working directory; the run asks neither for the target, nor
    whether to overwrite it, nor whether to reuse the cache, and it never
    takes the reuse path: nothing is copied and none of its messages is
    printed. *)
Theorem force_skips_questions (Hf : forceRebuild E = true) :
  filter skippedByForce (trace (final E disk)) = [] /\
  targetOf E = resolve (cwd E) TEMPLATE_DIR.
Proof.
  split; [|unfold targetOf; now rewrite Hf].
  unfold final, program. destruct (showHelp E); [reflexivity|].
  assert (Hq : quiet skippedByForce (tryCatch (main E) (print MsgError ;; exit 1))).
  { apply quiet_tryCatch; [now apply force_quiet_main|quiet_all]. }
  apply (Hq (start disk)).
Qed.

End StartFacts.

Lemma missing_tools_stop_the_run_witness :
  program (exampleEnv false None [] installOk) (start diskCached)
  = (Exit 1, {| fs := diskCached; asked := 0; trace := [Print MsgNpmMissing] |}).
Proof.
  destruct (missing_tools_stop_the_run (exampleEnv false None [] installOk) diskCached
              eq_refl) as [_ H].
  apply (H "20.11.0"); [reflexivity|discriminate|now left].
Defined.

Lemma target_is_a_file_witness :
  result (exampleEnv false (Some "10.2.4") ["app"] installOk)
    (Dir [("work", Dir [("app", File "x" false)])]) = Exit 1 /\
  fs (final (exampleEnv false (Some "10.2.4") ["app"] installOk)
        (Dir [("work", Dir [("app", File "x" false)])]))
  = Dir [("work", Dir [("app", File "x" false)])].
Proof.
  destruct (target_is_a_file (exampleEnv false (Some "10.2.4") ["app"] installOk)
              (Dir [("work", Dir [("app", File "x" false)])]) "x" false)
    as [Hr [Hd _]]; try reflexivity.
  split; assumption.
Defined.

Lemma force_skips_questions_witness :
  forceRebuild (exampleEnv true (Some "10.2.4") [""; ""; ""] installOk) = true /\
  filter skippedByForce
    (trace (final (exampleEnv true (Some "10.2.4") [""; ""; ""] installOk) diskCached))
  = [].
Proof.
  split; [reflexivity|].
  apply (force_skips_questions (exampleEnv true (Some "10.2.4") [""; ""; ""] installOk)
           diskCached).
  reflexivity.
Defined.

(** ** The reuse path *)

Section ReuseExtras.

Local Open Scope list_scope.

Variable E : Env.

Lemma yieldsTrue_bind {A : Type} (m : M World A) (k : A -> M World bool) :
  (forall a, yieldsTrue (k a)) -> yieldsTrue (bind m k).
Proof.
  intros Hk w b w'. unfold bind. destruct (m w) as [[a|c|] w1]; try discriminate.
  apply Hk.
Qed.

Lemma yieldsTrue_ret : yieldsTrue (ret true).
Proof. now intros w b w' [= <- _]. Qed.

Lemma yieldsTrue_exit (c : Z) : yieldsTrue (exit c).
Proof. intros w b w'. discriminate. Qed.

(** The reuse path once the question is answered with yes (lines
    896-917). *)
Lemma reuseCache_accepted (p : path) (w w' : World) :
  forceRebuild E = false -> affirmative (answers E (asked w)) = true ->
  reuseCache E p w <> (Ret false, w').
Proof.
  intros Hf Ha Hr. unfold reuseCache in Hr. rewrite Hf in Hr. cbn [negb] in Hr.
  erewrite bind_ret in Hr by apply confirm_run. rewrite Ha in Hr.
  revert Hr.
  match goal with
  | |- ?m ?w0 = _ -> False =>
      assert (Hy : yieldsTrue m); [|intros Hr; now apply Hy in Hr]
  end.
  apply yieldsTrue_bind. intros ex. apply yieldsTrue_bind. intros missing.
  destruct missing; [apply yieldsTrue_bind; intros; apply yieldsTrue_exit|].
  destruct (pathEqb _ _); repeat (apply yieldsTrue_bind; intros); apply yieldsTrue_ret.
Qed.

Lemma afterClearing_reuseQuestion (nodeVersion : string) (p : path) (w : World) :
  forceRebuild E = false ->
  filter isReuseQuestion (trace (snd (afterClearing E nodeVersion p w)))
  = filter isReuseQuestion (trace w) ++ [Asked QUseCached (answers E (asked w))].
Proof.
  intros Hf. unfold afterClearing.
  rewrite trace_bind_quiet.
  2:{ intros [|]; [apply quiet_ret|].
      unfold generate, selectVersion, runNpmInstall. quiet_all. }
  unfold reuseCache. rewrite Hf. cbn [negb].
  rewrite trace_bind_quiet by (intros; quiet_all).
  rewrite confirm_run. cbn [snd trace]. now rewrite filter_app.
Qed.

Lemma afterClearing_forced (nodeVersion : string) (p : path) :
  forceRebuild E = true -> quiet isReuseQuestion (afterClearing E nodeVersion p).
Proof.
  intros Hf. unfold afterClearing, reuseCache, generate, selectVersion, runNpmInstall.
  rewrite Hf. cbn [negb]. quiet_all.
Qed.

Lemma afterClearing_accepted (nodeVersion : string) (p : path) (w : World) :
  forceRebuild E = false -> affirmative (answers E (asked w)) = true ->
  filter isGenerating (trace (snd (afterClearing E nodeVersion p w)))
  = filter isGenerating (trace w).
Proof.
  intros Hf Ha. unfold afterClearing, bind.
  assert (Hq : quiet isGenerating (reuseCache E p)) by (unfold reuseCache; quiet_all).
  specialize (Hq w).
  destruct (reuseCache E p w) as [[[|]|c|] w1] eqn:Hr; cbn [snd] in *;
    try assumption.
  now elim (reuseCache_accepted p w w1 Hf Ha).
Qed.

Lemma afterClearing_declined (nodeVersion : string) (p : path) (w : World) :
  forceRebuild E = false -> affirmative (answers E (asked w)) = false ->
  filter isMirrorQuestion (trace (snd (afterClearing E nodeVersion p w)))
  = filter isMirrorQuestion (trace w) ++ [Asked QMirror (answers E (S (asked w)))].
Proof.
  intros Hf Ha. unfold afterClearing.
  assert (Hr : reuseCache E p w =
               (Ret false, {| fs := fs w; asked := S (asked w);
                              trace := trace w ++ [Asked QUseCached (answers E (asked w))] |})).
  { unfold reuseCache. rewrite Hf. cbn [negb].
    erewrite bind_ret by apply confirm_run. now rewrite Ha. }
  erewrite bind_ret by exact Hr. unfold generate.
  rewrite trace_bind_quiet.
  2:{ intros useMirror. unfold selectVersion, runNpmInstall. quiet_all. }
  rewrite confirm_run. cbn [snd trace asked]. rewrite !filter_app. cbn.
  now rewrite app_nil_r.
Qed.

End ReuseExtras.

Section ReuseRun.

Local Open Scope list_scope.

Variables (E : Env) (disk : fsnode).

(** X23. The answer to the question about the cache decides the path of
    the run (lines 888-920).  For every run in which that question is
    asked: the run is without [--force]; the question is asked once; on
    an explicit yes the run asks none of the questions of the populating
    path and starts no install; on any other answer it goes on to the
    question about the mirror. *)
Theorem reuse_answer_decides (a : string)
  (Hin : In (Asked QUseCached a) (trace (final E disk))) :
  forceRebuild E = false /\
  filter isReuseQuestion (trace (final E disk)) = [Asked QUseCached a] /\
  (affirmative a = true -> filter isGenerating (trace (final E disk)) = []) /\
  (affirmative a = false -> exists b, In (Asked QMirror b) (trace (final E disk))).
Proof.
  revert Hin. unfold final. destruct (startsUp E) eqn:Hs.
  2:{ destruct (program_unstarted E disk Hs) as [c [m [-> _]]].
      intros [Hin|[]]. discriminate. }
  destruct (program_started E disk Hs) as [nv ->].
  set (run := tryCatch _ _ _).
  assert (Hsel : forall sel, (forall m, sel (Print m) = false) ->
            filter sel (trace (snd run)) =
            filter sel (trace (snd ((clearTarget E (targetOf E) ;;
                                     afterClearing E nv (targetOf E)) (chosen E disk))))).
  { intros sel Hp. unfold run. apply trace_tryCatch_quiet. now apply handler_quiet. }
  destruct (chosen_facts E disk) as [_ [Htr _]].
  assert (Hclear : forall sel,
            (forall m, sel (Print m) = false) -> (forall q x, sel (Asked q x) = true ->
               q <> QTarget /\ forall p, q <> QOverwrite p) ->
            (forall p, sel (RmSync p) = false) ->
            filter sel (trace (snd (clearTarget E (targetOf E) (chosen E disk)))) = []).
  { intros sel Hp Hq Hr.
    assert (Hqc : quiet sel (clearTarget E (targetOf E))).
    { unfold clearTarget. quiet_all; try (apply quiet_emit; auto).
      apply quiet_confirm. intros x. destruct (sel _) eqn:Hx; [|reflexivity].
      destruct (Hq _ _ Hx) as [_ Hno]. now elim (Hno (targetOf E)). }
    rewrite Hqc. apply Htr. intros x. destruct (sel _) eqn:Hx; [|reflexivity].
    destruct (Hq _ _ Hx) as [Hno _]. now elim Hno. }
  assert (HcR := Hclear isReuseQuestion (fun _ => eq_refl)).
  assert (HcG := Hclear isGenerating (fun _ => eq_refl)).
  assert (HcM := Hclear isMirrorQuestion (fun _ => eq_refl)).
  clear Hclear.
  specialize (HcR ltac:(intros [] x; try discriminate; intros _; split; congruence)
                  (fun _ => eq_refl)).
  specialize (HcG ltac:(intros [] x; try discriminate; intros _; split; congruence)
                  (fun _ => eq_refl)).
  specialize (HcM ltac:(intros [] x; try discriminate; intros _; split; congruence)
                  (fun _ => eq_refl)).
  pose proof (Hsel isReuseQuestion (fun _ => eq_refl)) as HR.
  pose proof (Hsel isGenerating (fun _ => eq_refl)) as HG.
  pose proof (Hsel isMirrorQuestion (fun _ => eq_refl)) as HM.
  clearbody run. clear Hsel.
  unfold bind in HR, HG, HM.
  destruct (clearTarget E (targetOf E) (chosen E disk)) as [[[]|c|] w1] eqn:Hc;
    cbn [snd] in *.
  2,3: intros Hin; assert (Hin' : In (Asked QUseCached a)
                                    (filter isReuseQuestion (trace (snd run))))
         by (apply filter_In; auto);
       rewrite HR, HcR in Hin'; destruct Hin'.
  intros Hin.
  assert (Hin' : In (Asked QUseCached a) (filter isReuseQuestion (trace (snd run))))
    by (apply filter_In; auto).
  destruct (forceRebuild E) eqn:Hf.
  { rewrite HR, (afterClearing_forced E nv (targetOf E) Hf w1), HcR in Hin'.
    destruct Hin'. }
  rewrite (afterClearing_reuseQuestion E nv (targetOf E) w1 Hf), HcR in HR.
  rewrite HR in Hin'. destruct Hin' as [[= <-]|[]].
  split; [reflexivity|]. split; [exact HR|]. split.
  - intros Ha. rewrite HG, (afterClearing_accepted E nv _ w1 Hf Ha). exact HcG.
  - intros Ha. exists (answers E (S (asked w1))).
    rewrite (afterClearing_declined E nv _ w1 Hf Ha), HcM in HM.
    assert (Hm : In (Asked QMirror (answers E (S (asked w1))))
                   (filter isMirrorQuestion (trace (snd run))))
      by (rewrite HM; now left).
    now apply filter_In in Hm.
Qed.

End ReuseRun.

Lemma reuse_answer_decides_witness :
  In (Asked QUseCached "y")
    (trace (final (exampleEnv false (Some "10.2.4") ["app"; "y"] installOk) diskCached)) /\
  filter isGenerating
    (trace (final (exampleEnv false (Some "10.2.4") ["app"; "y"] installOk) diskCached))
  = [].
Proof.
  assert (Hin : In (Asked QUseCached "y")
                  (trace (final (exampleEnv false (Some "10.2.4") ["app"; "y"] installOk)
                            diskCached)))
    by (vm_compute; right; left; reflexivity).
  split; [exact Hin|].
  destruct (reuse_answer_decides _ _ _ Hin) as [_ [_ [Hyes _]]].
  apply Hyes. reflexivity.
Defined.

Section ReuseCopy.

Local Open Scope list_scope.

Variable E : Env.

Lemma tryCatch_ret {S A : Type} (m h : M S A) (s s' : S) (a : A) :
  m s = (Ret a, s') -> tryCatch m h s = (Ret a, s').
Proof. unfold tryCatch. now intros ->. Qed.

Lemma disjoint_irrefl (p : path) : disjoint p p = false.
Proof. induction p as [|a p IH]; simpl; [reflexivity|]. now rewrite String.eqb_refl. Qed.

Lemma pathEqb_disjoint (p q : path) : disjoint p q = true -> pathEqb p q = false.
Proof.
  intros H. unfold pathEqb. destruct (list_eq_dec string_dec p q) as [->|]; [|reflexivity].
  now rewrite disjoint_irrefl in H.
Qed.

(** The reuse path on a cache that holds something, into a target apart
    from it that is absent or empty. *)
Lemma reuseCache_copies (t : path) (w : World) (fs1 : fsnode)
  (es : list (string * fsnode)) :
  let c := resolve (cwd E) TEMPLATE_DIR in
  forceRebuild E = false ->
  affirmative (answers E (asked w)) = true ->
  lookup c (fs w) = Some (Dir es) -> es <> [] ->
  wellFormed (Dir es) = true ->
  disjoint c t = true ->
  mkdirp t (fs w) = Some fs1 ->
  lookup t fs1 = Some (Dir []) ->
  (height (Dir es) <= maxDepth E)%nat ->
  exists d,
    reuseCache E t w =
    (Ret true,
     {| fs := d; asked := S (asked w);
        trace := trace w ++ [Asked QUseCached (answers E (asked w));
                             CopyDir c t; Print (MsgCopied c t)] |}) /\
    lookup t d = Some (Dir (mirrorEntries (filter notIgnored es))) /\
    lookup c d = Some (Dir es).
Proof.
  intros c Hf Ha Hsrc Hne Hwf Hdis Hmk Hempty Hfuel.
  destruct (copyDir_result (fs w) fs1 c t es (maxDepth E)
              Hsrc Hwf Hdis Hmk Hempty Hfuel true) as [d [Hrun [Hdest Hkeep]]].
  exists d. split; [|auto].
  unfold reuseCache. rewrite Hf. cbn [negb].
  erewrite bind_ret by apply confirm_run. rewrite Ha.
  fold c.
  erewrite bind_ret by (apply onFs_run; reflexivity). cbn [fs asked trace].
  rewrite Hsrc. cbn [isSome negb].
  erewrite bind_ret.
  2:{ apply onFs_run. cbn [fs]. rewrite isEmptyDir_run, Hsrc. reflexivity. }
  destruct es as [|e es']; [congruence|]. cbn [List.length Nat.eqb].
  rewrite (pathEqb_disjoint _ _ Hdis).
  erewrite bind_ret.
  2:{ apply tryCatch_ret. erewrite bind_ret by reflexivity.
      apply onFs_run. cbn [fs]. exact Hrun. }
  cbn [asked trace].
  erewrite bind_ret by reflexivity. unfold ret. cbn [fs asked trace].
  now rewrite <- !app_assoc.
Qed.

End ReuseCopy.

Section ReuseCopyRun.

Local Open Scope list_scope.

Variables (E : Env) (disk : fsnode).

(** X24. The reuse path end to end (lines 861-917).  For every run past
    its first checks, without [--force], whose target is absent or empty
    and can be created, whose cache holds something, is a well-formed
    tree no deeper than the recursion allows and lies apart from the
    target, and in which the question about the cache is answered with
    an explicit yes: the run returns; the target then holds the copy of
    the cache without its top-level dist, logs and .git; the cache is as
    it was; and the run asked the two questions, copied once and printed
    that it did, nothing else. *)
Theorem reuse_copies_cache (fs1 : fsnode) (es : list (string * fsnode))
  (Hs : startsUp E = true)
  (Hf : forceRebuild E = false)
  (Hfree : lookup (targetOf E) disk = None \/ lookup (targetOf E) disk = Some (Dir []))
  (Ha : affirmative (answers E 1) = true)
  (Hsrc : lookup (resolve (cwd E) TEMPLATE_DIR) disk = Some (Dir es))
  (Hne : es <> [])
  (Hwf : wellFormed (Dir es) = true)
  (Hdis : disjoint (resolve (cwd E) TEMPLATE_DIR) (targetOf E) = true)
  (Hmk : mkdirp (targetOf E) disk = Some fs1)
  (Hempty : lookup (targetOf E) fs1 = Some (Dir []))
  (Hfuel : (height (Dir es) <= maxDepth E)%nat) :
  result E disk = Ret tt /\
  lookup (targetOf E) (fs (final E disk))
  = Some (Dir (mirrorEntries (filter notIgnored es))) /\
  lookup (resolve (cwd E) TEMPLATE_DIR) (fs (final E disk)) = Some (Dir es) /\
  trace (final E disk)
  = [Asked QTarget (answers E 0); Asked QUseCached (answers E 1);
     CopyDir (resolve (cwd E) TEMPLATE_DIR) (targetOf E);
     Print (MsgCopied (resolve (cwd E) TEMPLATE_DIR) (targetOf E))].
Proof.
  unfold result, final. destruct (program_started E disk Hs) as [nv ->].
  assert (Hw : chosen E disk = {| fs := disk; asked := 1;
                                  trace := [Asked QTarget (answers E 0)] |}).
  { unfold chosen. now rewrite Hf. }
  rewrite Hw. set (w0 := {| fs := disk; asked := 1; trace := _ |}).
  destruct (reuseCache_copies E (targetOf E) w0 fs1 es Hf Ha Hsrc Hne Hwf Hdis Hmk
              Hempty Hfuel) as [d [Hrun [Hdest Hkeep]]].
  assert (Hmain : (clearTarget E (targetOf E) ;; afterClearing E nv (targetOf E)) w0
                  = (Ret tt, {| fs := d; asked := 2;
                        trace := [Asked QTarget (answers E 0);
                                  Asked QUseCached (answers E 1);
                                  CopyDir (resolve (cwd E) TEMPLATE_DIR) (targetOf E);
                                  Print (MsgCopied (resolve (cwd E) TEMPLATE_DIR)
                                           (targetOf E))] |})).
  { erewrite bind_ret by (now apply clearTarget_free).
    unfold afterClearing. erewrite bind_ret by exact Hrun. reflexivity. }
  rewrite (tryCatch_ret _ _ _ _ _ Hmain). cbn. auto.
Qed.

End ReuseCopyRun.

Lemma reuse_copies_cache_witness :
  result (exampleEnv false (Some "10.2.4") ["app"; "y"] installOk) diskCached = Ret tt /\
  lookup ["work"; "app"]
    (fs (final (exampleEnv false (Some "10.2.4") ["app"; "y"] installOk) diskCached))
  = Some (Dir [("package.json", File "{}" false); ("src", Dir [])]).
Proof.
  destruct (reuse_copies_cache
              (exampleEnv false (Some "10.2.4") ["app"; "y"] installOk) diskCached
              (Dir [("work", Dir [("init_src", Dir [("package.json", File "{}" false);
                                                    ("src", Dir [])]);
                                  ("app", Dir [])])])
              [("package.json", File "{}" false); ("src", Dir [])])
    as [Hr [Ht _]]; try reflexivity.
  - now left.
  - discriminate.
  - vm_compute. lia.
  - split; [exact Hr|exact Ht].
Defined.

(** ** Cancelling at the last question *)

Section StillFacts.

Local Open Scope list_scope.

Lemma still_ret {A : Type} (a : A) : still (ret a).
Proof. now intros w. Qed.

Lemma still_exit {A : Type} (c : Z) : still (@exit World A c).
Proof. now intros w. Qed.

Lemma still_bind {A B : Type} (m : M World A) (k : A -> M World B) :
  still m -> (forall a, still (k a)) -> still (bind m k).
Proof.
  intros Hm Hk w. unfold bind. specialize (Hm w).
  destruct (m w) as [[a|c|] w1]; simpl in *; try assumption.
  now rewrite Hk.
Qed.

Lemma still_emit (e : Event) : still (emit e).
Proof. now intros w. Qed.

Lemma still_forEach {A : Type} (l : list A) (body : A -> M World unit) :
  (forall x, still (body x)) -> still (forEach l body).
Proof.
  intros Hb. induction l as [|x l IH]; simpl; [apply still_ret|].
  apply still_bind; auto.
Qed.

Lemma still_promptLine (E : Env) (q : Question) (d : string) :
  still (promptLine E q d).
Proof. now intros w. Qed.

Lemma still_confirm (E : Env) (q : Question) (d : bool) : still (confirm E q d).
Proof.
  unfold confirm. apply still_bind; [apply still_promptLine|].
  intros a. destruct (negb (truthy a)); apply still_ret.
Qed.

Lemma still_selectVersion (E : Env) (nodeVersion : string) :
  still (selectVersion E nodeVersion).
Proof. intros w. apply selectVersion_run. Qed.

Lemma cancelSafe_bind {A B : Type} (m : M World A) (k : A -> M World B) :
  still m -> quiet isCancelled m -> quiet isSpawn m ->
  (forall a, cancelSafe (k a)) -> cancelSafe (bind m k).
Proof.
  intros Hs Hc Hp Hk w. unfold bind.
  specialize (Hs w). specialize (Hc w). specialize (Hp w).
  destruct (m w) as [[a|c|] w1]; cbn [fst snd] in *; auto.
  destruct (Hk a w1) as [H|[H1 [H2 H3]]]; [left|right]; repeat split; congruence.
Qed.

Lemma cancelSafe_quiet {A : Type} (m : M World A) :
  quiet isCancelled m -> cancelSafe m.
Proof. intros H w. now left. Qed.

Lemma cancelSafe_cancel : cancelSafe (print MsgCancelled ;; @exit World unit 1).
Proof. intros w. right. repeat split. cbn. rewrite filter_app. cbn. apply app_nil_r. Qed.

End StillFacts.

Section CancelFacts.

Local Open Scope list_scope.

Variable E : Env.

Lemma generate_cancelSafe (nodeVersion : string) (p : path) :
  cancelSafe (generate E nodeVersion p).
Proof.
  unfold generate.
  apply cancelSafe_bind;
    [apply still_confirm|quiet_all|quiet_all|intros useMirror].
  apply cancelSafe_bind;
    [apply still_emit|quiet_all|quiet_all|intros _].
  apply cancelSafe_bind;
    [apply still_forEach; intros; apply still_emit|quiet_all|quiet_all|intros _].
  apply cancelSafe_bind;
    [apply still_promptLine|quiet_all|quiet_all|intros backendInput].
  apply cancelSafe_bind;
    [apply still_selectVersion|unfold selectVersion; quiet_all
    |apply selectVersion_spawn|intros selected].
  apply cancelSafe_bind;
    [apply still_confirm|quiet_all|quiet_all|intros ok].
  destruct ok; cbn [negb]; [|apply cancelSafe_cancel].
  apply cancelSafe_quiet. unfold runNpmInstall. quiet_all.
Qed.

(** When the reuse path hands over to the populating path the disk is as
    it was. *)
Lemma reuseCache_false (p : path) (w w1 : World) :
  reuseCache E p w = (Ret false, w1) -> fs w1 = fs w.
Proof.
  intros H. destruct (forceRebuild E) eqn:Hf.
  - unfold reuseCache in H. rewrite Hf in H. now injection H as <-.
  - destruct (affirmative (answers E (asked w))) eqn:Ha.
    + now elim (reuseCache_accepted E p w w1 Hf Ha).
    + unfold reuseCache in H. rewrite Hf in H. cbn [negb] in H.
      erewrite bind_ret in H by apply confirm_run. rewrite Ha in H.
      now injection H as <-.
Qed.

Lemma afterClearing_cancelSafe (nodeVersion : string) (p : path) :
  cancelSafe (afterClearing E nodeVersion p).
Proof.
  intros w. unfold afterClearing, bind.
  assert (Hc : quiet isCancelled (reuseCache E p)) by (unfold reuseCache; quiet_all).
  specialize (Hc w). pose proof (reuseCache_spawn E p w) as Hp.
  destruct (reuseCache E p w) as [[[|]|c|] w1] eqn:Hr; cbn [fst snd] in *; auto.
  apply reuseCache_false in Hr.
  destruct (generate_cancelSafe nodeVersion p w1) as [H|[H1 [H2 H3]]];
    [left|right]; repeat split; congruence.
Qed.

Lemma clearTarget_fs (p : path) (w w' : World) :
  clearTarget E p w = (Ret tt, w') ->
  fs w' = fs w \/ fs w' = detach p (fs w).
Proof.
  intros H. destruct (occupied_cases p (fs w)) as [Ho|[_ [Hfree|Hnd]]].
  - right. destruct (forceRebuild E) eqn:Hf.
    + destruct (clearTarget_forced E p w Ho Hf) as [r [Hrun [[-> Hp]|[-> Hp]]]];
        rewrite Hrun in H; [|discriminate].
      injection H as <-. simpl. now destruct p.
    + destruct (affirmative (answers E (asked w))) eqn:Ha.
      * destruct (clearTarget_confirmed E p w Ho Hf Ha) as [r [Hrun [[-> Hp]|[-> Hp]]]];
          rewrite Hrun in H; [|discriminate].
        injection H as <-. simpl. now destruct p.
      * rewrite (clearTarget_declined E p w Ho Hf Ha) in H. discriminate.
  - rewrite (clearTarget_free E p w Hfree) in H. left. congruence.
  - rewrite (clearTarget_notDir E p w Hnd) in H. discriminate.
Qed.

End CancelFacts.

Section CancelRun.

Local Open Scope list_scope.

Variables (E : Env) (disk : fsnode).

(** X25. For every run that prints that the user cancelled (line 1020):
    the run ends with code 1 and has started no install; and it has
    written nothing: the disk is the one it started from, or that disk
    with the target directory removed when the target was cleared before
    the questions (lines 874-886). *)
Theorem cancel_writes_nothing
  (Hin : In (Print MsgCancelled) (trace (final E disk))) :
  result E disk = Exit 1 /\
  filter isSpawn (trace (final E disk)) = [] /\
  (fs (final E disk) = disk \/ fs (final E disk) = detach (targetOf E) disk).
Proof.
  revert Hin. unfold result, final. destruct (startsUp E) eqn:Hs.
  2:{ destruct (program_unstarted E disk Hs) as [c [m [-> Hm]]].
      intros [Hin|[]]. destruct Hm as [->|[->| ->]]; discriminate. }
  destruct (program_started E disk Hs) as [nv ->].
  destruct (chosen_facts E disk) as [Hfs [Htr _]].
  pose proof (Htr isCancelled (fun _ => eq_refl)) as HtrC.
  pose proof (Htr isSpawn (fun _ => eq_refl)) as HtrS.
  assert (HqC : quiet isCancelled (clearTarget E (targetOf E)))
    by (unfold clearTarget; quiet_all).
  specialize (HqC (chosen E disk)). rewrite HtrC in HqC.
  pose proof (clearTarget_spawn E (targetOf E) (chosen E disk)) as HqS.
  rewrite HtrS in HqS.
  intros Hin.
  assert (Hin' : In (Print MsgCancelled)
                   (filter isCancelled
                      (trace (snd (tryCatch
                         (clearTarget E (targetOf E) ;; afterClearing E nv (targetOf E))
                         (print MsgError ;; exit 1) (chosen E disk))))))
    by (apply filter_In; auto).
  rewrite trace_tryCatch_quiet in Hin' by quiet_all.
  clear Hin. revert Hin'. unfold tryCatch, bind.
  destruct (clearTarget E (targetOf E) (chosen E disk)) as [[[]|c|] w1] eqn:Hc;
    cbn [snd] in *; try (rewrite HqC; now intros []).
  apply clearTarget_fs in Hc. rewrite Hfs in Hc.
  destruct (afterClearing_cancelSafe E nv (targetOf E) w1) as [H|[H1 [H2 H3]]].
  - rewrite H, HqC. now intros [].
  - intros _.
    destruct (afterClearing E nv (targetOf E) w1) as [r w2]; cbn [fst snd] in *.
    subst r. cbn [fst snd]. split; [reflexivity|]. split; [congruence|].
    rewrite H2. assumption.
Qed.

End CancelRun.

Lemma cancel_writes_nothing_witness :
  In (Print MsgCancelled)
    (trace (final (exampleEnv false (Some "10.2.4") ["app"; ""; ""; ""; "n"] installOk)
              (Dir [("work", Dir [])]))) /\
  result (exampleEnv false (Some "10.2.4") ["app"; ""; ""; ""; "n"] installOk)
    (Dir [("work", Dir [])]) = Exit 1.
Proof.
  assert (Hin : In (Print MsgCancelled)
                  (trace (final (exampleEnv false (Some "10.2.4")
                                   ["app"; ""; ""; ""; "n"] installOk)
                            (Dir [("work", Dir [])]))))
    by (vm_compute; repeat (first [left; reflexivity | right])).
  split; [exact Hin|].
  now destruct (cancel_writes_nothing _ _ Hin) as [Hr _].
Defined.

(** ** The populating path *)

Section DirFacts.

Local Open Scope list_scope.

Lemma isDirAt_nil (es : list (string * fsnode)) : isDirAt [] (Dir es) = true.
Proof. reflexivity. Qed.

Lemma isDirAt_cons (b : string) (q : path) (es : list (string * fsnode)) :
  isDirAt (b :: q) (Dir es) =
  match assoc b es with Some m => isDirAt q m | None => false end.
Proof. unfold isDirAt. simpl. now destruct (assoc b es). Qed.

Lemma isDirAt_root (q : path) (n : fsnode) :
  isDirAt q n = true -> exists es, n = Dir es.
Proof.
  unfold isDirAt. destruct q as [|b q]; simpl.
  - destruct n; try discriminate. eauto.
  - destruct n; try discriminate. eauto.
Qed.

Lemma mkdirp_keeps (p : path) :
  forall q n n', mkdirp p n = Some n' -> isDirAt q n = true -> isDirAt q n' = true.
Proof.
  induction p as [|c p IH]; intros q n n'; destruct n as [| es |]; simpl;
    try discriminate.
  - now intros [= <-].
  - destruct q as [|b q].
    + destruct (assoc c es) as [m|]; [destruct (mkdirp p m); [|discriminate]|];
        now intros [= <-].
    + rewrite isDirAt_cons. destruct (String.eqb_spec c b) as [<-|Hcb].
      * destruct (assoc c es) as [m|] eqn:Hc; [|intros _; discriminate].
        destruct (mkdirp p m) as [m'|] eqn:Hm; [|discriminate].
        intros [= <-] Hd. rewrite isDirAt_cons, assoc_setEntry_same.
        now apply (IH q m m').
      * destruct (assoc c es) as [m|] eqn:Hc.
        -- destruct (mkdirp p m) as [m'|]; [|discriminate].
           intros [= <-]. now rewrite isDirAt_cons, assoc_setEntry_other.
        -- intros [= <-]. now rewrite isDirAt_cons, assoc_setEntry_other.
Qed.

Lemma store_deeper (c c' : string) (p : path) (f : option fsnode -> option fsnode)
  (es : list (string * fsnode)) :
  store (c :: c' :: p) f (Dir es) =
  match assoc c es with
  | Some m => match store (c' :: p) f m with
              | Some m' => Some (Dir (setEntry c m' es))
              | None => None
              end
  | None => None
  end.
Proof. reflexivity. Qed.

Lemma store_keeps (p : path) (f : option fsnode -> option fsnode) :
  (forall ds v, f (Some (Dir ds)) = Some v -> v = Dir ds) ->
  forall q n n', store p f n = Some n' -> isDirAt q n = true -> isDirAt q n' = true.
Proof.
  intros Hf. induction p as [|c p IH]; intros q n n'; [discriminate|].
  destruct n as [| es |]; try (destruct p; discriminate).
  destruct q as [|b q].
  { intros H _. destruct p as [|c' p'].
    - simpl in H. destruct (f (assoc c es)); [|discriminate]. now injection H as <-.
    - rewrite store_deeper in H. destruct (assoc c es) as [m|]; [|discriminate].
      destruct (store (c' :: p') f m); [|discriminate]. now injection H as <-. }
  rewrite isDirAt_cons.
  destruct p as [|c' p'].
  - simpl. destruct (f (assoc c es)) as [v|] eqn:Hv; [|discriminate].
    intros [= <-]. rewrite isDirAt_cons.
    destruct (String.eqb_spec c b) as [<-|Hcb].
    + rewrite assoc_setEntry_same. destruct (assoc c es) as [m|]; [|discriminate].
      intros Hd. destruct (isDirAt_root _ _ Hd) as [ds ->].
      now rewrite (Hf _ _ Hv).
    + now rewrite assoc_setEntry_other.
  - rewrite store_deeper.
    destruct (assoc c es) as [m|] eqn:Hc; [|discriminate].
    destruct (store (c' :: p') f m) as [m'|] eqn:Hm; [|discriminate].
    intros [= <-]. rewrite isDirAt_cons.
    destruct (String.eqb_spec c b) as [<-|Hcb].
    + rewrite assoc_setEntry_same, Hc. now apply (IH q m m').
    + now rewrite assoc_setEntry_other.
Qed.

Lemma keepsDirs_ret {A : Type} (a : A) : keepsDirs (ret a).
Proof. now intros q d. Qed.

Lemma keepsDirs_bind {A B : Type} (m : M fsnode A) (k : A -> M fsnode B) :
  keepsDirs m -> (forall a, keepsDirs (k a)) -> keepsDirs (bind m k).
Proof.
  intros Hm Hk q d Hd. unfold bind. specialize (Hm q d Hd).
  destruct (m d) as [[a|c|] d1]; simpl in *; try assumption.
  now apply Hk.
Qed.

Lemma keepsDirs_forEach {A : Type} (l : list A) (body : A -> M fsnode unit) :
  (forall a, keepsDirs (body a)) -> keepsDirs (forEach l body).
Proof.
  intros Hb. induction l as [|x l IH]; simpl; [apply keepsDirs_ret|].
  apply keepsDirs_bind; auto.
Qed.

Lemma keepsDirs_attempt (f : fsnode -> option fsnode) :
  (forall q d d', f d = Some d' -> isDirAt q d = true -> isDirAt q d' = true) ->
  keepsDirs (attempt f).
Proof.
  intros H q d Hd. unfold attempt. destruct (f d) as [d'|] eqn:Hf; simpl; eauto.
Qed.

Lemma keepsDirs_ensureDir (p : path) : keepsDirs (ensureDir p).
Proof. apply keepsDirs_attempt. intros q d d'. apply mkdirp_keeps. Qed.

Lemma keepsDirs_writeFileSync (p : path) (content : string) :
  keepsDirs (writeFileSync p content).
Proof.
  apply keepsDirs_attempt. intros q d d'. apply store_keeps. discriminate.
Qed.

Lemma keepsDirs_chmodSync (p : path) : keepsDirs (chmodSync p).
Proof.
  apply keepsDirs_attempt. intros q d d'. apply store_keeps. now intros ds v [= <-].
Qed.

Lemma keepsDirs_writeFile (p : path) (content : string) :
  keepsDirs (writeFile p content).
Proof.
  apply keepsDirs_bind; [apply keepsDirs_ensureDir|].
  intros _. apply keepsDirs_writeFileSync.
Qed.

Lemma keepsDirs_writeExecutableIfUnix (p : path) (content : string) (windows : bool) :
  keepsDirs (writeExecutableIfUnix p content windows).
Proof.
  apply keepsDirs_bind; [apply keepsDirs_writeFile|]. intros _.
  destruct (negb windows); [apply keepsDirs_chmodSync|apply keepsDirs_ret].
Qed.

Lemma ensures_ensureDir (q : path) : ensures q (ensureDir q).
Proof.
  intros d d' [] H. apply ensureDir_inv in H.
  destruct (mkdirp_makes_dir _ _ _ H) as [ds Hds]. unfold isDirAt. now rewrite Hds.
Qed.

Lemma ensures_bind_left {A B : Type} (q : path) (m : M fsnode A) (k : A -> M fsnode B) :
  ensures q m -> (forall a, keepsDirs (k a)) -> ensures q (bind m k).
Proof.
  intros Hm Hk d d' b H. apply bind_inv in H as [a [d1 [H1 H2]]].
  specialize (Hk a q d1 (Hm _ _ _ H1)). now rewrite H2 in Hk.
Qed.

Lemma ensures_bind_right {A B : Type} (q : path) (m : M fsnode A) (k : A -> M fsnode B) :
  (forall a, ensures q (k a)) -> ensures q (bind m k).
Proof.
  intros Hk d d' b H. apply bind_inv in H as [a [d1 [H1 H2]]]. eapply Hk, H2.
Qed.

Lemma ensures_forEach {A : Type} (q : path) (l : list A) (body : A -> M fsnode unit)
  (x : A) :
  In x l -> ensures q (body x) -> (forall y, keepsDirs (body y)) ->
  ensures q (forEach l body).
Proof.
  intros Hin Hx Hk. induction l as [|y l IH]; [destruct Hin|].
  cbn [forEach]. destruct Hin as [->|Hin].
  - apply ensures_bind_left; [assumption|]. intros _. now apply keepsDirs_forEach.
  - apply ensures_bind_right. intros _. now apply IH.
Qed.

End DirFacts.

Ltac keepsDirs_step :=
  match goal with
  | |- keepsDirs (bind _ _) => apply keepsDirs_bind; [|intros]
  | |- keepsDirs (ret _) => apply keepsDirs_ret
  | |- keepsDirs (ensureDir _) => apply keepsDirs_ensureDir
  | |- keepsDirs (writeFile _ _) => apply keepsDirs_writeFile
  | |- keepsDirs (writeExecutableIfUnix _ _ _) => apply keepsDirs_writeExecutableIfUnix
  | |- keepsDirs (forEach _ _) => apply keepsDirs_forEach; intros
  | |- keepsDirs (let '(_, _) := ?x in _) => destruct x
  | |- keepsDirs (if ?b then _ else _) => destruct b
  end.

Ltac keepsDirs_all := repeat keepsDirs_step.

Section PopulateDirs.

Local Open Scope list_scope.

Variable E : Env.

Lemma keepsDirs_createFiles (b : Backend) (t : path) (name : string) :
  In b (backends E) -> keepsDirs (createFiles b t name).
Proof.
  intros Hb. apply In_backends in Hb as [->|[->| ->]]; cbn [nth backends createFiles];
    keepsDirs_all.
Qed.

(** X26. For every run of the populating path (lines 1024-1104) that
    returns, with one of the three backends: each directory it asks for
    is there at the end: the target itself, the eight of [dirs], among
    them data, logs and dist that receive no file, and the three of the
    frontend sources.  No later write removes or replaces one of
    them. *)
Theorem populate_directories (t : path) (b : Backend) (s : Selected)
  (useMirror : bool) (d d' : fsnode) (rel : path)
  (Hb : In b (backends E))
  (H : populate E t b s useMirror d = (Ret tt, d'))
  (Hrel : In rel createdDirs) :
  isDirAt (t ++ rel) d' = true.
Proof.
  assert (He : ensures (t ++ rel) (populate E t b s useMirror)); [|eapply He, H].
  clear H. unfold populate. cbv zeta.
  assert (Hc : forall name, keepsDirs (createFiles b t name))
    by (intros; now apply keepsDirs_createFiles).
  unfold createdDirs in Hrel. cbn [dirs app] in Hrel.
  destruct Hrel as [<-|Hrel].
  { rewrite app_nil_r. apply ensures_bind_left; [apply ensures_ensureDir|].
    intros _. keepsDirs_all; apply Hc. }
  apply ensures_bind_right. intros _.
  repeat (destruct Hrel as [<-|Hrel];
          [apply ensures_bind_left;
           [eapply ensures_forEach;
            [|apply ensures_ensureDir|intros; apply keepsDirs_ensureDir];
            cbn; tauto
           |intros _; keepsDirs_all; apply Hc]|]);
    apply ensures_bind_right; intros _.
  do 10 (apply ensures_bind_right; intros _).
  repeat (destruct Hrel as [<-|Hrel];
          [repeat (first [apply ensures_bind_left;
                            [rewrite <- app_assoc; apply ensures_ensureDir
                            |intros _; keepsDirs_all; apply Hc]
                         |apply ensures_bind_right; intros _])|]).
  destruct Hrel.
Qed.

End PopulateDirs.

Section PopulateFiles.

Local Open Scope list_scope.

Variable E : Env.

Lemma untouched_forEach_In {A : Type} (q : path) (l : list A)
  (body : A -> M fsnode unit) :
  (forall a, In a l -> untouched q (body a)) -> untouched q (forEach l body).
Proof.
  induction l as [|x l IH]; intros Hb; simpl; [apply untouched_ret|].
  apply untouched_bind; [apply Hb; now left|]. intros _. apply IH.
  intros a Ha. apply Hb. now right.
Qed.

Lemma disjoint_under (t a b : path) : disjoint (t ++ a) (t ++ b) = disjoint a b.
Proof. induction t as [|c t IH]; simpl; [reflexivity|]. now rewrite String.eqb_refl. Qed.

Lemma not_prefix_longer (t a r : path) : a <> [] -> t <> (t ++ a) ++ r.
Proof.
  intros Ha H. apply (f_equal (@List.length string)) in H.
  rewrite !length_app in H. destruct a; [congruence|]. simpl in H. lia.
Qed.

(** What the populating path leaves alone: anything apart from the names
    it writes, [.npmrc] included when it has no line to put there. *)
Lemma untouched_populate_names (q t : path) (b : Backend) (s : Selected)
  (useMirror : bool) :
  In b (backends E) ->
  (forall r, t <> q ++ r) ->
  (forall k rel, In k populated -> disjoint (t ++ k :: rel) q = true) ->
  (npmrcLinesOf E useMirror <> [] -> disjoint (t ++ [".npmrc"]) q = true) ->
  untouched q (populate E t b s useMirror).
Proof.
  intros Hb Ht Hd Hn. unfold populate. cbv zeta.
  assert (Hw : forall k rel c, In k populated -> untouched q (writeFile (t ++ k :: rel) c)).
  { intros k rel c Hk. apply untouched_writeFile. now apply Hd. }
  assert (Hf : forall rel c, untouched q (writeFile ((t ++ ["src"; "frontend"]) ++ rel) c)).
  { intros rel c. rewrite <- app_assoc. apply Hw. cbn. tauto. }
  assert (He : forall k rel, In k populated -> untouched q (ensureDir (t ++ k :: rel))).
  { intros k rel Hk. apply untouched_ensureDir, disjoint_not_prefix. now apply Hd. }
  assert (Hef : forall rel, untouched q (ensureDir ((t ++ ["src"; "frontend"]) ++ rel))).
  { intros rel. rewrite <- app_assoc. apply He. cbn. tauto. }
  assert (Htd : untouched q (ensureDir t)) by now apply untouched_ensureDir.
  apply untouched_bind; [exact Htd|intros _].
  apply untouched_bind.
  { apply untouched_forEach_In. intros d0 Hin. unfold dirs in Hin. cbn in Hin.
    repeat (destruct Hin as [<-|Hin]; [apply He; cbn; tauto|]). destruct Hin. }
  intros _.
  repeat (apply untouched_bind;
          [solve [apply Hf | apply Hef | apply Hw; cbn; tauto | apply He; cbn; tauto]
          |intros _]).
  apply untouched_bind.
  { apply In_backends in Hb as [->|[->| ->]]; cbn [nth backends createFiles];
      repeat (apply untouched_bind; [apply Hw; cbn; tauto|intros _]);
      apply Hw; cbn; tauto. }
  intros _. apply untouched_bind.
  { apply untouched_forEach. intros [name content]. unfold writeExecutableIfUnix.
    apply untouched_bind; [apply Hw; cbn; tauto|]. intros _.
    destruct (negb (isWindows E)); [|apply untouched_ret].
    apply untouched_attempt. intros d d' Hs.
    apply (store_lookup_disjoint _ _ _ _ _ Hs). apply Hd. cbn. tauto. }
  intros _. apply untouched_bind; [apply Hw; cbn; tauto|]. intros _.
  fold (npmrcLinesOf E useMirror).
  destruct (npmrcLinesOf E useMirror) as [|l ls]; [apply untouched_ret|].
  cbn. apply untouched_writeFile. apply Hn. discriminate.
Qed.

(** X27. For every run of the populating path that returns, with one of
    the three backends: the target holds a package.json whose text is the
    manifest built from the package name of the target's base name and
    from the selected version without its leading v, followed by a line
    break; and it holds a .npmrc with the registry and mirror lines (when
    the mirror was asked for) and the audit line (unless [--audit] was
    given), each followed by a line break, or, when there is no such
    line, whatever was at that path before: the file is not written. *)
Theorem populate_manifest (t : path) (b : Backend) (s : Selected)
  (useMirror : bool) (d d' : fsnode)
  (Hb : In b (backends E))
  (H : populate E t b s useMirror d = (Ret tt, d')) :
  (exists x,
     lookup (t ++ ["package.json"]) d' =
     Some (File (stringifyPkg (tpl E) (toPackageName (tpl E) (basename t))
                   (normalizeVersion (sel_version s)) ++ nl) x)) /\
  match npmrcLinesOf E useMirror with
  | [] => lookup (t ++ [".npmrc"]) d' = lookup (t ++ [".npmrc"]) d
  | lines =>
      exists x, lookup (t ++ [".npmrc"]) d' =
                Some (File (String.concat nl lines ++ nl) x)
  end.
Proof.
  split.
  - unfold populate in H. cbv zeta in H.
    do 24 (apply bind_inv in H as [? [? [_ H]]]).
    apply bind_inv in H as [[] [d1 [H1 H2]]].
    apply writeFile_inv in H1 as [H1 _].
    fold (npmrcLinesOf E useMirror) in H2.
    destruct (npmrcLinesOf E useMirror) as [|l ls].
    + injection H2 as <-. eauto.
    + cbn in H2. apply writeFile_inv in H2 as [_ [_ Hq]].
      rewrite Hq by (rewrite disjoint_under; reflexivity). eauto.
  - destruct (npmrcLinesOf E useMirror) as [|l ls] eqn:Hl.
    + pose proof (untouched_populate_names (t ++ [".npmrc"]) t b s useMirror Hb) as Hu.
      rewrite <- (Hu ltac:(intros r; apply not_prefix_longer; discriminate)
                    ltac:(intros k rel Hk; rewrite disjoint_under; cbn in Hk;
                          repeat (destruct Hk as [<-|Hk]; [reflexivity|]); destruct Hk)
                    ltac:(congruence) d).
      now rewrite H.
    + unfold populate in H. cbv zeta in H.
      do 25 (apply bind_inv in H as [? [? [_ H]]]).
      fold (npmrcLinesOf E useMirror) in H. rewrite Hl in H. cbn in H.
      apply writeFile_inv in H as [H _]. eauto.
Qed.

End PopulateFiles.

Lemma populate_directories_witness :
  exists d',
    populate (exampleEnv false (Some "10.2.4") [] installOk) ["work"; "app"]
      (defaultBackend (exampleEnv false (Some "10.2.4") [] installOk))
      (manualEntry "v30.0.0") false (Dir [("work", Dir [])]) = (Ret tt, d') /\
    isDirAt ["work"; "app"; "data"] d' = true.
Proof.
  destruct (populate (exampleEnv false (Some "10.2.4") [] installOk) ["work"; "app"]
              (defaultBackend (exampleEnv false (Some "10.2.4") [] installOk))
              (manualEntry "v30.0.0") false (Dir [("work", Dir [])]))
    as [[[]|c|] d'] eqn:H; try (vm_compute in H; discriminate).
  exists d'. split; [reflexivity|].
  apply (populate_directories _ ["work"; "app"] _ _ _ _ _ ["data"]
           ltac:(left; reflexivity) H).
  cbn. tauto.
Defined.

Lemma populate_manifest_witness :
  exists d' x,
    populate (exampleEnv false (Some "10.2.4") [] installOk) ["work"; "app"]
      (defaultBackend (exampleEnv false (Some "10.2.4") [] installOk))
      (manualEntry "v30.0.0") false (Dir [("work", Dir [])]) = (Ret tt, d') /\
    lookup ["work"; "app"; "package.json"] d' = Some (File ("30.0.0" ++ nl) x).
Proof.
  destruct (populate (exampleEnv false (Some "10.2.4") [] installOk) ["work"; "app"]
              (defaultBackend (exampleEnv false (Some "10.2.4") [] installOk))
              (manualEntry "v30.0.0") false (Dir [("work", Dir [])]))
    as [[[]|c|] d'] eqn:H; try (vm_compute in H; discriminate).
  destruct (populate_manifest _ ["work"; "app"] _ _ _ _ _
              ltac:(left; reflexivity) H) as [[x Hx] _].
  exists d', x. split; [reflexivity|exact Hx].
Defined.

Section WriteFacts.

Local Open Scope list_scope.

Lemma writes_writeFile (q : path) (content : string) :
  writes q content (writeFile q content).
Proof.
  intros d d' [] H. apply writeFile_inv in H as [H _]. eauto.
Qed.

Lemma writes_bind_left {A B : Type} (q : path) (content : string)
  (m : M fsnode A) (k : A -> M fsnode B) :
  writes q content m -> (forall a, untouched q (k a)) -> writes q content (bind m k).
Proof.
  intros Hm Hk d d' b H. apply bind_inv in H as [a [d1 [H1 H2]]].
  destruct (Hm _ _ _ H1) as [x Hx]. exists x.
  specialize (Hk a d1). rewrite H2 in Hk. cbn [snd] in Hk. congruence.
Qed.

Lemma writes_bind_right {A B : Type} (q : path) (content : string)
  (m : M fsnode A) (k : A -> M fsnode B) :
  (forall a, writes q content (k a)) -> writes q content (bind m k).
Proof.
  intros Hk d d' b H. apply bind_inv in H as [a [d1 [H1 H2]]]. eapply Hk, H2.
Qed.

Lemma untouched_chmodSync (q p : path) :
  disjoint p q = true -> untouched q (chmodSync p).
Proof.
  intros H. apply untouched_attempt. intros d d' Hs.
  now apply (store_lookup_disjoint _ _ _ _ _ Hs).
Qed.

End WriteFacts.

Ltac apart_path :=
  rewrite <- ?app_assoc; cbn [app]; rewrite disjoint_under; reflexivity.

Ltac untouched_step :=
  match goal with
  | |- untouched _ (bind _ _) => apply untouched_bind; [|intros]
  | |- untouched _ (ret _) => apply untouched_ret
  | |- untouched _ (writeFile _ _) => apply untouched_writeFile; apart_path
  | |- untouched _ (ensureDir _) =>
      apply untouched_ensureDir, disjoint_not_prefix; apart_path
  | |- untouched _ (chmodSync _) => apply untouched_chmodSync; apart_path
  | |- untouched _ (forEach _ _) => apply untouched_forEach; intros
  | |- untouched _ (writeExecutableIfUnix _ _ _) => unfold writeExecutableIfUnix
  | |- untouched _ (let '(_, _) := ?x in _) => destruct x
  | |- untouched _ (if ?b then _ else _) => destruct b
  end.

Ltac untouched_all := repeat untouched_step.

Ltac writes_find :=
  rewrite <- ?app_assoc; cbn [app];
  first [ apply writes_writeFile
        | apply writes_bind_left; [writes_find|intros; untouched_all]
        | apply writes_bind_right; intros; writes_find ].

Section PopulateTemplates.

Local Open Scope list_scope.

Variable E : Env.

(** X28. For every run of the populating path that returns, with one of
    the three backends: each template file is in place with its text at
    the end: the ignore file, the README, the eight files of the frontend
    root, the five of its sources, the two of the Electron shell, and the
    files of the backend chosen (for the Go backend a go.mod that names
    the module after the project).  No later step of the path writes
    over one of them. *)
Theorem populate_files (t : path) (b : Backend) (s : Selected)
  (useMirror : bool) (d d' : fsnode) (rel : path) (content : string)
  (Hb : In b (backends E))
  (H : populate E t b s useMirror d = (Ret tt, d'))
  (Hin : In (rel, content) (scaffoldFiles E t ++ backendFiles E t b)) :
  exists x, lookup (t ++ rel) d' = Some (File content x).
Proof.
  assert (Hw : writes (t ++ rel) content (populate E t b s useMirror));
    [|eapply Hw, H].
  clear H. unfold populate. cbv zeta.
  apply In_backends in Hb as [->|[->| ->]];
    cbn [nth backends createFiles backendFiles key String.eqb Ascii.eqb Bool.eqb
         scaffoldFiles app] in Hin |- *;
    repeat (destruct Hin as [Hin|Hin];
            [injection Hin as <- <-; writes_find|]);
    destruct Hin.
Qed.

End PopulateTemplates.

Section PopulateScripts.

Local Open Scope list_scope.

Variable E : Env.

Lemma writeExecutableIfUnix_inv (q : path) (content : string) (windows : bool)
  (d d' : fsnode) :
  writeExecutableIfUnix q content windows d = (Ret tt, d') ->
  exists x, lookup q d' = Some (File content x) /\ (windows = false -> x = true).
Proof.
  unfold writeExecutableIfUnix. intros H.
  apply bind_inv in H as [[] [d1 [H1 H2]]].
  apply writeFile_inv in H1 as [Ht _].
  destruct windows; cbn [negb] in H2.
  - injection H2 as <-. eexists. split; [exact Ht|discriminate].
  - apply attempt_inv in H2. destruct (store_lookup _ _ _ _ H2) as [v [Hv Hl]].
    rewrite Ht in Hv. injection Hv as <-. eauto.
Qed.

Lemma untouched_writeExecutableIfUnix (q p : path) (content : string) (windows : bool) :
  disjoint p q = true -> untouched q (writeExecutableIfUnix p content windows).
Proof.
  intros H. unfold writeExecutableIfUnix.
  apply untouched_bind; [now apply untouched_writeFile|]. intros _.
  destruct (negb windows); [now apply untouched_chmodSync|apply untouched_ret].
Qed.

Lemma disjoint_siblings (t : path) (a b : string) :
  a <> b -> disjoint (t ++ ["scripts"; a]) (t ++ ["scripts"; b]) = true.
Proof.
  intros H. rewrite disjoint_under. simpl.
  now destruct (String.eqb_spec a b).
Qed.

(** The loop over the scripts (lines 1070-1073). *)
Lemma scripts_written (t : path) (windows : bool) (l : list (string * string)) :
  NoDup (map fst l) ->
  forall d d', forEach l (fun script =>
                 let '(name, content) := script in
                 writeExecutableIfUnix (t ++ ["scripts"; name]) content windows) d
               = (Ret tt, d') ->
  forall name content, In (name, content) l ->
    exists x, lookup (t ++ ["scripts"; name]) d' = Some (File content x) /\
              (windows = false -> x = true).
Proof.
  induction l as [|[n c] l IH]; intros Hnd d d' H name content Hin; [destruct Hin|].
  cbn [forEach] in H. apply bind_inv in H as [[] [d1 [H1 H2]]].
  cbn [map fst] in Hnd. apply NoDup_cons_iff in Hnd as [Hn Hnd].
  destruct Hin as [[= <- <-]|Hin].
  - destruct (writeExecutableIfUnix_inv _ _ _ _ _ H1) as [x [Hx Hw]].
    exists x. split; [|exact Hw]. rewrite <- Hx.
    assert (Hu : untouched (t ++ ["scripts"; n])
                   (forEach l (fun script =>
                      let '(name, content) := script in
                      writeExecutableIfUnix (t ++ ["scripts"; name]) content windows))).
    { apply untouched_forEach_In. intros [n' c'] Hin'.
      apply untouched_writeExecutableIfUnix, disjoint_siblings.
      intros ->. apply Hn. apply in_map_iff. now exists (n, c'). }
    specialize (Hu d1). now rewrite H2 in Hu.
  - now apply (IH Hnd d1 d' H2).
Qed.

(** X29. For every run of the populating path that returns, with one of
    the three backends, the scripts built for it having different names:
    each script is in place in the scripts directory with its text at the
    end, and off Windows it is executable. *)
Theorem populate_scripts (t : path) (b : Backend) (s : Selected)
  (useMirror : bool) (d d' : fsnode) (name content : string)
  (Hb : In b (backends E))
  (Hnames : NoDup (map fst (buildScripts (tpl E) (isWindows E) b)))
  (H : populate E t b s useMirror d = (Ret tt, d'))
  (Hin : In (name, content) (buildScripts (tpl E) (isWindows E) b)) :
  exists x,
    lookup (t ++ ["scripts"; name]) d' = Some (File content x) /\
    (isWindows E = false -> x = true).
Proof.
  unfold populate in H. cbv zeta in H.
  do 23 (apply bind_inv in H as [? [? [_ H]]]).
  apply bind_inv in H as [[] [d1 [H1 H2]]].
  destruct (scripts_written t (isWindows E) _ Hnames _ _ H1 name content Hin)
    as [bit [Hbit Hw]].
  exists bit. split; [|exact Hw]. rewrite <- Hbit.
  assert (Hu : untouched (t ++ ["scripts"; name])
                 (writeFile (t ++ ["package.json"])
                    (stringifyPkg (tpl E) (toPackageName (tpl E) (basename t))
                       (normalizeVersion (sel_version s)) ++ nl) ;;
                  if (0 <? List.length (npmrcLinesOf E useMirror))%nat
                  then writeFile (t ++ [".npmrc"])
                         (String.concat nl (npmrcLinesOf E useMirror) ++ nl)
                  else ret tt)).
  { apply untouched_bind; [apply untouched_writeFile; apart_path|]. intros _.
    destruct (0 <? List.length (npmrcLinesOf E useMirror))%nat;
      [apply untouched_writeFile; apart_path|apply untouched_ret]. }
  specialize (Hu d1). unfold npmrcLinesOf in Hu. rewrite H2 in Hu. exact Hu.
Qed.

End PopulateScripts.

Lemma populate_scripts_witness :
  exists d',
    populate (exampleEnv false (Some "10.2.4") [] installOk) ["work"; "app"]
      (defaultBackend (exampleEnv false (Some "10.2.4") [] installOk))
      (manualEntry "v30.0.0") false (Dir [("work", Dir [])]) = (Ret tt, d') /\
    lookup ["work"; "app"; "scripts"; "dev.sh"] d' = Some (File "" true).
Proof.
  destruct (populate (exampleEnv false (Some "10.2.4") [] installOk) ["work"; "app"]
              (defaultBackend (exampleEnv false (Some "10.2.4") [] installOk))
              (manualEntry "v30.0.0") false (Dir [("work", Dir [])]))
    as [[[]|c|] d'] eqn:H; try (vm_compute in H; discriminate).
  assert (Hnames : NoDup (map fst
            (buildScripts (tpl (exampleEnv false (Some "10.2.4") [] installOk))
               (isWindows (exampleEnv false (Some "10.2.4") [] installOk))
               (defaultBackend (exampleEnv false (Some "10.2.4") [] installOk))))).
  { cbn. repeat (apply NoDup_cons;
                 [cbn; intros Hc;
                  repeat (destruct Hc as [Hc|Hc]; [discriminate Hc|]); exact Hc|]).
    apply NoDup_nil. }
  destruct (populate_scripts (exampleEnv false (Some "10.2.4") [] installOk)
              ["work"; "app"] _ _ _ _ _ "dev.sh" ""
              ltac:(left; reflexivity) Hnames H)
    as [x [Hx Hw]].
  - cbn. right. left. reflexivity.
  - exists d'. split; [reflexivity|]. rewrite (Hw eq_refl) in Hx. exact Hx.
Defined.

Lemma populate_files_witness :
  exists d' x,
    populate (exampleEnv false (Some "10.2.4") [] installOk) ["work"; "app"]
      (nth 2 (backends (exampleEnv false (Some "10.2.4") [] installOk))
         (defaultBackend (exampleEnv false (Some "10.2.4") [] installOk)))
      (manualEntry "v30.0.0") false (Dir [("work", Dir [])]) = (Ret tt, d') /\
    lookup ["work"; "app"; "src"; "backend"; "go.mod"] d'
    = Some (File ("module app" ++ nl ++ nl ++ "go 1.20" ++ nl) x).
Proof.
  destruct (populate (exampleEnv false (Some "10.2.4") [] installOk) ["work"; "app"]
              (nth 2 (backends (exampleEnv false (Some "10.2.4") [] installOk))
                 (defaultBackend (exampleEnv false (Some "10.2.4") [] installOk)))
              (manualEntry "v30.0.0") false (Dir [("work", Dir [])]))
    as [[[]|c|] d'] eqn:H; try (vm_compute in H; discriminate).
  destruct (populate_files _ ["work"; "app"] _ _ _ _ _
              ["src"; "backend"; "go.mod"]
              ("module app" ++ nl ++ nl ++ "go 1.20" ++ nl)
              ltac:(right; right; left; reflexivity) H) as [x Hx].
  - apply in_or_app. right. cbn. right. left. reflexivity.
  - exists d', x. split; [reflexivity|exact Hx].
Defined.

(** ** The package name *)

Section NamingFacts.

Import Naming.

Lemma endsWith_cons (c d : ascii) (r : string) :
  endsWith c (String d r) = match r with
                            | EmptyString => Ascii.eqb d c
                            | _ => endsWith c r
                            end.
Proof. reflexivity. Qed.

Lemma isNameChar_lower (c : ascii) : isNameChar c = true -> lowerChar c = c.
Proof.
  destruct c as [[] [] [] [] [] [] [] []]; vm_compute; intros H;
    first [reflexivity | discriminate].
Qed.

Lemma isDash_name (c : ascii) : isDash c = true -> isNameChar c = true.
Proof. unfold isDash. intros H. apply Ascii.eqb_eq in H. now subst. Qed.

Lemma allChars_replaceOthers (b : bool) (s : string) :
  allChars isNameChar (replaceOthers b s) = true.
Proof.
  revert b. induction s as [|c r IH]; intros b; simpl; [reflexivity|].
  destruct (isNameChar c) eqn:Hc; simpl; [now rewrite Hc, IH|].
  destruct b; [apply IH|]. simpl. apply IH.
Qed.

Lemma allChars_dropLeading (f : ascii -> bool) (s : string) :
  allChars f s = true -> allChars f (dropLeading s) = true.
Proof.
  induction s as [|c r IH]; simpl; [reflexivity|]. intros H.
  apply andb_true_iff in H as [Hc Hr].
  destruct (isDash c); [auto|]. simpl. now rewrite Hc, Hr.
Qed.

Lemma allChars_dropTrailing (f : ascii -> bool) (s : string) :
  allChars f s = true -> allChars f (dropTrailing s) = true.
Proof.
  induction s as [|c r IH]; simpl; [reflexivity|]. intros H.
  apply andb_true_iff in H as [Hc Hr]. specialize (IH Hr).
  destruct (dropTrailing r) as [|d r'].
  - destruct (isDash c); simpl; [reflexivity|now rewrite Hc].
  - cbn [allChars]. now rewrite Hc.
Qed.

Lemma allChars_squeeze (f : ascii -> bool) (b : bool) (s : string) :
  allChars f s = true -> allChars f (squeeze b s) = true.
Proof.
  revert b. induction s as [|c r IH]; intros b; simpl; [reflexivity|]. intros H.
  apply andb_true_iff in H as [Hc Hr].
  destruct (isDash c); [destruct b|]; simpl; rewrite ?Hc; simpl; auto.
Qed.

Lemma startsWith_dropLeading (s : string) : startsWith "-" (dropLeading s) = false.
Proof.
  induction s as [|c r IH]; simpl; [reflexivity|].
  destruct (isDash c) eqn:Hc; [assumption|]. exact Hc.
Qed.

Lemma startsWith_dropTrailing (s : string) :
  startsWith "-" s = false -> startsWith "-" (dropTrailing s) = false.
Proof.
  destruct s as [|c r]; simpl; [reflexivity|]. intros Hc.
  destruct (dropTrailing r); [|exact Hc].
  fold (isDash c) in Hc. now rewrite Hc.
Qed.

Lemma endsWith_dropTrailing (s : string) : endsWith "-" (dropTrailing s) = false.
Proof.
  induction s as [|c r IH]; [reflexivity|]. cbn [dropTrailing].
  destruct (dropTrailing r) as [|d r'] eqn:Hr.
  - destruct (isDash c) eqn:Hc; [reflexivity|]. exact Hc.
  - rewrite endsWith_cons. exact IH.
Qed.

Lemma startsWith_squeeze (s : string) :
  startsWith "-" s = false -> startsWith "-" (squeeze false s) = false.
Proof.
  destruct s as [|c r]; simpl; [reflexivity|]. intros Hc.
  fold (isDash c) in Hc. now rewrite Hc.
Qed.

Lemma squeeze_empty (b : bool) (s : string) :
  squeeze b s = "" -> allChars isDash s = true /\ (b = false -> s = "").
Proof.
  revert b. induction s as [|c r IH]; intros b; simpl; [auto|].
  destruct (isDash c); [destruct b|]; try discriminate.
  intros H. apply IH in H as [H _]. split; [assumption|discriminate].
Qed.

Lemma endsWith_allDashes (s : string) :
  allChars isDash s = true -> s <> "" -> endsWith "-" s = true.
Proof.
  induction s as [|c r IH]; [congruence|]. intros H _.
  cbn [allChars] in H. apply andb_true_iff in H as [Hc Hr].
  rewrite endsWith_cons. destruct r as [|d r']; [exact Hc|].
  apply IH; [assumption|discriminate].
Qed.

Lemma endsWith_squeeze (b : bool) (s : string) :
  endsWith "-" (squeeze b s) = true -> endsWith "-" s = true.
Proof.
  revert b. induction s as [|c r IH]; intros b; [discriminate|].
  cbn [squeeze]. destruct (isDash c) eqn:Hc.
  - assert (Hcase : forall t, (t = squeeze true r) ->
              (t = "" \/ endsWith "-" t = true) -> endsWith "-" (String c r) = true).
    { intros t Ht [He|He]; subst t.
      - apply squeeze_empty in He as [Hall _]. rewrite endsWith_cons.
        destruct r as [|d r']; [exact Hc|]. apply endsWith_allDashes; [assumption|discriminate].
      - apply IH in He. rewrite endsWith_cons. destruct r; [discriminate|assumption]. }
    destruct b.
    + intros H. apply (Hcase _ eq_refl). now right.
    + rewrite endsWith_cons. intros H. apply (Hcase _ eq_refl).
      destruct (squeeze true r); [now left|now right].
  - rewrite endsWith_cons. destruct (squeeze false r) as [|d t] eqn:Hs.
    + intros H. unfold isDash in Hc. congruence.
    + intros H. rewrite <- Hs in H. apply IH in H. rewrite endsWith_cons.
      destruct r; [discriminate|assumption].
Qed.

Lemma startsWith_squeeze_true (s : string) : startsWith "-" (squeeze true s) = false.
Proof.
  induction s as [|c r IH]; simpl; [reflexivity|].
  destruct (isDash c) eqn:Hc; [assumption|]. exact Hc.
Qed.

Lemma noDoubleDash_squeeze (b : bool) (s : string) : noDoubleDash (squeeze b s) = true.
Proof.
  revert b. induction s as [|c r IH]; intros b; simpl; [reflexivity|].
  destruct (isDash c) eqn:Hc; [destruct b|]; simpl; rewrite ?Hc, ?IH; auto.
  now rewrite startsWith_squeeze_true.
Qed.

Lemma toLowerCase_names (s : string) :
  allChars isNameChar s = true -> toLowerCase s = s.
Proof.
  induction s as [|c r IH]; simpl; [reflexivity|]. intros H.
  apply andb_true_iff in H as [Hc Hr]. now rewrite isNameChar_lower, IH.
Qed.

Lemma replaceOthers_names (b : bool) (s : string) :
  allChars isNameChar s = true -> replaceOthers b s = s.
Proof.
  revert b. induction s as [|c r IH]; intros b; simpl; [reflexivity|]. intros H.
  apply andb_true_iff in H as [Hc Hr]. now rewrite Hc, IH.
Qed.

Lemma dropLeading_id (s : string) : startsWith "-" s = false -> dropLeading s = s.
Proof.
  destruct s as [|c r]; simpl; [reflexivity|]. intros Hc.
  fold (isDash c) in Hc. now rewrite Hc.
Qed.

Lemma dropTrailing_id (s : string) : endsWith "-" s = false -> dropTrailing s = s.
Proof.
  induction s as [|c r IH]; [reflexivity|]. rewrite endsWith_cons. cbn [dropTrailing].
  destruct r as [|d r'].
  - simpl. intros Hc. fold (isDash c) in Hc. now rewrite Hc.
  - intros H. rewrite (IH H). reflexivity.
Qed.

Lemma squeeze_id (b : bool) (s : string) :
  noDoubleDash s = true -> (b = true -> startsWith "-" s = false) ->
  squeeze b s = s.
Proof.
  revert b. induction s as [|c r IH]; intros b; simpl; [reflexivity|].
  intros H Hb. apply andb_true_iff in H as [Hd Hr].
  fold (isDash c) in Hb. destruct (isDash c) eqn:Hc.
  - destruct b; [now specialize (Hb eq_refl)|].
    rewrite IH; auto. intros _. simpl in Hd. now apply negb_true_iff in Hd.
  - rewrite IH; auto. discriminate.
Qed.

Lemma wellNamed_fixed (s : string) :
  wellNamed s = true -> toPackageName s = s.
Proof.
  unfold wellNamed. rewrite !andb_true_iff, !negb_true_iff.
  intros [[[[Ht Ha] Hs] He] Hd]. unfold toPackageName.
  rewrite toLowerCase_names, replaceOthers_names, dropLeading_id, dropTrailing_id,
    squeeze_id by (auto; discriminate).
  now rewrite Ht.
Qed.

(** X30. For every directory name, of code units below 256:
    [toPackageName] gives a name that is not empty, is made of lower-case
    letters, digits, dashes and underscores only, neither starts nor ends
    with a dash and has no two dashes in a row; and it leaves such a name
    as it is, so that applying it twice is applying it once. *)
Theorem toPackageName_well_named (name : string) :
  wellNamed (toPackageName name) = true /\
  toPackageName (toPackageName name) = toPackageName name.
Proof.
  assert (H : wellNamed (toPackageName name) = true).
  { unfold toPackageName.
    set (s1 := replaceOthers false (toLowerCase name)).
    set (s4 := squeeze false (dropTrailing (dropLeading s1))).
    destruct (truthy s4) eqn:Ht; [|reflexivity].
    unfold wellNamed. rewrite Ht. cbn [andb].
    rewrite !andb_true_iff, !negb_true_iff. repeat split.
    - apply allChars_squeeze, allChars_dropTrailing, allChars_dropLeading,
        allChars_replaceOthers.
    - apply startsWith_squeeze, startsWith_dropTrailing, startsWith_dropLeading.
    - destruct (endsWith "-" s4) eqn:He; [|reflexivity].
      apply endsWith_squeeze in He. now rewrite endsWith_dropTrailing in He.
    - apply noDoubleDash_squeeze. }
  split; [exact H|now apply wellNamed_fixed].
Qed.

End NamingFacts.
